(** * LibrePilot TxPID tuning module and sine lookup: a shallow embedding

    The development follows [flight/modules/TxPID/txpid.c] and
    [flight/Libraries/math/sin_lookup.c].  C [float] values are IEEE-754
    binary32 numbers; they are modelled with the Standard Library's
    executable specification of floating-point arithmetic, instantiated
    at precision 24 and maximal exponent 128. *)

From Stdlib Require Import ZArith List Bool Lia QArith Qabs Qpower Lqa.
From Stdlib Require Import Floats.SpecFloat.
Import ListNotations.

Local Open Scope Z_scope.

(* ================================================================== *)
(** * Binary32 arithmetic: the C type [float] *)
(* ================================================================== *)

Module Binary32.

Definition prec : Z := 24.
Definition emax : Z := 128.

(** A C [float]: zero, infinity, NaN, or a finite [(-1)^s * m * 2^e]. *)
Definition float : Type := spec_float.

Definition fadd : float -> float -> float := SFadd prec emax.
Definition fsub : float -> float -> float := SFsub prec emax.
Definition fmul : float -> float -> float := SFmul prec emax.
Definition fdiv : float -> float -> float := SFdiv prec emax.

(** [fabsf] of <math.h>. *)
Definition fabsf : float -> float := SFabs.

(** The C relational operators on floats; every comparison with a NaN
    is false. *)
Definition flt (x y : float) : bool := SFltb x y.
Definition fgt (x y : float) : bool := SFltb y x.
Definition fle (x y : float) : bool := SFleb x y.
Definition feq (x y : float) : bool := SFeqb x y.

(** Conversion of an integer constant, rounding to nearest even. *)
Definition of_Z (z : Z) : float := binary_normalize prec emax z 0 false.

(** The literals that occur in the sources. *)
Definition f_zero : float := S754_zero false.          (* 0.0f *)
Definition f_one : float := of_Z 1.                    (* 1.0f *)
Definition f_minus_one : float := of_Z (-1).           (* -1.0f *)

(** [1e-9f]: the binary32 number nearest to [10^-9].  Both [1] and
    [10^9 = 5^9 * 2^9] are binary32 numbers, so the correctly rounded
    quotient is the correctly rounded literal. *)
Definition f_1e_9 : float := fdiv (of_Z 1) (of_Z 1000000000).

Definition is_nan (x : float) : bool :=
  match x with S754_nan => true | _ => false end.

(** Finite values: zeros and finite non-zero numbers, C's [isfinite]. *)
Definition is_finite (x : float) : bool :=
  match x with
  | S754_zero _ | S754_finite _ _ _ => true
  | _ => false
  end.

(** A well-formed binary32 datum: mantissa and exponent in canonical
    position. *)
Definition valid (x : float) : bool := valid_binary prec emax x.

(** A finite, well-formed number. *)
Definition regular (x : float) : bool := is_finite x && valid x.

(** The rational number denoted by a finite float (0 for the others). *)
Definition to_Q (x : float) : Q :=
  match x with
  | S754_finite s m e =>
      (inject_Z (cond_Zopp s (Zpos m)) * Qpower (2 # 1) e)%Q
  | _ => 0%Q
  end.

(** The float [r] is the result of the rational operation [op] on the
    values of [x] and [y], without rounding and without overflow. *)
Definition exact (op : Q -> Q -> Q) (x y r : float) : bool :=
  regular r && Qeq_bool (to_Q r) (op (to_Q x) (to_Q y)).

(** C conversion [(int32_t) x]: truncation toward zero; the behaviour is
    undefined ([None]) for NaN, infinities and values outside the range
    of [int32_t]. *)
Definition trunc (x : float) : option Z :=
  match x with
  | S754_zero _ => Some 0
  | S754_finite s m e =>
      Some (cond_Zopp s
              (match e with
               | Z0 => Zpos m
               | Zpos p => Z.shiftl (Zpos m) e
               | Zneg p => Z.shiftr (Zpos m) (Zpos p)
               end))
  | _ => None
  end.

Definition to_int32 (x : float) : option Z :=
  match trunc x with
  | Some z => if (-2147483648 <=? z) && (z <=? 2147483647) then Some z else None
  | None => None
  end.

End Binary32.

Import Binary32.

(* ================================================================== *)
(** * txpid.c: the scaler and comparator primitives *)
(* ================================================================== *)

Module TxPIDPrim.

(** [static float scale(float val, float inMin, float inMax,
                        float outMin, float outMax)].
    Every operation rounds to binary32 on its own, as C evaluates [float]
    expressions without excess precision and without contraction. *)
Definition scale (val inMin inMax outMin outMax : float) : float :=
  (* bound input value *)
  let val := if fgt val inMax then inMax else val in
  let val := if flt val inMin then inMin else val in
  (* normalize input value to [0..1] *)
  let val := if fle inMax inMin then f_zero
             else fdiv (fsub val inMin) (fsub inMax inMin) in
  (* update output bounds *)
  let '(outMin, outMax, val) :=
    if fgt outMin outMax then (outMax, outMin, fsub f_one val)
    else (outMin, outMax, val) in
  fadd (fmul (fsub outMax outMin) val) outMin.

(** The test [fabsf( *var - val) > 1e-9f] of [update]. *)
Definition differs (var val : float) : bool :=
  fgt (fabsf (fsub var val)) f_1e_9.

(** [static uint8_t update(float *var, float val)]: the contents of
    [*var] after the call, and the returned flag. *)
Definition update (var val : float) : float * Z :=
  if differs var val then (val, 1) else (var, 0).

End TxPIDPrim.

(* ================================================================== *)
(** * The UAVObjects used by txpid.c *)
(* ================================================================== *)

Module UAVObjects.

(** Value of the field [PIDs[i]] of [TxPIDSettings]: the constants
    [TXPIDSETTINGS_PIDS_*] named in [updatePIDs], and any other byte. *)
Inductive PIDsOption : Type :=
| TXPIDSETTINGS_PIDS_DISABLED
| TXPIDSETTINGS_PIDS_ROLLRATEKP
| TXPIDSETTINGS_PIDS_ROLLRATEKI
| TXPIDSETTINGS_PIDS_ROLLRATEKD
| TXPIDSETTINGS_PIDS_ROLLRATEILIMIT
| TXPIDSETTINGS_PIDS_ROLLATTITUDEKP
| TXPIDSETTINGS_PIDS_ROLLATTITUDEKI
| TXPIDSETTINGS_PIDS_ROLLATTITUDEILIMIT
| TXPIDSETTINGS_PIDS_PITCHRATEKP
| TXPIDSETTINGS_PIDS_PITCHRATEKI
| TXPIDSETTINGS_PIDS_PITCHRATEKD
| TXPIDSETTINGS_PIDS_PITCHRATEILIMIT
| TXPIDSETTINGS_PIDS_PITCHATTITUDEKP
| TXPIDSETTINGS_PIDS_PITCHATTITUDEKI
| TXPIDSETTINGS_PIDS_PITCHATTITUDEILIMIT
| TXPIDSETTINGS_PIDS_ROLLPITCHRATEKP
| TXPIDSETTINGS_PIDS_ROLLPITCHRATEKI
| TXPIDSETTINGS_PIDS_ROLLPITCHRATEKD
| TXPIDSETTINGS_PIDS_ROLLPITCHRATEILIMIT
| TXPIDSETTINGS_PIDS_ROLLPITCHATTITUDEKP
| TXPIDSETTINGS_PIDS_ROLLPITCHATTITUDEKI
| TXPIDSETTINGS_PIDS_ROLLPITCHATTITUDEILIMIT
| TXPIDSETTINGS_PIDS_YAWRATEKP
| TXPIDSETTINGS_PIDS_YAWRATEKI
| TXPIDSETTINGS_PIDS_YAWRATEKD
| TXPIDSETTINGS_PIDS_YAWRATEILIMIT
| TXPIDSETTINGS_PIDS_YAWATTITUDEKP
| TXPIDSETTINGS_PIDS_YAWATTITUDEKI
| TXPIDSETTINGS_PIDS_YAWATTITUDEILIMIT
| TXPIDSETTINGS_PIDS_GYROTAU
| TXPIDSETTINGS_PIDS_other (raw : Z).

Definition is_disabled (p : PIDsOption) : bool :=
  match p with TXPIDSETTINGS_PIDS_DISABLED => true | _ => false end.

(** [TxPIDSettingsData].  The four per-instance fields are C structs read
    as arrays of [TXPIDSETTINGS_PIDS_NUMELEM] elements; they are lists
    here, and an index is read with [nth]. *)
Record TxPIDSettingsData : Type := {
  UpdateMode : Z;                      (* uint8_t *)
  PIDs : list PIDsOption;
  Inputs : list Z;                     (* uint8_t each *)
  MinPID : list float;
  MaxPID : list float;
  ThrottleRange_Min : float;
  ThrottleRange_Max : float
}.

Record RatePIDData : Type := {
  Rate_Kp : float; Rate_Ki : float; Rate_Kd : float; Rate_ILimit : float
}.

Record PIData : Type := {
  PI_Kp : float; PI_Ki : float; PI_ILimit : float
}.

(** The fields of [StabilizationBankData] that [updatePIDs] names. *)
Record StabilizationBankData : Type := {
  RollRatePID : RatePIDData;
  PitchRatePID : RatePIDData;
  YawRatePID : RatePIDData;
  RollPI : PIData;
  PitchPI : PIData;
  YawPI : PIData
}.

Record StabilizationSettingsData : Type := { GyroTau : float }.

Record AccessoryDesiredData : Type := { AccessoryVal : float }.

(** A [float *] into a local struct: how to read and how to store the
    pointed field. *)
Record FieldPtr (S : Type) : Type := {
  load : S -> float;
  store : float -> S -> S
}.
Arguments load {S} _ _.
Arguments store {S} _ _ _.

Definition rate_Kp : FieldPtr RatePIDData :=
  {| load := Rate_Kp;
     store v r := {| Rate_Kp := v; Rate_Ki := Rate_Ki r;
                     Rate_Kd := Rate_Kd r; Rate_ILimit := Rate_ILimit r |} |}.
Definition rate_Ki : FieldPtr RatePIDData :=
  {| load := Rate_Ki;
     store v r := {| Rate_Kp := Rate_Kp r; Rate_Ki := v;
                     Rate_Kd := Rate_Kd r; Rate_ILimit := Rate_ILimit r |} |}.
Definition rate_Kd : FieldPtr RatePIDData :=
  {| load := Rate_Kd;
     store v r := {| Rate_Kp := Rate_Kp r; Rate_Ki := Rate_Ki r;
                     Rate_Kd := v; Rate_ILimit := Rate_ILimit r |} |}.
Definition rate_ILimit : FieldPtr RatePIDData :=
  {| load := Rate_ILimit;
     store v r := {| Rate_Kp := Rate_Kp r; Rate_Ki := Rate_Ki r;
                     Rate_Kd := Rate_Kd r; Rate_ILimit := v |} |}.

Definition pi_Kp : FieldPtr PIData :=
  {| load := PI_Kp;
     store v r := {| PI_Kp := v; PI_Ki := PI_Ki r; PI_ILimit := PI_ILimit r |} |}.
Definition pi_Ki : FieldPtr PIData :=
  {| load := PI_Ki;
     store v r := {| PI_Kp := PI_Kp r; PI_Ki := v; PI_ILimit := PI_ILimit r |} |}.
Definition pi_ILimit : FieldPtr PIData :=
  {| load := PI_ILimit;
     store v r := {| PI_Kp := PI_Kp r; PI_Ki := PI_Ki r; PI_ILimit := v |} |}.

Definition in_RollRatePID (p : FieldPtr RatePIDData) : FieldPtr StabilizationBankData :=
  {| load b := load p (RollRatePID b);
     store v b := {| RollRatePID := store p v (RollRatePID b);
                     PitchRatePID := PitchRatePID b; YawRatePID := YawRatePID b;
                     RollPI := RollPI b; PitchPI := PitchPI b; YawPI := YawPI b |} |}.
Definition in_PitchRatePID (p : FieldPtr RatePIDData) : FieldPtr StabilizationBankData :=
  {| load b := load p (PitchRatePID b);
     store v b := {| RollRatePID := RollRatePID b;
                     PitchRatePID := store p v (PitchRatePID b);
                     YawRatePID := YawRatePID b;
                     RollPI := RollPI b; PitchPI := PitchPI b; YawPI := YawPI b |} |}.
Definition in_YawRatePID (p : FieldPtr RatePIDData) : FieldPtr StabilizationBankData :=
  {| load b := load p (YawRatePID b);
     store v b := {| RollRatePID := RollRatePID b; PitchRatePID := PitchRatePID b;
                     YawRatePID := store p v (YawRatePID b);
                     RollPI := RollPI b; PitchPI := PitchPI b; YawPI := YawPI b |} |}.
Definition in_RollPI (p : FieldPtr PIData) : FieldPtr StabilizationBankData :=
  {| load b := load p (RollPI b);
     store v b := {| RollRatePID := RollRatePID b; PitchRatePID := PitchRatePID b;
                     YawRatePID := YawRatePID b;
                     RollPI := store p v (RollPI b);
                     PitchPI := PitchPI b; YawPI := YawPI b |} |}.
Definition in_PitchPI (p : FieldPtr PIData) : FieldPtr StabilizationBankData :=
  {| load b := load p (PitchPI b);
     store v b := {| RollRatePID := RollRatePID b; PitchRatePID := PitchRatePID b;
                     YawRatePID := YawRatePID b; RollPI := RollPI b;
                     PitchPI := store p v (PitchPI b);
                     YawPI := YawPI b |} |}.
Definition in_YawPI (p : FieldPtr PIData) : FieldPtr StabilizationBankData :=
  {| load b := load p (YawPI b);
     store v b := {| RollRatePID := RollRatePID b; PitchRatePID := PitchRatePID b;
                     YawRatePID := YawRatePID b; RollPI := RollPI b;
                     PitchPI := PitchPI b;
                     YawPI := store p v (YawPI b) |} |}.

Definition stab_GyroTau : FieldPtr StabilizationSettingsData :=
  {| load := GyroTau; store v _ := {| GyroTau := v |} |}.

(** The object store seen by the module: the settings object, the armed
    flag of [FlightStatus], the three stabilization banks, the
    stabilization settings, the throttle of [ManualControlCommand] and
    the instances of [AccessoryDesired] (absent instances are [None]). *)
Record Bus : Type := {
  obj_TxPIDSettings : TxPIDSettingsData;
  obj_FlightStatusArmed : Z;           (* uint8_t *)
  obj_StabilizationSettingsBank1 : StabilizationBankData;
  obj_StabilizationSettingsBank2 : StabilizationBankData;
  obj_StabilizationSettingsBank3 : StabilizationBankData;
  obj_StabilizationSettings : StabilizationSettingsData;
  obj_Throttle : float;
  obj_AccessoryDesired : Z -> option AccessoryDesiredData
}.

(** One call of the UAVObject API, as recorded in the trace of a tick. *)
Inductive BusOp : Type :=
| TxPIDSettingsGet
| FlightStatusArmedGet
| StabilizationSettingsBank1Get
| StabilizationSettingsBank2Get
| StabilizationSettingsBank3Get
| StabilizationSettingsGet
| ManualControlCommandThrottleGet
| AccessoryDesiredInstGet (instId : Z)
| StabilizationSettingsSet (d : StabilizationSettingsData)
| StabilizationSettingsBank1Set (d : StabilizationBankData)
| StabilizationSettingsBank2Set (d : StabilizationBankData)
| StabilizationSettingsBank3Set (d : StabilizationBankData).

Definition is_write (op : BusOp) : bool :=
  match op with
  | StabilizationSettingsSet _
  | StabilizationSettingsBank1Set _
  | StabilizationSettingsBank2Set _
  | StabilizationSettingsBank3Set _ => true
  | _ => false
  end.

Definition is_bank_write (op : BusOp) : bool :=
  match op with
  | StabilizationSettingsBank1Set _
  | StabilizationSettingsBank2Set _
  | StabilizationSettingsBank3Set _ => true
  | _ => false
  end.

Definition is_settings_write (op : BusOp) : bool :=
  match op with StabilizationSettingsSet _ => true | _ => false end.

Definition is_input_read (op : BusOp) : bool :=
  match op with
  | ManualControlCommandThrottleGet | AccessoryDesiredInstGet _ => true
  | _ => false
  end.

Definition is_bank3_op (op : BusOp) : bool :=
  match op with
  | StabilizationSettingsBank3Get | StabilizationSettingsBank3Set _ => true
  | _ => false
  end.

End UAVObjects.

Import UAVObjects.

(* ================================================================== *)
(** * txpid.c: the periodic task *)
(* ================================================================== *)

Module TxPID.

Import TxPIDPrim.

(** The constants of the generated UAVObject headers that [updatePIDs]
    uses.  The headers are produced by the UAVObject generator and are not
    part of the module's source, so their values are parameters. *)
Record Headers : Type := {
  TXPIDSETTINGS_UPDATEMODE_NEVER : Z;
  TXPIDSETTINGS_UPDATEMODE_WHENARMED : Z;
  FLIGHTSTATUS_ARMED_DISARMED : Z;
  TXPIDSETTINGS_INPUTS_THROTTLE : Z;
  TXPIDSETTINGS_INPUTS_ACCESSORY0 : Z;
  TXPIDSETTINGS_PIDS_NUMELEM : nat;
  AccessoryDesiredHandle : Z           (* UAVObjHandle *)
}.

Record UAVObjEvent : Type := { obj : Z }.

(** ** Computations of the task: object store, trace, failed assertion *)

Inductive Exit (A : Type) : Type :=
| Done (a : A)
| AssertFailed.                        (* PIOS_Assert(0) *)
Arguments Done {A} a.
Arguments AssertFailed {A}.

Definition Task (A : Type) : Type := Bus -> Exit A * Bus * list BusOp.

Definition ret {A} (a : A) : Task A := fun bus => (Done a, bus, []).

Definition bind {A B} (m : Task A) (k : A -> Task B) : Task B :=
  fun bus =>
    match m bus with
    | (Done a, bus1, t1) =>
        let '(r, bus2, t2) := k a bus1 in (r, bus2, t1 ++ t2)
    | (AssertFailed, bus1, t1) => (AssertFailed, bus1, t1)
    end.

Definition PIOS_Assert_0 {A} : Task A := fun bus => (AssertFailed, bus, []).

Declare Scope task_scope.
Delimit Scope task_scope with task.
Notation "x <- m ;; k" := (bind m (fun x => k))
  (at level 100, m at next level, right associativity) : task_scope.
Notation "m ;;; k" := (bind m (fun _ => k))
  (at level 100, right associativity) : task_scope.
Local Open Scope task_scope.

(** Reading an object records the call and returns a copy. *)
Definition get {A} (op : BusOp) (f : Bus -> A) : Task A :=
  fun bus => (Done (f bus), bus, [op]).

(** Writing an object records the call and replaces the stored copy. *)
Definition set (op : BusOp) (f : Bus -> Bus) : Task unit :=
  fun bus => (Done tt, f bus, [op]).

Definition with_StabilizationSettings (d : StabilizationSettingsData) (b : Bus) : Bus :=
  {| obj_TxPIDSettings := obj_TxPIDSettings b;
     obj_FlightStatusArmed := obj_FlightStatusArmed b;
     obj_StabilizationSettingsBank1 := obj_StabilizationSettingsBank1 b;
     obj_StabilizationSettingsBank2 := obj_StabilizationSettingsBank2 b;
     obj_StabilizationSettingsBank3 := obj_StabilizationSettingsBank3 b;
     obj_StabilizationSettings := d;
     obj_Throttle := obj_Throttle b;
     obj_AccessoryDesired := obj_AccessoryDesired b |}.

Definition with_Bank1 (d : StabilizationBankData) (b : Bus) : Bus :=
  {| obj_TxPIDSettings := obj_TxPIDSettings b;
     obj_FlightStatusArmed := obj_FlightStatusArmed b;
     obj_StabilizationSettingsBank1 := d;
     obj_StabilizationSettingsBank2 := obj_StabilizationSettingsBank2 b;
     obj_StabilizationSettingsBank3 := obj_StabilizationSettingsBank3 b;
     obj_StabilizationSettings := obj_StabilizationSettings b;
     obj_Throttle := obj_Throttle b;
     obj_AccessoryDesired := obj_AccessoryDesired b |}.

Definition with_Bank2 (d : StabilizationBankData) (b : Bus) : Bus :=
  {| obj_TxPIDSettings := obj_TxPIDSettings b;
     obj_FlightStatusArmed := obj_FlightStatusArmed b;
     obj_StabilizationSettingsBank1 := obj_StabilizationSettingsBank1 b;
     obj_StabilizationSettingsBank2 := d;
     obj_StabilizationSettingsBank3 := obj_StabilizationSettingsBank3 b;
     obj_StabilizationSettings := obj_StabilizationSettings b;
     obj_Throttle := obj_Throttle b;
     obj_AccessoryDesired := obj_AccessoryDesired b |}.

Definition do_TxPIDSettingsGet : Task TxPIDSettingsData :=
  get TxPIDSettingsGet obj_TxPIDSettings.
Definition do_FlightStatusArmedGet : Task Z :=
  get FlightStatusArmedGet obj_FlightStatusArmed.
Definition do_StabilizationSettingsBank1Get : Task StabilizationBankData :=
  get StabilizationSettingsBank1Get obj_StabilizationSettingsBank1.
Definition do_StabilizationSettingsBank2Get : Task StabilizationBankData :=
  get StabilizationSettingsBank2Get obj_StabilizationSettingsBank2.
Definition do_StabilizationSettingsGet : Task StabilizationSettingsData :=
  get StabilizationSettingsGet obj_StabilizationSettings.
Definition do_ManualControlCommandThrottleGet : Task float :=
  get ManualControlCommandThrottleGet obj_Throttle.

(** [AccessoryDesiredInstGet(instId, &accessory)]: the instance number is
    a [uint16_t]; the call returns 0 and fills [accessory] when the
    instance exists ([Some]), and fails otherwise ([None]). *)
Definition do_AccessoryDesiredInstGet (instId : Z) : Task (option AccessoryDesiredData) :=
  let instId := instId mod 65536 in
  get (AccessoryDesiredInstGet instId) (fun bus => obj_AccessoryDesired bus instId).

Definition do_StabilizationSettingsSet (d : StabilizationSettingsData) : Task unit :=
  set (StabilizationSettingsSet d) (with_StabilizationSettings d).
Definition do_StabilizationSettingsBank1Set (d : StabilizationBankData) : Task unit :=
  set (StabilizationSettingsBank1Set d) (with_Bank1 d).
Definition do_StabilizationSettingsBank2Set (d : StabilizationBankData) : Task unit :=
  set (StabilizationSettingsBank2Set d) (with_Bank2 d).

(** ** The local variables of [updatePIDs] that live across the loop *)

Record Locals : Type := {
  bank : StabilizationBankData;
  stab : StabilizationSettingsData;
  needsUpdateBank : Z;                 (* uint8_t *)
  needsUpdateStab : Z                  (* uint8_t *)
}.

(** [needsUpdateBank |= update(&bank.F, value);] *)
Definition update_bank (p : FieldPtr StabilizationBankData) (value : float)
           (l : Locals) : Locals :=
  let '(x, r) := update (load p (bank l)) value in
  {| bank := store p x (bank l);
     stab := stab l;
     needsUpdateBank := Z.lor (needsUpdateBank l) r;
     needsUpdateStab := needsUpdateStab l |}.

(** [needsUpdateStab |= update(&stab.F, value);] *)
Definition update_stab (p : FieldPtr StabilizationSettingsData) (value : float)
           (l : Locals) : Locals :=
  let '(x, r) := update (load p (stab l)) value in
  {| bank := bank l;
     stab := store p x (stab l);
     needsUpdateBank := needsUpdateBank l;
     needsUpdateStab := Z.lor (needsUpdateStab l) r |}.

(** The [switch] on [PIDs[i]] in the loop body. *)
Definition dispatch (pid : PIDsOption) (value : float) (l : Locals) : Task Locals :=
  match pid with
  | TXPIDSETTINGS_PIDS_ROLLRATEKP => ret (update_bank (in_RollRatePID rate_Kp) value l)
  | TXPIDSETTINGS_PIDS_ROLLRATEKI => ret (update_bank (in_RollRatePID rate_Ki) value l)
  | TXPIDSETTINGS_PIDS_ROLLRATEKD => ret (update_bank (in_RollRatePID rate_Kd) value l)
  | TXPIDSETTINGS_PIDS_ROLLRATEILIMIT => ret (update_bank (in_RollRatePID rate_ILimit) value l)
  | TXPIDSETTINGS_PIDS_ROLLATTITUDEKP => ret (update_bank (in_RollPI pi_Kp) value l)
  | TXPIDSETTINGS_PIDS_ROLLATTITUDEKI => ret (update_bank (in_RollPI pi_Ki) value l)
  | TXPIDSETTINGS_PIDS_ROLLATTITUDEILIMIT => ret (update_bank (in_RollPI pi_ILimit) value l)
  | TXPIDSETTINGS_PIDS_PITCHRATEKP => ret (update_bank (in_PitchRatePID rate_Kp) value l)
  | TXPIDSETTINGS_PIDS_PITCHRATEKI => ret (update_bank (in_PitchRatePID rate_Ki) value l)
  | TXPIDSETTINGS_PIDS_PITCHRATEKD => ret (update_bank (in_PitchRatePID rate_Kd) value l)
  | TXPIDSETTINGS_PIDS_PITCHRATEILIMIT => ret (update_bank (in_PitchRatePID rate_ILimit) value l)
  | TXPIDSETTINGS_PIDS_PITCHATTITUDEKP => ret (update_bank (in_PitchPI pi_Kp) value l)
  | TXPIDSETTINGS_PIDS_PITCHATTITUDEKI => ret (update_bank (in_PitchPI pi_Ki) value l)
  | TXPIDSETTINGS_PIDS_PITCHATTITUDEILIMIT => ret (update_bank (in_PitchPI pi_ILimit) value l)
  | TXPIDSETTINGS_PIDS_ROLLPITCHRATEKP =>
      ret (update_bank (in_PitchRatePID rate_Kp) value
             (update_bank (in_RollRatePID rate_Kp) value l))
  | TXPIDSETTINGS_PIDS_ROLLPITCHRATEKI =>
      ret (update_bank (in_PitchRatePID rate_Ki) value
             (update_bank (in_RollRatePID rate_Ki) value l))
  | TXPIDSETTINGS_PIDS_ROLLPITCHRATEKD =>
      ret (update_bank (in_PitchRatePID rate_Kd) value
             (update_bank (in_RollRatePID rate_Kd) value l))
  | TXPIDSETTINGS_PIDS_ROLLPITCHRATEILIMIT =>
      ret (update_bank (in_PitchRatePID rate_ILimit) value
             (update_bank (in_RollRatePID rate_ILimit) value l))
  | TXPIDSETTINGS_PIDS_ROLLPITCHATTITUDEKP =>
      ret (update_bank (in_PitchPI pi_Kp) value
             (update_bank (in_RollPI pi_Kp) value l))
  | TXPIDSETTINGS_PIDS_ROLLPITCHATTITUDEKI =>
      ret (update_bank (in_PitchPI pi_Ki) value
             (update_bank (in_RollPI pi_Ki) value l))
  | TXPIDSETTINGS_PIDS_ROLLPITCHATTITUDEILIMIT =>
      ret (update_bank (in_PitchPI pi_ILimit) value
             (update_bank (in_RollPI pi_ILimit) value l))
  | TXPIDSETTINGS_PIDS_YAWRATEKP => ret (update_bank (in_YawRatePID rate_Kp) value l)
  | TXPIDSETTINGS_PIDS_YAWRATEKI => ret (update_bank (in_YawRatePID rate_Ki) value l)
  | TXPIDSETTINGS_PIDS_YAWRATEKD => ret (update_bank (in_YawRatePID rate_Kd) value l)
  | TXPIDSETTINGS_PIDS_YAWRATEILIMIT => ret (update_bank (in_YawRatePID rate_ILimit) value l)
  | TXPIDSETTINGS_PIDS_YAWATTITUDEKP => ret (update_bank (in_YawPI pi_Kp) value l)
  | TXPIDSETTINGS_PIDS_YAWATTITUDEKI => ret (update_bank (in_YawPI pi_Ki) value l)
  | TXPIDSETTINGS_PIDS_YAWATTITUDEILIMIT => ret (update_bank (in_YawPI pi_ILimit) value l)
  | TXPIDSETTINGS_PIDS_GYROTAU => ret (update_stab stab_GyroTau value l)
  | TXPIDSETTINGS_PIDS_DISABLED | TXPIDSETTINGS_PIDS_other _ => PIOS_Assert_0
  end.

Section WithHeaders.

Variable hdr : Headers.

(** The body of the [for] loop at index [i]: a disabled instance is
    skipped; the throttle or an accessory instance is read and scaled;
    an absent accessory instance skips the slot ([continue]). *)
Definition slot (inst : TxPIDSettingsData) (i : nat) (l : Locals) : Task Locals :=
  let pid := nth i (PIDs inst) TXPIDSETTINGS_PIDS_DISABLED in
  if is_disabled pid then ret l
  else
    let input := nth i (Inputs inst) 0 in
    let minPID := nth i (MinPID inst) f_zero in
    let maxPID := nth i (MaxPID inst) f_zero in
    if input =? TXPIDSETTINGS_INPUTS_THROTTLE hdr then
      value <- do_ManualControlCommandThrottleGet ;;
      dispatch pid
        (scale value (ThrottleRange_Min inst) (ThrottleRange_Max inst) minPID maxPID) l
    else
      r <- do_AccessoryDesiredInstGet (input - TXPIDSETTINGS_INPUTS_ACCESSORY0 hdr) ;;
      match r with
      | Some accessory =>
          dispatch pid
            (scale (AccessoryVal accessory) f_minus_one f_one minPID maxPID) l
      | None => ret l
      end.

(** The [for] loop over the given indices, in order. *)
Fixpoint slots (inst : TxPIDSettingsData) (idx : list nat) (l : Locals) : Task Locals :=
  match idx with
  | [] => ret l
  | i :: idx' => l' <- slot inst i l ;; slots inst idx' l'
  end.

(** The first [switch (inst.UpdateMode)]: the bank that is read, or
    [None] for the [default: return]. *)
Definition read_bank (mode : Z) : Task (option StabilizationBankData) :=
  match mode with
  | 0 => b <- do_StabilizationSettingsBank1Get ;; ret (Some b)
  | 1 => b <- do_StabilizationSettingsBank2Get ;; ret (Some b)
  | 2 => b <- do_StabilizationSettingsBank2Get ;; ret (Some b)
  | _ => ret None
  end.

(** The second [switch (inst.UpdateMode)]: the bank that is written. *)
Definition write_bank (mode : Z) (b : StabilizationBankData) : Task unit :=
  match mode with
  | 0 => do_StabilizationSettingsBank1Set b
  | 1 => do_StabilizationSettingsBank2Set b
  | 2 => do_StabilizationSettingsBank2Set b
  | _ => ret tt
  end.

(** [static void updatePIDs(UAVObjEvent *ev)]: one tick.  The loop index
    is a [uint8_t] that runs over [0 .. TXPIDSETTINGS_PIDS_NUMELEM - 1]. *)
Definition updatePIDs (ev : UAVObjEvent) : Task unit :=
  if negb (obj ev =? AccessoryDesiredHandle hdr) then ret tt
  else
    inst <- do_TxPIDSettingsGet ;;
    if UpdateMode inst =? TXPIDSETTINGS_UPDATEMODE_NEVER hdr then ret tt
    else
      armed <- do_FlightStatusArmedGet ;;
      if (UpdateMode inst =? TXPIDSETTINGS_UPDATEMODE_WHENARMED hdr)
         && (armed =? FLIGHTSTATUS_ARMED_DISARMED hdr)
      then ret tt
      else
        selected <- read_bank (UpdateMode inst) ;;
        match selected with
        | None => ret tt
        | Some bank0 =>
            stab0 <- do_StabilizationSettingsGet ;;
            l <- slots inst (seq 0 (TXPIDSETTINGS_PIDS_NUMELEM hdr))
                   {| bank := bank0; stab := stab0;
                      needsUpdateBank := 0; needsUpdateStab := 0 |} ;;
            (if needsUpdateStab l =? 0 then ret tt
             else do_StabilizationSettingsSet (stab l)) ;;;
            (if needsUpdateBank l =? 0 then ret tt
             else write_bank (UpdateMode inst) (bank l))
        end.

(** What a tick leaves behind: the object store after it and the trace
    of its UAVObject calls. *)
Definition bus_after (ev : UAVObjEvent) (bus : Bus) : Bus :=
  snd (fst (updatePIDs ev bus)).
Definition trace_of (ev : UAVObjEvent) (bus : Bus) : list BusOp :=
  snd (updatePIDs ev bus).
Definition writes_of (ev : UAVObjEvent) (bus : Bus) : list BusOp :=
  filter is_write (trace_of ev bus).

End WithHeaders.

End TxPID.

(* ================================================================== *)
(** * The dispatch table and the notions used to state properties *)
(* ================================================================== *)

Module TxPIDSpec.

Import TxPID TxPIDPrim.

Inductive Axis : Type := Roll | Pitch | Yaw.
Inductive RateCoef : Type := RKp | RKi | RKd | RILimit.
Inductive AttitudeCoef : Type := AKp | AKi | AILimit.

(** The scalar destinations of the tuner: the coefficients of the rate
    and attitude loops of the bank, and [GyroTau] of the settings. *)
Inductive Field : Type :=
| RateField (a : Axis) (c : RateCoef)
| AttitudeField (a : Axis) (c : AttitudeCoef)
| GyroTauField.

Definition Field_eqb (f g : Field) : bool :=
  match f, g with
  | RateField a c, RateField a' c' =>
      match a, a' with Roll, Roll | Pitch, Pitch | Yaw, Yaw => true | _, _ => false end
      && match c, c' with
         | RKp, RKp | RKi, RKi | RKd, RKd | RILimit, RILimit => true
         | _, _ => false
         end
  | AttitudeField a c, AttitudeField a' c' =>
      match a, a' with Roll, Roll | Pitch, Pitch | Yaw, Yaw => true | _, _ => false end
      && match c, c' with
         | AKp, AKp | AKi, AKi | AILimit, AILimit => true
         | _, _ => false
         end
  | GyroTauField, GyroTauField => true
  | _, _ => false
  end.

Definition is_bank_field (f : Field) : bool :=
  match f with GyroTauField => false | _ => true end.

Definition rate_ptr (c : RateCoef) : FieldPtr RatePIDData :=
  match c with
  | RKp => rate_Kp | RKi => rate_Ki | RKd => rate_Kd | RILimit => rate_ILimit
  end.

Definition attitude_ptr (c : AttitudeCoef) : FieldPtr PIData :=
  match c with AKp => pi_Kp | AKi => pi_Ki | AILimit => pi_ILimit end.

Definition rate_of_axis (a : Axis) : FieldPtr RatePIDData -> FieldPtr StabilizationBankData :=
  match a with
  | Roll => in_RollRatePID | Pitch => in_PitchRatePID | Yaw => in_YawRatePID
  end.

Definition attitude_of_axis (a : Axis) : FieldPtr PIData -> FieldPtr StabilizationBankData :=
  match a with Roll => in_RollPI | Pitch => in_PitchPI | Yaw => in_YawPI end.

(** The contents of a destination in the locals of a tick. *)
Definition read_field (f : Field) (l : Locals) : float :=
  match f with
  | RateField a c => load (rate_of_axis a (rate_ptr c)) (bank l)
  | AttitudeField a c => load (attitude_of_axis a (attitude_ptr c)) (bank l)
  | GyroTauField => load stab_GyroTau (stab l)
  end.

(** One [needsUpdate... |= update(&destination, value)] statement. *)
Definition update_field (f : Field) (value : float) (l : Locals) : Locals :=
  match f with
  | RateField a c => update_bank (rate_of_axis a (rate_ptr c)) value l
  | AttitudeField a c => update_bank (attitude_of_axis a (attitude_ptr c)) value l
  | GyroTauField => update_stab stab_GyroTau value l
  end.

Definition update_fields (fs : list Field) (value : float) (l : Locals) : Locals :=
  fold_left (fun l f => update_field f value l) fs l.

(** The dispatch table: the destinations of each PID option, in the order
    in which they are updated; [None] for the options that reach the
    [default] label. *)
Definition targets (pid : PIDsOption) : option (list Field) :=
  match pid with
  | TXPIDSETTINGS_PIDS_ROLLRATEKP => Some [RateField Roll RKp]
  | TXPIDSETTINGS_PIDS_ROLLRATEKI => Some [RateField Roll RKi]
  | TXPIDSETTINGS_PIDS_ROLLRATEKD => Some [RateField Roll RKd]
  | TXPIDSETTINGS_PIDS_ROLLRATEILIMIT => Some [RateField Roll RILimit]
  | TXPIDSETTINGS_PIDS_ROLLATTITUDEKP => Some [AttitudeField Roll AKp]
  | TXPIDSETTINGS_PIDS_ROLLATTITUDEKI => Some [AttitudeField Roll AKi]
  | TXPIDSETTINGS_PIDS_ROLLATTITUDEILIMIT => Some [AttitudeField Roll AILimit]
  | TXPIDSETTINGS_PIDS_PITCHRATEKP => Some [RateField Pitch RKp]
  | TXPIDSETTINGS_PIDS_PITCHRATEKI => Some [RateField Pitch RKi]
  | TXPIDSETTINGS_PIDS_PITCHRATEKD => Some [RateField Pitch RKd]
  | TXPIDSETTINGS_PIDS_PITCHRATEILIMIT => Some [RateField Pitch RILimit]
  | TXPIDSETTINGS_PIDS_PITCHATTITUDEKP => Some [AttitudeField Pitch AKp]
  | TXPIDSETTINGS_PIDS_PITCHATTITUDEKI => Some [AttitudeField Pitch AKi]
  | TXPIDSETTINGS_PIDS_PITCHATTITUDEILIMIT => Some [AttitudeField Pitch AILimit]
  | TXPIDSETTINGS_PIDS_ROLLPITCHRATEKP => Some [RateField Roll RKp; RateField Pitch RKp]
  | TXPIDSETTINGS_PIDS_ROLLPITCHRATEKI => Some [RateField Roll RKi; RateField Pitch RKi]
  | TXPIDSETTINGS_PIDS_ROLLPITCHRATEKD => Some [RateField Roll RKd; RateField Pitch RKd]
  | TXPIDSETTINGS_PIDS_ROLLPITCHRATEILIMIT =>
      Some [RateField Roll RILimit; RateField Pitch RILimit]
  | TXPIDSETTINGS_PIDS_ROLLPITCHATTITUDEKP =>
      Some [AttitudeField Roll AKp; AttitudeField Pitch AKp]
  | TXPIDSETTINGS_PIDS_ROLLPITCHATTITUDEKI =>
      Some [AttitudeField Roll AKi; AttitudeField Pitch AKi]
  | TXPIDSETTINGS_PIDS_ROLLPITCHATTITUDEILIMIT =>
      Some [AttitudeField Roll AILimit; AttitudeField Pitch AILimit]
  | TXPIDSETTINGS_PIDS_YAWRATEKP => Some [RateField Yaw RKp]
  | TXPIDSETTINGS_PIDS_YAWRATEKI => Some [RateField Yaw RKi]
  | TXPIDSETTINGS_PIDS_YAWRATEKD => Some [RateField Yaw RKd]
  | TXPIDSETTINGS_PIDS_YAWRATEILIMIT => Some [RateField Yaw RILimit]
  | TXPIDSETTINGS_PIDS_YAWATTITUDEKP => Some [AttitudeField Yaw AKp]
  | TXPIDSETTINGS_PIDS_YAWATTITUDEKI => Some [AttitudeField Yaw AKi]
  | TXPIDSETTINGS_PIDS_YAWATTITUDEILIMIT => Some [AttitudeField Yaw AILimit]
  | TXPIDSETTINGS_PIDS_GYROTAU => Some [GyroTauField]
  | TXPIDSETTINGS_PIDS_DISABLED | TXPIDSETTINGS_PIDS_other _ => None
  end.

(** Does the option write the destination [f]? *)
Definition writes_field (pid : PIDsOption) (f : Field) : bool :=
  match targets pid with
  | Some fs => existsb (Field_eqb f) fs
  | None => false
  end.

(** Every destination of [pid] is within the dead band of [value]:
    [update] would leave each of them alone. *)
Definition settled (pid : PIDsOption) (value : float) (l : Locals) : bool :=
  match targets pid with
  | Some fs => forallb (fun f => negb (differs (read_field f l) value)) fs
  | None => true
  end.

(** The option of slot [i]. *)
Definition pid_at (inst : TxPIDSettingsData) (i : nat) : PIDsOption :=
  nth i (PIDs inst) TXPIDSETTINGS_PIDS_DISABLED.

(** Two options share a destination. *)
Definition overlap (p q : PIDsOption) : bool :=
  match targets p with
  | Some fs => existsb (writes_field q) fs
  | None => false
  end.

(** No two of the given slots share a destination. *)
Fixpoint conflict_free (inst : TxPIDSettingsData) (idx : list nat) : bool :=
  match idx with
  | [] => true
  | i :: idx' =>
      forallb (fun j => negb (overlap (pid_at inst i) (pid_at inst j))) idx'
      && conflict_free inst idx'
  end.

Section WithHeaders.

Variable hdr : Headers.

(** The scaled value that slot [i] hands to the dispatch, when the slot
    is enabled and its input is present. *)
Definition slot_value (inst : TxPIDSettingsData) (bus : Bus) (i : nat) : option float :=
  if is_disabled (pid_at inst i) then None
  else
    let input := nth i (Inputs inst) 0 in
    let minPID := nth i (MinPID inst) f_zero in
    let maxPID := nth i (MaxPID inst) f_zero in
    if input =? TXPIDSETTINGS_INPUTS_THROTTLE hdr then
      Some (scale (obj_Throttle bus) (ThrottleRange_Min inst) (ThrottleRange_Max inst)
              minPID maxPID)
    else
      match obj_AccessoryDesired bus
              ((input - TXPIDSETTINGS_INPUTS_ACCESSORY0 hdr) mod 65536) with
      | Some accessory =>
          Some (scale (AccessoryVal accessory) f_minus_one f_one minPID maxPID)
      | None => None
      end.

(** The steady state: for each of the given slots that is enabled and
    whose input resolves, the scaled value matches its destinations
    within the dead band. *)
Definition steady (inst : TxPIDSettingsData) (bus : Bus) (idx : list nat)
           (l : Locals) : bool :=
  forallb (fun i => match slot_value inst bus i with
                    | Some v => settled (pid_at inst i) v l
                    | None => true
                    end) idx.

(** The locals with which the loop starts. *)
Definition locals0 (b0 : StabilizationBankData) (bus : Bus) : Locals :=
  {| bank := b0; stab := obj_StabilizationSettings bus;
     needsUpdateBank := 0; needsUpdateStab := 0 |}.

(** The bank record selected by the update mode, as the first [switch]
    reads it; [None] when the tick returns there. *)
Definition loaded_bank (mode : Z) (bus : Bus) : option StabilizationBankData :=
  match fst (fst (read_bank mode bus)) with
  | Done o => o
  | AssertFailed => None
  end.

(** The tick gets past its three early returns. *)
Definition passes_gates (ev : UAVObjEvent) (bus : Bus) : bool :=
  (obj ev =? AccessoryDesiredHandle hdr)
  && negb (UpdateMode (obj_TxPIDSettings bus) =? TXPIDSETTINGS_UPDATEMODE_NEVER hdr)
  && negb ((UpdateMode (obj_TxPIDSettings bus) =? TXPIDSETTINGS_UPDATEMODE_WHENARMED hdr)
           && (obj_FlightStatusArmed bus =? FLIGHTSTATUS_ARMED_DISARMED hdr)).

(** The statements after the loop: the settings, then the bank, are
    written back when their flag is set. *)
Definition publish (mode : Z) (l : Locals) : Task unit :=
  bind (if needsUpdateStab l =? 0 then ret tt
        else do_StabilizationSettingsSet (stab l))
       (fun _ => if needsUpdateBank l =? 0 then ret tt
                 else write_bank mode (bank l)).

(** While the loop runs over [idx] from the locals [l], the body of some
    slot takes locals [l1] to locals [l2] that satisfy [P l1 l2]. *)
Inductive some_slot (inst : TxPIDSettingsData) (bus : Bus)
          (P : Locals -> Locals -> Prop) : list nat -> Locals -> Prop :=
| slot_here i idx l l' t :
    slot hdr inst i l bus = (Done l', bus, t) ->
    P l l' ->
    some_slot inst bus P (i :: idx) l
| slot_later i idx l l' t :
    slot hdr inst i l bus = (Done l', bus, t) ->
    some_slot inst bus P idx l' ->
    some_slot inst bus P (i :: idx) l.

End WithHeaders.

(** The closed interval spanned by [a] and [b], in either order. *)
Definition between (a b r : float) : bool :=
  (fle a r && fle r b) || (fle b r && fle r a).

(** None of the arithmetic steps that [scale] performs on the given
    arguments rounds or overflows.  The steps are those of [scale], in
    the same order. *)
Definition scale_exact (val inMin inMax outMin outMax : float) : bool :=
  let val := if fgt val inMax then inMax else val in
  let val := if flt val inMin then inMin else val in
  let normalized := fdiv (fsub val inMin) (fsub inMax inMin) in
  let norm_exact :=
    if fle inMax inMin then true
    else exact Qminus val inMin (fsub val inMin)
         && exact Qminus inMax inMin (fsub inMax inMin)
         && exact Qdiv (fsub val inMin) (fsub inMax inMin) normalized in
  let val := if fle inMax inMin then f_zero else normalized in
  let flip_exact :=
    if fgt outMin outMax then exact Qminus f_one val (fsub f_one val) else true in
  let '(outMin, outMax, val) :=
    if fgt outMin outMax then (outMax, outMin, fsub f_one val)
    else (outMin, outMax, val) in
  norm_exact && flip_exact
  && exact Qminus outMax outMin (fsub outMax outMin)
  && exact Qmult (fsub outMax outMin) val (fmul (fsub outMax outMin) val)
  && exact Qplus (fmul (fsub outMax outMin) val) outMin
           (fadd (fmul (fsub outMax outMin) val) outMin).

End TxPIDSpec.

(* ================================================================== *)
(** * sin_lookup.c: sine by table lookup *)
(* ================================================================== *)

Module SinLookup.

(** [const int SIN_RESOLUTION = 180;] the number of floats in [sin_table]. *)
Definition SIN_RESOLUTION : Z := 180.

(** Result of a function that indexes [sin_table]. *)
Inductive Lookup : Type :=
| Value (x : float)
| OutOfBounds (index : Z)              (* read outside the table *)
| UndefinedConversion.                 (* (int32_t) of a float out of range *)

(** The C expression [sin_table[i]] on a table of [length sin_table]
    floats. *)
Definition table_read (sin_table : list float) (i : Z) : Lookup :=
  if (0 <=? i) && (i <? Z.of_nat (length sin_table)) then
    match nth_error sin_table (Z.to_nat i) with
    | Some x => Value x
    | None => OutOfBounds i
    end
  else OutOfBounds i.

Definition negate (r : Lookup) : Lookup :=
  match r with Value x => Value (SFopp x) | _ => r end.

(** [int i_ang = ((int32_t) angle) % 360;] where [%] truncates toward
    zero, as [Z.rem] does. *)
Definition i_ang_of (angle : float) : option Z :=
  match to_int32 angle with
  | Some a => Some (Z.rem a 360)
  | None => None
  end.

(** The subscript with which [sin_lookup_deg] reads [sin_table]. *)
Definition sin_lookup_deg_index (angle : float) : option Z :=
  match i_ang_of angle with
  | Some i_ang => Some (if i_ang >? 180 then i_ang - 180 else i_ang)
  | None => None
  end.

(** [float sin_lookup_deg(float angle)], on the table as initialised. *)
Definition sin_lookup_deg (sin_table : list float) (angle : float) : Lookup :=
  match i_ang_of angle with
  | Some i_ang =>
      if i_ang >? 180 then negate (table_read sin_table (i_ang - 180))
      else table_read sin_table i_ang
  | None => UndefinedConversion
  end.

Definition in_table (i : Z) : Prop := 0 <= i < SIN_RESOLUTION.

End SinLookup.

(* ================================================================== *)
(** * Concrete configurations *)
(* ================================================================== *)

Module Examples.

Import TxPID TxPIDPrim.

(** The decimal literal [n/d] rounded to binary32. *)
Definition dec (n d : Z) : float := fdiv (of_Z n) (of_Z d).

(** Sample values for the constants of the generated headers: the update
    modes Never, When Armed and Always numbered 0, 1 and 2, the armed state
    Disarmed numbered 0, the inputs Throttle, Accessory0, ... numbered from
    0, and three instances. *)
Definition hdr0 : Headers :=
  {| TXPIDSETTINGS_UPDATEMODE_NEVER := 0;
     TXPIDSETTINGS_UPDATEMODE_WHENARMED := 1;
     FLIGHTSTATUS_ARMED_DISARMED := 0;
     TXPIDSETTINGS_INPUTS_THROTTLE := 0;
     TXPIDSETTINGS_INPUTS_ACCESSORY0 := 1;
     TXPIDSETTINGS_PIDS_NUMELEM := 3;
     AccessoryDesiredHandle := 1 |}.

Definition ev0 : UAVObjEvent := {| obj := 1 |}.

Definition rate_of (x : float) : RatePIDData :=
  {| Rate_Kp := x; Rate_Ki := x; Rate_Kd := x; Rate_ILimit := x |}.
Definition pi_of (x : float) : PIData :=
  {| PI_Kp := x; PI_Ki := x; PI_ILimit := x |}.

(** A bank with every coefficient equal to [x]. *)
Definition bank_of (x : float) : StabilizationBankData :=
  {| RollRatePID := rate_of x; PitchRatePID := rate_of x; YawRatePID := rate_of x;
     RollPI := pi_of x; PitchPI := pi_of x; YawPI := pi_of x |}.

(** Settings with the given mode and three slots, all fed by the
    throttle over the range [0, 1] and mapped onto [lo_i, hi_i]. *)
Definition settings (mode : Z) (pids : list PIDsOption) (lo hi : list float)
  : TxPIDSettingsData :=
  {| UpdateMode := mode; PIDs := pids; Inputs := [0; 0; 0];
     MinPID := lo; MaxPID := hi;
     ThrottleRange_Min := f_zero; ThrottleRange_Max := f_one |}.

Definition bus_of (inst : TxPIDSettingsData) (armed : Z)
           (b1 b2 b3 : StabilizationBankData) (throttle : float) : Bus :=
  {| obj_TxPIDSettings := inst;
     obj_FlightStatusArmed := armed;
     obj_StabilizationSettingsBank1 := b1;
     obj_StabilizationSettingsBank2 := b2;
     obj_StabilizationSettingsBank3 := b3;
     obj_StabilizationSettings := {| GyroTau := f_zero |};
     obj_Throttle := throttle;
     obj_AccessoryDesired := fun _ => None |}.

(** Slot 0 maps the throttle onto the roll-rate Kp in [0.001, 0.010]. *)
Definition one_slot (mode : Z) : TxPIDSettingsData :=
  settings mode
    [TXPIDSETTINGS_PIDS_ROLLRATEKP; TXPIDSETTINGS_PIDS_DISABLED; TXPIDSETTINGS_PIDS_DISABLED]
    [dec 1 1000; f_zero; f_zero] [dec 10 1000; f_zero; f_zero].

(** Selector 2, armed, three distinguishable banks, throttle at 0.5. *)
Definition bus_mode2 : Bus :=
  bus_of (one_slot 2) 2 (bank_of (of_Z 1)) (bank_of (of_Z 2)) (bank_of (of_Z 3)) (dec 1 2).

(** Two slots map the throttle onto the same coefficient with different
    ranges, [0.001, 0.010] and [0.002, 0.020]. *)
Definition bus_conflict : Bus :=
  bus_of (settings 2
            [TXPIDSETTINGS_PIDS_ROLLRATEKP; TXPIDSETTINGS_PIDS_ROLLRATEKP;
             TXPIDSETTINGS_PIDS_DISABLED]
            [dec 1 1000; dec 2 1000; f_zero] [dec 10 1000; dec 20 1000; f_zero])
         2 (bank_of (of_Z 1)) (bank_of (of_Z 2)) (bank_of (of_Z 3)) (dec 1 2).

(** Slot 0 maps the throttle onto the coupled roll and pitch rate Kp in
    [0.001, 0.010].  In bank 2 the roll-rate Kp is the float that follows
    [0.0055f] and the pitch-rate Kp is 2. *)
Definition bank_coupled : StabilizationBankData :=
  {| RollRatePID := {| Rate_Kp := S754_finite false 11811161 (-31);
                       Rate_Ki := of_Z 2; Rate_Kd := of_Z 2; Rate_ILimit := of_Z 2 |};
     PitchRatePID := rate_of (of_Z 2); YawRatePID := rate_of (of_Z 2);
     RollPI := pi_of (of_Z 2); PitchPI := pi_of (of_Z 2); YawPI := pi_of (of_Z 2) |}.

Definition bus_coupled : Bus :=
  bus_of (settings 2
            [TXPIDSETTINGS_PIDS_ROLLPITCHRATEKP; TXPIDSETTINGS_PIDS_DISABLED;
             TXPIDSETTINGS_PIDS_DISABLED]
            [dec 1 1000; f_zero; f_zero] [dec 10 1000; f_zero; f_zero])
         2 (bank_of (of_Z 1)) bank_coupled (bank_of (of_Z 3)) (dec 1 2).

(** Update mode When Armed while disarmed. *)
Definition bus_disarmed : Bus :=
  bus_of (one_slot 1) 0 (bank_of (of_Z 1)) (bank_of (of_Z 2)) (bank_of (of_Z 3)) (dec 1 2).

End Examples.

(* ================================================================== *)
(** * Binary32: integers and signs *)
(* ================================================================== *)

Module Binary32Repr.

(** The binary32 datum of the integer [(-1)^s * n], for a positive
    [n < 2^24]: the mantissa is [n] shifted left to 24 digits. *)
Definition small_int (s : bool) (n : positive) : float :=
  S754_finite s
    (Z.to_pos (Zpos n * 2 ^ (24 - Zpos (digits2_pos n))))
    (Zpos (digits2_pos n) - 24).

(** A float that is not zero and not a NaN, with sign bit [s]. *)
Definition has_sign (s : bool) (x : float) : bool :=
  match x with
  | S754_finite s' _ _ | S754_infinity s' => Bool.eqb s' s
  | _ => false
  end.

(** A zero of either sign. *)
Definition is_zero (x : float) : bool :=
  match x with S754_zero _ => true | _ => false end.

(** The dyadic number [z * 2^e]. *)
Definition dy (z e : Z) : Q := (inject_Z z * Qpower (2 # 1) e)%Q.

(** [m / 2^k] rounded to the nearest integer, ties to even, for [m] and
    [k] that are not negative. *)
Definition rne (m k : Z) : Z :=
  let q := m / 2 ^ k in
  let t := 2 * (m mod 2 ^ k) in
  if t <? 2 ^ k then q
  else if 2 ^ k <? t then q + 1
  else if Z.even q then q else q + 1.

(** The exponent at which a number with mantissa [m] and exponent [e] is
    rounded, and the number of bits that the rounding drops. *)
Definition round_exp (m : Z) (e : Z) : Z := fexp prec emax (Zdigits2 m + e).
Definition dropped (m : Z) (e : Z) : Z := round_exp m e - e.

(** The second half of [binary_round_aux]: the rounded mantissa [M] at
    exponent [F] is brought back to 24 digits if the rounding carried,
    and the overflow is detected. *)
Definition finish (s : bool) (M F : Z) : float :=
  let '(mrs, e) := shr_fexp prec emax M F loc_Exact in
  match shr_m mrs with
  | Z0 => S754_zero s
  | Zpos m => if e <=? emax - prec then S754_finite s m e else S754_infinity s
  | Zneg _ => S754_nan
  end.

(** The float [R] stands for the number [(-1)^s * M * 2^F]: it is the
    zero of sign [s] when [M] is 0, the infinity of sign [s] when the
    number is out of range, and a finite well-formed float of that value
    otherwise. *)
Definition stands_for (s : bool) (M F : Z) (R : float) : Prop :=
  (M = 0 /\ R = S754_zero s) \/
  (0 < M /\ R = S754_infinity s /\ (dy 1 128 <= dy M F)%Q) \/
  (0 < M /\ regular R = true /\ has_sign s R = true /\ is_finite R = true /\
   (to_Q R == dy (cond_Zopp s M) F)%Q).

(** Two floats are the same number: they are equal, or zeros of either
    sign. *)
Definition same_val (a b : float) : Prop :=
  a = b \/ is_zero a && is_zero b = true.

End Binary32Repr.

(* ================================================================== *)
(** * The tick seen from the object store *)
(* ================================================================== *)

Module TxPIDTrace.

Import TxPID TxPIDSpec.

(** Calls made on bank 1 and on bank 2. *)
Definition is_bank1_op (op : BusOp) : bool :=
  match op with
  | StabilizationSettingsBank1Get | StabilizationSettingsBank1Set _ => true
  | _ => false
  end.

Definition is_bank2_op (op : BusOp) : bool :=
  match op with
  | StabilizationSettingsBank2Get | StabilizationSettingsBank2Set _ => true
  | _ => false
  end.

(** The content of destination [f] in the object store: the bank is the
    one that the update mode selects; [None] when it selects none. *)
Definition stored_field (bus : Bus) (f : Field) : option float :=
  match loaded_bank (UpdateMode (obj_TxPIDSettings bus)) bus with
  | Some b => Some (read_field f (locals0 b bus))
  | None => None
  end.

Section WithHeaders.

Variable hdr : Headers.

(** How the tick ends: it returns, or it stops at [PIOS_Assert(0)]. *)
Definition outcome (ev : UAVObjEvent) (bus : Bus) : Exit unit :=
  fst (fst (updatePIDs hdr ev bus)).

(** Slot [i] is enabled and its input is present. *)
Definition resolved (inst : TxPIDSettingsData) (bus : Bus) (i : nat) : bool :=
  match slot_value hdr inst bus i with
  | Some _ => true
  | None => false
  end.

End WithHeaders.

End TxPIDTrace.

(* ================================================================== *)
(** * txpid.c: the output range of [scale] *)
(* ================================================================== *)

Module ScaleRange.

Import TxPIDPrim.

(** [outMin] and [outMax] as the last line of [scale] sees them, after
    the swap under [if (outMin > outMax)]. *)
Definition out_low (outMin outMax : float) : float :=
  if fgt outMin outMax then outMax else outMin.

Definition out_high (outMin outMax : float) : float :=
  if fgt outMin outMax then outMin else outMax.

(** The last line of [scale], [(outMax - outMin) * val + outMin], at the
    top of the range, [val = 1.0f]: the product is the difference itself,
    so what remains is the rounded sum of the rounded difference and
    [outMin]. *)
Definition out_top (outMin outMax : float) : float :=
  fadd (fsub (out_high outMin outMax) (out_low outMin outMax))
       (out_low outMin outMax).

End ScaleRange.

(* ================================================================== *)
(** * txpid.c: initialisation of the module *)
(* ================================================================== *)

Module TxPIDInit.

Import TxPID.

(** Constants of the generated headers and of the RTOS port that
    [TxPIDInitialize] uses. *)
Record InitHeaders : Type := {
  HWSETTINGS_OPTIONALMODULES_ENABLED : Z;
  portTICK_RATE_MS : Z
}.

(** [#define SAMPLE_PERIOD_MS 200] *)
Definition SAMPLE_PERIOD_MS : Z := 200.

(** The event that is handed to [EventPeriodicCallbackCreate]: the
    object, as in [UAVObjEvent], with the fields [instId] and [event]. *)
Record PeriodicEvent : Type := {
  ev : UAVObjEvent;
  instId : Z;
  event : Z
}.

(** The callbacks of the module. *)
Inductive Callback : Type := cb_updatePIDs.

(** The calls that [TxPIDInitialize] makes. *)
Inductive InitOp : Type :=
| HwSettingsInitialize
| HwSettingsOptionalModulesGet
| TxPIDSettingsInitialize
| AccessoryDesiredInitialize
| EventPeriodicCallbackCreate (e : PeriodicEvent) (cb : Callback) (periodTicks : Z).

Section WithHeaders.

Variable hdr : Headers.
Variable ihdr : InitHeaders.

(** [int32_t TxPIDInitialize(void)], given the field [TxPID] of the
    optional modules that [HwSettingsOptionalModulesGet] reads: the
    returned code and the calls made.  [TELEMETRY_UPDATE_PERIOD_MS] is 0,
    which leaves the metadata block out of the compiled function.  The
    period is an integer division of positive constants. *)
Definition TxPIDInitialize (optionalModules_TxPID : Z) : Z * list InitOp :=
  let txPIDEnabled :=
    optionalModules_TxPID =? HWSETTINGS_OPTIONALMODULES_ENABLED ihdr in
  if txPIDEnabled then
    (0,
     [HwSettingsInitialize; HwSettingsOptionalModulesGet;
      TxPIDSettingsInitialize; AccessoryDesiredInitialize;
      EventPeriodicCallbackCreate
        {| ev := {| obj := AccessoryDesiredHandle hdr |}; instId := 0; event := 0 |}
        cb_updatePIDs
        (Z.quot SAMPLE_PERIOD_MS (portTICK_RATE_MS ihdr))])
  else
    (-1, [HwSettingsInitialize; HwSettingsOptionalModulesGet]).

(** [int32_t TxPIDStart(void)]: the module has no thread. *)
Definition TxPIDStart : Z := 0.

(** What the callback does when the scheduler runs it for event [e]. *)
Definition run_callback (cb : Callback) (e : PeriodicEvent) : Task unit :=
  match cb with
  | cb_updatePIDs => updatePIDs hdr (ev e)
  end.

End WithHeaders.

End TxPIDInit.

(* ================================================================== *)
(** * Binary64 arithmetic: the C type [double] *)
(* ================================================================== *)

Module Binary64.

Definition dprec : Z := 53.
Definition demax : Z := 1024.

Definition double : Type := spec_float.

Definition dmul : double -> double -> double := SFmul dprec demax.
Definition ddiv : double -> double -> double := SFdiv dprec demax.

(** The conversion of a [float] to [double] is exact; the datum is
    brought to the canonical position of binary64. *)
Definition of_float (x : float) : double :=
  match x with
  | S754_finite s m e => binary_round dprec demax s m e
  | _ => x
  end.

(** The conversion of a [double] to [float] rounds to nearest even. *)
Definition to_float (x : double) : float :=
  match x with
  | S754_finite s m e => binary_round prec emax s m e
  | _ => x
  end.

(** [M_PI] of <math.h>: the binary64 number nearest to pi,
    [0x400921FB54442D18]. *)
Definition M_PI : double := S754_finite false 7074237752028440 (-51).

End Binary64.

(* ================================================================== *)
(** * sin_lookup.c: the table and the other lookups *)
(* ================================================================== *)

Module SinTable.

Import SinLookup Binary64.

(** [sizeof(float)]. *)
Definition sizeof_float : Z := 4.

(** [float cos_lookup_deg(float angle)]. *)
Definition cos_lookup_deg (sin_table : list float) (angle : float) : Lookup :=
  sin_lookup_deg sin_table (fadd angle (of_Z 90)).

(** [int degrees = angle * 180.0f / M_PI;]: a [float] product, a
    [double] quotient, and the conversion to [int]. *)
Definition degrees_of (angle : float) : option Z :=
  to_int32 (ddiv (of_float (fmul angle (of_Z 180))) M_PI).

(** [float sin_lookup_rad(float angle)]; the [int] is converted to
    [float] for the call. *)
Definition sin_lookup_rad (sin_table : list float) (angle : float) : Lookup :=
  match degrees_of angle with
  | Some degrees => sin_lookup_deg sin_table (of_Z degrees)
  | None => UndefinedConversion
  end.

(** [float cos_lookup_rad(float angle)]. *)
Definition cos_lookup_rad (sin_table : list float) (angle : float) : Lookup :=
  match degrees_of angle with
  | Some degrees => cos_lookup_deg sin_table (of_Z degrees)
  | None => UndefinedConversion
  end.

(** The lookup of [sin_lookup_deg] once the angle is the integer [n]. *)
Definition lookup_int (sin_table : list float) (n : Z) : Lookup :=
  let i_ang := Z.rem n 360 in
  if i_ang >? 180 then negate (table_read sin_table (i_ang - 180))
  else table_read sin_table i_ang.

Section Initialize.

(** [sinf] of <math.h>, and the allocator [pvPortMalloc]: for a size in
    bytes it returns [None] (NULL) or a block, given as the floats that
    it holds. *)
Variable sinf : float -> float.
Variable pvPortMalloc : Z -> option (list float).

(** The argument of [sinf] for entry [i]:
    [(float)i * 2 * M_PI / 360.0f], a [float] product followed by a
    [double] product and a [double] quotient, converted to [float]. *)
Definition sin_arg (i : nat) : float :=
  to_float
    (ddiv (dmul (of_float (fmul (of_Z (Z.of_nat i)) (of_Z 2))) M_PI)
          (of_float (of_Z 360))).

(** The result of [sin_lookup_initalize]: the returned code with the
    value of the static pointer [sin_table] ([None] is NULL), or a write
    outside the allocated block. *)
Inductive InitResult : Type :=
| Returned (code : Z) (sin_table : option (list float))
| WriteOutOfBounds (i : nat).

(** The assignment [sin_table[i] = x] on a block of [length t] floats. *)
Definition table_write (t : list float) (i : nat) (x : float) : option (list float) :=
  if (i <? length t)%nat then Some (firstn i t ++ x :: skipn (S i) t) else None.

(** The [for] loop over the given indices. *)
Fixpoint fill (idx : list nat) (t : list float) : list float + nat :=
  match idx with
  | [] => inl t
  | i :: idx' =>
      match table_write t i (sinf (sin_arg i)) with
      | Some t' => fill idx' t'
      | None => inr i
      end
  end.

(** [int sin_lookup_initalize()], from the value of [sin_table]. *)
Definition sin_lookup_initalize (sin_table : option (list float)) : InitResult :=
  match sin_table with
  | Some t => Returned 0 (Some t)
  | None =>
      match pvPortMalloc (sizeof_float * SIN_RESOLUTION) with
      | None => Returned (-1) None
      | Some block =>
          match fill (seq 0 180) block with
          | inl t => Returned 0 (Some t)
          | inr i => WriteOutOfBounds i
          end
      end
  end.

End Initialize.

End SinTable.

(* ================================================================== *)
(** * Further concrete configurations *)
(* ================================================================== *)

Module MoreExamples.

Import TxPID TxPIDSpec TxPIDInit Examples.

(** The locals with which the loop of a tick on [bus_mode2] ends. *)
Definition locals_mode2 : Locals :=
  match fst (fst (slots hdr0 (obj_TxPIDSettings bus_mode2) [0; 1; 2]%nat
                        (locals0 (bank_of (of_Z 2)) bus_mode2) bus_mode2)) with
  | Done l => l
  | AssertFailed => locals0 (bank_of (of_Z 2)) bus_mode2
  end.

(** Update mode 0, which [hdr0] numbers as Never. *)
Definition bus_mode0 : Bus :=
  bus_of (one_slot 0) 2 (bank_of (of_Z 1)) (bank_of (of_Z 2)) (bank_of (of_Z 3)) (dec 1 2).

(** The module enabled is numbered 1; one tick of the RTOS per
    millisecond. *)
Definition ihdr0 : InitHeaders :=
  {| HWSETTINGS_OPTIONALMODULES_ENABLED := 1; portTICK_RATE_MS := 1 |}.

(** An allocator that always succeeds, with a block of ones, and a
    stand-in for [sinf]. *)
Definition malloc_ones (size : Z) : option (list float) :=
  Some (repeat f_one (Z.to_nat (size / 4))).

Definition sinf_id (x : float) : float := x.

End MoreExamples.

(* ================================================================== *)
(** * Properties of sin_lookup.c *)
(* ================================================================== *)

Module SinLookupFacts.

Import SinLookup.

(** The subscript is inside the table exactly for the angles whose
    truncation has a non-negative remainder other than 180. *)
Lemma sin_lookup_deg_index_in_table (angle : float) (a : Z) :
  to_int32 angle = Some a ->
  (exists i, sin_lookup_deg_index angle = Some i /\ in_table i) <->
  (0 <= Z.rem a 360 /\ Z.rem a 360 <> 180).
Proof.
  intros Hconv.
  unfold sin_lookup_deg_index, i_ang_of. rewrite Hconv.
  assert (Hlt : Z.abs (Z.rem a 360) < Z.abs 360)
    by (apply Z.rem_bound_abs; discriminate).
  unfold in_table, SIN_RESOLUTION. split.
  - intros (i & [= <-] & Hi).
    destruct (Z.gtb_spec (Z.rem a 360) 180); lia.
  - intros [Hnonneg Hne]. eexists; split; [reflexivity|].
    destruct (Z.gtb_spec (Z.rem a 360) 180); lia.
Qed.

(** C10: the subscript computed by [sin_lookup_deg] is not always inside
    the table [0 .. SIN_RESOLUTION - 1].  At 180 degrees the subscript is
    180, one past the last element, and at -1 degree it is -1. *)
Theorem sin_lookup_deg_index_escapes :
  sin_lookup_deg_index (of_Z 180) = Some 180 /\ ~ in_table 180 /\
  sin_lookup_deg_index (of_Z (-1)) = Some (-1) /\ ~ in_table (-1) /\
  sin_lookup_deg (repeat f_zero 180) (of_Z 180) = OutOfBounds 180 /\
  sin_lookup_deg (repeat f_zero 180) (of_Z (-1)) = OutOfBounds (-1).
Proof.
  unfold in_table, SIN_RESOLUTION.
  repeat split; try (vm_compute; reflexivity); lia.
Qed.

End SinLookupFacts.

(* ================================================================== *)
(** * Properties of binary32 comparison *)
(* ================================================================== *)

Module FloatFacts.

Local Open Scope Z_scope.

(** ** Number of binary digits *)

Lemma digits2_pos_bounds (m : positive) :
  2 ^ (Zpos (digits2_pos m) - 1) <= Zpos m < 2 ^ Zpos (digits2_pos m).
Proof.
  induction m as [m IH|m IH|]; cbn [digits2_pos].
  - rewrite Pos2Z.inj_succ, (Pos2Z.inj_xI m).
    replace (Z.succ (Zpos (digits2_pos m)) - 1) with (Z.succ (Zpos (digits2_pos m) - 1)) by lia.
    rewrite !Z.pow_succ_r by lia.
    generalize dependent (2 ^ (Z.pos (digits2_pos m) - 1)).
    generalize (2 ^ Z.pos (digits2_pos m)). generalize (Z.pos m). intros; lia.
  - rewrite Pos2Z.inj_succ, (Pos2Z.inj_xO m).
    replace (Z.succ (Zpos (digits2_pos m)) - 1) with (Z.succ (Zpos (digits2_pos m) - 1)) by lia.
    rewrite !Z.pow_succ_r by lia.
    generalize dependent (2 ^ (Z.pos (digits2_pos m) - 1)).
    generalize (2 ^ Z.pos (digits2_pos m)). generalize (Z.pos m). intros; lia.
  - cbn. lia.
Qed.

(** A canonical mantissa has at most 24 digits, and exactly 24 unless the
    exponent is the smallest one. *)
Lemma bounded_inv (m : positive) (e : Z) :
  bounded prec emax m e = true ->
  Zpos (digits2_pos m) <= 24 /\ -149 <= e <= 104 /\
  (Zpos (digits2_pos m) = 24 \/ e = -149).
Proof.
  unfold bounded, canonical_mantissa, fexp, emin, prec, emax.
  intros H. apply andb_prop in H as [H1 H2].
  apply Z.eqb_eq in H1. apply Z.leb_le in H2. lia.
Qed.

(** ** Scaling by a power of two *)

Local Open Scope Q_scope.

Lemma two_power_pos (e : Z) : 0 < (2 # 1) ^ e.
Proof. apply Qpower_0_lt. reflexivity. Qed.

Lemma scaled_compare (a b : Z) (e : Z) :
  (inject_Z a * (2 # 1) ^ e ?= inject_Z b * (2 # 1) ^ e) = (a ?= b)%Z.
Proof.
  pose proof (two_power_pos e) as Hp.
  destruct (Z.compare_spec a b) as [->|Hlt|Hgt].
  - apply (proj1 (Qeq_alt _ _)). reflexivity.
  - apply (proj1 (Qlt_alt _ _)). apply Qmult_lt_r; [exact Hp|]. now rewrite <- Zlt_Qlt.
  - apply (proj1 (Qgt_alt _ _)). apply Qmult_lt_r; [exact Hp|]. now rewrite <- Zlt_Qlt.
Qed.

Lemma shift_exponent (m : Z) (e k : Z) :
  (0 <= k)%Z -> inject_Z m * (2 # 1) ^ (e + k) == inject_Z (m * 2 ^ k) * (2 # 1) ^ e.
Proof.
  intros Hk. rewrite Qpower_plus by discriminate.
  rewrite inject_Z_mult, (Zpower_Qpower 2 k Hk).
  change (inject_Z 2) with (2 # 1). ring.
Qed.

(** Positive canonical numbers are ordered by exponent, then mantissa. *)
Lemma canonical_lt (m1 m2 : positive) (e1 e2 : Z) :
  bounded prec emax m1 e1 = true -> bounded prec emax m2 e2 = true ->
  (e1 < e2)%Z ->
  inject_Z (Zpos m1) * (2 # 1) ^ e1 < inject_Z (Zpos m2) * (2 # 1) ^ e2.
Proof.
  intros B1 B2 He.
  destruct (bounded_inv _ _ B1) as (D1 & R1 & _).
  destruct (bounded_inv _ _ B2) as (D2 & R2 & C2).
  pose proof (digits2_pos_bounds m1) as [_ U1].
  pose proof (digits2_pos_bounds m2) as [L2 _].
  replace e2 with (e1 + (e2 - e1))%Z by lia.
  rewrite shift_exponent by lia.
  apply (proj2 (Qlt_alt _ _)). rewrite scaled_compare. apply Z.compare_lt_iff.
  assert (Zpos (digits2_pos m2) = 24)%Z as E2 by lia.
  rewrite E2 in L2.
  assert (Zpos m1 < 2 ^ 24)%Z.
  { eapply Z.lt_le_trans; [exact U1|]. apply Z.pow_le_mono_r; lia. }
  assert (2 ^ 1 <= 2 ^ (e2 - e1))%Z by (apply Z.pow_le_mono_r; lia).
  change (2 ^ (24 - 1))%Z with 8388608%Z in L2.
  change (2 ^ 24)%Z with 16777216%Z in H.
  change (2 ^ 1)%Z with 2%Z in H0.
  nia.
Qed.

Lemma canonical_compare (m1 m2 : positive) (e1 e2 : Z) :
  bounded prec emax m1 e1 = true -> bounded prec emax m2 e2 = true ->
  (inject_Z (Zpos m1) * (2 # 1) ^ e1 ?= inject_Z (Zpos m2) * (2 # 1) ^ e2) =
  match (e1 ?= e2)%Z with
  | Lt => Lt
  | Gt => Gt
  | Eq => Pos.compare_cont Eq m1 m2
  end.
Proof.
  intros B1 B2.
  destruct (Z.compare_spec e1 e2) as [->|Hlt|Hgt].
  - rewrite scaled_compare. reflexivity.
  - apply (proj1 (Qlt_alt _ _)). now apply canonical_lt.
  - apply (proj1 (Qgt_alt _ _)). now apply canonical_lt.
Qed.

Lemma to_Q_finite_sign (s : bool) (m : positive) (e : Z) :
  if s then to_Q (S754_finite s m e) < 0 else 0 < to_Q (S754_finite s m e).
Proof.
  pose proof (two_power_pos e) as Hp.
  destruct s; cbn [to_Q cond_Zopp].
  - setoid_replace 0 with (0 * (2 # 1) ^ e) by ring.
    apply Qmult_lt_r; [exact Hp|]. reflexivity.
  - setoid_replace 0 with (0 * (2 # 1) ^ e) by ring.
    apply Qmult_lt_r; [exact Hp|]. reflexivity.
Qed.

Lemma to_Q_opp (m : positive) (e : Z) :
  to_Q (S754_finite true m e) == - to_Q (S754_finite false m e).
Proof.
  cbn [to_Q cond_Zopp]. change (Z.neg m) with (- Zpos m)%Z.
  rewrite inject_Z_opp. ring.
Qed.

(** ** The comparison of finite floats is the comparison of their values *)

Theorem compare_correct (x y : float) :
  is_finite x = true -> is_finite y = true ->
  valid x = true -> valid y = true ->
  SFcompare x y = Some (to_Q x ?= to_Q y).
Proof.
  intros Fx Fy Vx Vy.
  destruct x as [sx|sx| |sx mx ex]; try discriminate;
    destruct y as [sy|sy| |sy my ey]; try discriminate.
  - reflexivity.
  - pose proof (to_Q_finite_sign sy my ey) as H.
    cbn [SFcompare]. f_equal. symmetry.
    destruct sy; [apply (proj1 (Qgt_alt _ _))|apply (proj1 (Qlt_alt _ _))]; exact H.
  - pose proof (to_Q_finite_sign sx mx ex) as H.
    cbn [SFcompare]. f_equal. symmetry.
    destruct sx; [apply (proj1 (Qlt_alt _ _))|apply (proj1 (Qgt_alt _ _))]; exact H.
  - unfold valid in Vx, Vy. cbn [valid_binary] in Vx, Vy.
    pose proof (to_Q_finite_sign sx mx ex) as Hx.
    pose proof (to_Q_finite_sign sy my ey) as Hy.
    cbn [SFcompare]. f_equal. symmetry.
    destruct sx, sy; cbv iota in Hx, Hy.
    + rewrite !to_Q_opp.
      pose proof (canonical_compare mx my ex ey Vx Vy) as H.
      cbn [to_Q cond_Zopp].
      set (a := inject_Z (Zpos mx) * (2 # 1) ^ ex) in *.
      set (b := inject_Z (Zpos my) * (2 # 1) ^ ey) in *.
      assert (E : (- a ?= - b) = CompOpp (a ?= b)).
      { destruct (Qcompare_spec a b) as [E|E|E]; cbn [CompOpp].
        - apply (proj1 (Qeq_alt _ _)). now rewrite E.
        - apply (proj1 (Qgt_alt _ _)). lra.
        - apply (proj1 (Qlt_alt _ _)). lra. }
      rewrite E, H. destruct (ex ?= ey)%Z; reflexivity.
    + apply (proj1 (Qlt_alt _ _)). lra.
    + apply (proj1 (Qgt_alt _ _)). lra.
    + apply (canonical_compare mx my ex ey Vx Vy).
Qed.

(** ** The relational operators on regular floats *)

Lemma regular_inv (x : float) :
  regular x = true -> is_finite x = true /\ valid x = true.
Proof. unfold regular. intros H. now apply andb_prop in H. Qed.

Lemma compare_regular (x y : float) :
  regular x = true -> regular y = true ->
  SFcompare x y = Some (to_Q x ?= to_Q y)%Q.
Proof.
  intros Hx Hy.
  destruct (regular_inv x Hx), (regular_inv y Hy). now apply compare_correct.
Qed.

Lemma fgt_flt (x y : float) : fgt x y = flt y x.
Proof. reflexivity. Qed.

(** The relational operators on regular floats, read on their values. *)
Lemma flt_true (x y : float) :
  regular x = true -> regular y = true ->
  flt x y = true <-> (to_Q x < to_Q y)%Q.
Proof.
  intros Hx Hy. unfold flt, SFltb. rewrite (compare_regular x y Hx Hy).
  destruct (Qcompare_spec (to_Q x) (to_Q y)) as [E|E|E];
    split; intros H; try discriminate; try reflexivity; try lra.
Qed.

Lemma flt_false (x y : float) :
  regular x = true -> regular y = true ->
  flt x y = false <-> (to_Q y <= to_Q x)%Q.
Proof.
  intros Hx Hy. unfold flt, SFltb. rewrite (compare_regular x y Hx Hy).
  destruct (Qcompare_spec (to_Q x) (to_Q y)) as [E|E|E];
    split; intros H; try discriminate; try reflexivity; try lra.
Qed.

Lemma fle_true (x y : float) :
  regular x = true -> regular y = true ->
  fle x y = true <-> (to_Q x <= to_Q y)%Q.
Proof.
  intros Hx Hy. unfold fle, SFleb. rewrite (compare_regular x y Hx Hy).
  destruct (Qcompare_spec (to_Q x) (to_Q y)) as [E|E|E];
    split; intros H; try discriminate; try reflexivity; try lra.
Qed.

Lemma fle_false (x y : float) :
  regular x = true -> regular y = true ->
  fle x y = false <-> (to_Q y < to_Q x)%Q.
Proof.
  intros Hx Hy. unfold fle, SFleb. rewrite (compare_regular x y Hx Hy).
  destruct (Qcompare_spec (to_Q x) (to_Q y)) as [E|E|E];
    split; intros H; try discriminate; try reflexivity; try lra.
Qed.

Lemma exact_inv (op : Q -> Q -> Q) (x y r : float) :
  exact op x y r = true ->
  regular r = true /\ (to_Q r == op (to_Q x) (to_Q y))%Q.
Proof.
  unfold exact. intros H. apply andb_prop in H as [H1 H2].
  split; [exact H1|]. now apply Qeq_bool_iff.
Qed.

Lemma to_Q_one : (to_Q f_one == 1)%Q.
Proof. vm_compute. reflexivity. Qed.

Lemma compare_same (x : float) : is_nan x = false -> SFcompare x x = Some Eq.
Proof.
  destruct x as [s|s| |s m e]; try discriminate; intros _; cbn [SFcompare].
  - reflexivity.
  - destruct s; reflexivity.
  - rewrite Z.compare_refl, Pos.compare_cont_refl. destruct s; reflexivity.
Qed.


Lemma feq_same (x : float) : is_nan x = false -> feq x x = true.
Proof. intros H. unfold feq, SFeqb. now rewrite compare_same. Qed.


(** ** Absolute value *)

Lemma regular_fabsf (x : float) : regular x = true -> regular (fabsf x) = true.
Proof. destruct x; intros H; exact H. Qed.

Lemma to_Q_fabsf (x : float) : (to_Q (fabsf x) == Qabs (to_Q x))%Q.
Proof.
  destruct x as [s|s| |s m e]; try reflexivity.
  pose proof (to_Q_finite_sign s m e) as Hs.
  pose proof (to_Q_finite_sign false m e) as Hp. cbv iota in Hp.
  destruct s; cbv iota in Hs.
  - rewrite Qabs_neg by lra. rewrite to_Q_opp.
    unfold fabsf, SFabs. ring.
  - rewrite Qabs_pos by lra. reflexivity.
Qed.


End FloatFacts.

(* ================================================================== *)
(** * Properties of the comparator *)
(* ================================================================== *)

Module ComparatorFacts.

Import TxPIDPrim FloatFacts.

(** ** The comparator *)

(** A float never differs from itself: the difference is a zero or a NaN,
    and neither exceeds [1e-9f]. *)
Lemma differs_same (x : float) : differs x x = false.
Proof.
  unfold differs, fgt, fabsf, fsub.
  destruct x as [s|s| |s m e]; try (destruct s; reflexivity); try reflexivity.
  unfold SFsub. rewrite Z.sub_diag. reflexivity.
Qed.

Lemma differs_neq (x y : float) : differs x y = true -> x <> y.
Proof. intros H ->. rewrite differs_same in H. discriminate. Qed.

(** The three observable effects of [update]. *)
Lemma update_returns_flag (var val : float) :
  snd (update var val) = (if differs var val then 1 else 0).
Proof. unfold update. destruct (differs var val); reflexivity. Qed.

Lemma update_stores (var val : float) :
  fst (update var val) = (if differs var val then val else var).
Proof. unfold update. destruct (differs var val); reflexivity. Qed.

(** After [update], the variable no longer differs from the value. *)
Lemma update_settles (var val : float) :
  differs (fst (update var val)) val = false.
Proof.
  rewrite update_stores. destruct (differs var val) eqn:E; [apply differs_same | exact E].
Qed.

(** The literal [1e-9f] is the float [0x3089705F]. *)
Lemma f_1e_9_bits : f_1e_9 = S754_finite false 9007199 (-53).
Proof. vm_compute. reflexivity. Qed.

(** It lies within half a unit in the last place of [10^-9]. *)
Lemma f_1e_9_nearest :
  (Qabs (to_Q f_1e_9 - (1 # 1000000000)) <= Qpower (2 # 1) (-54))%Q.
Proof. vm_compute. discriminate. Qed.

(** On values: when the subtraction is exact, the variable differs from
    the value exactly when the magnitude of the difference of the two
    numbers exceeds the literal. *)
Lemma differs_exact (var val : float) :
  exact Qminus var val (fsub var val) = true ->
  differs var val = true <-> (to_Q f_1e_9 < Qabs (to_Q var - to_Q val))%Q.
Proof.
  intros Hex. destruct (exact_inv _ _ _ _ Hex) as [R E].
  unfold differs. rewrite fgt_flt.
  rewrite (flt_true f_1e_9 (fabsf (fsub var val)));
    [|vm_compute; reflexivity|now apply regular_fabsf].
  rewrite to_Q_fabsf, E. reflexivity.
Qed.

(** C4: [update(var, val)] stores [val] in [*var] and returns 1 exactly
    when [fabsf( *var - val) > 1e-9f] holds (a binary32 subtraction and a
    comparison with the binary32 literal); otherwise it returns 0 and
    [*var] keeps its contents.  When the subtraction does not round, the
    test is [|var - val| > 1e-9f] on the numbers themselves. *)
Theorem update_spec (var val : float) :
  (snd (update var val) = 1 <-> fgt (fabsf (fsub var val)) f_1e_9 = true) /\
  (fgt (fabsf (fsub var val)) f_1e_9 = true -> update var val = (val, 1)) /\
  (fgt (fabsf (fsub var val)) f_1e_9 = false -> update var val = (var, 0)) /\
  (snd (update var val) = 1 \/ snd (update var val) = 0) /\
  (exact Qminus var val (fsub var val) = true ->
   (snd (update var val) = 1 <-> (to_Q f_1e_9 < Qabs (to_Q var - to_Q val))%Q)).
Proof.
  split; [|split; [|split; [|split]]].
  - unfold update, differs. destruct (fgt _ _); split; auto; discriminate.
  - unfold update, differs. intros ->. reflexivity.
  - unfold update, differs. intros ->. reflexivity.
  - unfold update. destruct (differs var val); auto.
  - intros Hex. rewrite update_returns_flag, <- (differs_exact var val Hex).
    destruct (differs var val); split; auto; discriminate.
Qed.

End ComparatorFacts.

(* ================================================================== *)
(** * Properties of the loop and of the gates *)
(* ================================================================== *)

Module LoopFacts.

Import TxPID TxPIDPrim TxPIDSpec.


(** Unfolds the primitive computations of the task. *)
Ltac task_unfold :=
  unfold do_TxPIDSettingsGet, do_FlightStatusArmedGet,
    do_StabilizationSettingsBank1Get, do_StabilizationSettingsBank2Get,
    do_StabilizationSettingsGet, do_ManualControlCommandThrottleGet,
    do_AccessoryDesiredInstGet, do_StabilizationSettingsSet,
    do_StabilizationSettingsBank1Set, do_StabilizationSettingsBank2Set,
    PIOS_Assert_0, bind, get, set, ret in *.

Section Loop.

Variable hdr : Headers.

(** [dispatch] never touches the object store and makes no call. *)
Lemma dispatch_pure pid value l bus :
  exists r, dispatch pid value l bus = (r, bus, []).
Proof.
  destruct pid; cbn [dispatch]; task_unfold; eexists; reflexivity.
Qed.

(** A slot only reads: the object store is unchanged and the trace holds
    at most one call, a read of an input. *)
Lemma slot_reads_only inst i l bus :
  exists r t, slot hdr inst i l bus = (r, bus, t) /\
              filter is_write t = [] /\ (length t <= 1)%nat.
Proof.
  unfold slot.
  destruct (is_disabled _).
  - exists (Done l), []. cbn. auto.
  - destruct (_ =? _).
    + unfold bind at 1, do_ManualControlCommandThrottleGet, get.
      match goal with |- context [dispatch ?p ?v ?l ?b] =>
        destruct (dispatch_pure p v l b) as [r ->] end.
      exists r, [ManualControlCommandThrottleGet]. cbn. auto.
    + unfold bind at 1, do_AccessoryDesiredInstGet, get.
      destruct (obj_AccessoryDesired bus _).
      * match goal with |- context [dispatch ?p ?v ?l ?b] =>
          destruct (dispatch_pure p v l b) as [r ->] end.
        eexists r, [_]. cbn. auto.
      * eexists (Done l), [_]. cbn. auto.
Qed.

(** The whole loop only reads. *)
Lemma slots_read_only inst idx : forall l bus,
  exists r t, slots hdr inst idx l bus = (r, bus, t) /\ filter is_write t = [].
Proof.
  induction idx as [|i idx IH]; intros l bus; cbn [slots].
  - exists (Done l), []. auto.
  - unfold bind.
    destruct (slot_reads_only inst i l bus) as (r & t & -> & Ht & _).
    destruct r as [l'|].
    + destruct (IH l' bus) as (r' & t' & -> & Ht').
      exists r', (t ++ t'). split; [reflexivity|].
      rewrite filter_app, Ht, Ht'. reflexivity.
    + exists AssertFailed, t. auto.
Qed.

(** C5: when the update mode is When Armed and the vehicle is disarmed,
    a tick makes no Set call on any object, whatever the slots and the
    inputs are: the object store is left as it was, and the tick only
    reads the settings and the armed flag (or nothing at all when the
    event does not come from AccessoryDesired). *)
Theorem armed_gating (ev : UAVObjEvent) (bus : Bus) :
  UpdateMode (obj_TxPIDSettings bus) = TXPIDSETTINGS_UPDATEMODE_WHENARMED hdr ->
  obj_FlightStatusArmed bus = FLIGHTSTATUS_ARMED_DISARMED hdr ->
  writes_of hdr ev bus = [] /\
  bus_after hdr ev bus = bus /\
  (trace_of hdr ev bus = [] \/
   trace_of hdr ev bus = [TxPIDSettingsGet; FlightStatusArmedGet] \/
   trace_of hdr ev bus = [TxPIDSettingsGet]).
Proof.
  intros Hmode Harmed.
  unfold writes_of, bus_after, trace_of, updatePIDs.
  destruct (negb _); [cbn; auto|].
  task_unfold. cbn [fst snd].
  destruct (UpdateMode (obj_TxPIDSettings bus) =? TXPIDSETTINGS_UPDATEMODE_NEVER hdr);
    [cbn; auto|].
  rewrite Hmode, Harmed, !Z.eqb_refl. cbn. auto.
Qed.

(** ** Disabled slots *)

Lemma slot_disabled inst i l bus :
  nth i (PIDs inst) TXPIDSETTINGS_PIDS_DISABLED = TXPIDSETTINGS_PIDS_DISABLED ->
  slot hdr inst i l bus = (Done l, bus, []).
Proof. intros H. unfold slot. rewrite H. reflexivity. Qed.

(** C8: a slot whose PID is Disabled is skipped.  Its body makes no
    UAVObject call (no input is read, nothing is written) and leaves
    every local unchanged, whatever its input source, its range and the
    input values are; the loop behaves as the loop without that
    index. *)
Theorem disabled_slot_skipped (inst : TxPIDSettingsData) (i : nat) :
  nth i (PIDs inst) TXPIDSETTINGS_PIDS_DISABLED = TXPIDSETTINGS_PIDS_DISABLED ->
  (forall l bus, slot hdr inst i l bus = (Done l, bus, [])) /\
  (forall idx l bus,
      slots hdr inst idx l bus =
      slots hdr inst (filter (fun j => negb (Nat.eqb j i)) idx) l bus).
Proof.
  intros Hdis. split.
  - intros l bus. now apply slot_disabled.
  - induction idx as [|j idx IH]; intros l bus; [reflexivity|].
    cbn [filter]. destruct (Nat.eqb_spec j i) as [->|Hne]; cbn [negb slots].
    + unfold bind at 1. rewrite (slot_disabled inst i l bus Hdis).
      rewrite <- IH. destruct (slots hdr inst idx l bus) as [[r b] t].
      reflexivity.
    + unfold bind.
      destruct (slot hdr inst j l bus) as [[[l'|] b] t]; [|reflexivity].
      rewrite IH. reflexivity.
Qed.

End Loop.

End LoopFacts.

(* ================================================================== *)
(** * Properties of scale *)
(* ================================================================== *)

Module ScaleFacts.

Import TxPIDPrim TxPIDSpec FloatFacts.

(** The bound step: the clamped input lies in the input range. *)
Lemma clamp_range (val inMin inMax : float) :
  regular val = true -> regular inMin = true -> regular inMax = true ->
  (to_Q inMin < to_Q inMax)%Q ->
  let v := if fgt val inMax then inMax else val in
  let v := if flt v inMin then inMin else v in
  regular v = true /\ (to_Q inMin <= to_Q v <= to_Q inMax)%Q.
Proof.
  intros Hv Hlo Hhi Hord. cbv zeta. rewrite !fgt_flt.
  destruct (flt inMax val) eqn:E1; cbv iota.
  - destruct (flt inMax inMin) eqn:E2; cbv iota.
    + apply (proj1 (flt_true _ _ Hhi Hlo)) in E2. lra.
    + split; [assumption|lra].
  - apply (proj1 (flt_false _ _ Hhi Hv)) in E1.
    destruct (flt val inMin) eqn:E2; cbv iota.
    + split; [assumption|lra].
    + apply (proj1 (flt_false _ _ Hv Hlo)) in E2. split; [assumption|lra].
Qed.

(** The last step: an exact affine combination stays between its ends. *)
Lemma affine_between (lo hi t : float) :
  regular lo = true -> regular hi = true ->
  (to_Q lo <= to_Q hi)%Q -> (0 <= to_Q t <= 1)%Q ->
  exact Qminus hi lo (fsub hi lo) = true ->
  exact Qmult (fsub hi lo) t (fmul (fsub hi lo) t) = true ->
  exact Qplus (fmul (fsub hi lo) t) lo (fadd (fmul (fsub hi lo) t) lo) = true ->
  let r := fadd (fmul (fsub hi lo) t) lo in
  regular r = true /\ (to_Q lo <= to_Q r <= to_Q hi)%Q.
Proof.
  intros Hlo Hhi Hord Ht E1 E2 E3 r.
  destruct (exact_inv _ _ _ _ E1) as [_ Q1].
  destruct (exact_inv _ _ _ _ E2) as [_ Q2].
  destruct (exact_inv _ _ _ _ E3) as [R3 Q3].
  split; [exact R3|].
  fold r in Q3. rewrite Q3, Q2, Q1.
  set (a := to_Q lo) in *. set (b := to_Q hi) in *. set (u := to_Q t) in *.
  assert (0 <= (b - a) * u)%Q by (apply Qmult_le_0_compat; lra).
  assert ((b - a) * u <= (b - a) * 1)%Q.
  { destruct (Qle_lt_or_eq _ _ Hord) as [Hlt|Heq].
    - apply Qmult_le_l; lra.
    - setoid_replace (b - a)%Q with 0%Q by lra. lra. }
  lra.
Qed.

Lemma between_of_range (a b r : float) :
  regular a = true -> regular b = true -> regular r = true ->
  (to_Q a <= to_Q r <= to_Q b)%Q \/ (to_Q b <= to_Q r <= to_Q a)%Q ->
  between a b r = true.
Proof.
  intros Ha Hb Hr H. unfold between. apply orb_true_iff.
  destruct H as [[H1 H2]|[H1 H2]]; [left|right];
    apply andb_true_intro; split; apply fle_true; assumption.
Qed.

(** The normalization step: the normalized value lies in [0, 1]. *)
Lemma normalized_range (v inMin inMax : float) :
  regular inMin = true -> regular inMax = true ->
  (fle inMax inMin = false -> (to_Q inMin <= to_Q v <= to_Q inMax)%Q) ->
  (if fle inMax inMin then true
   else exact Qminus v inMin (fsub v inMin)
        && exact Qminus inMax inMin (fsub inMax inMin)
        && exact Qdiv (fsub v inMin) (fsub inMax inMin)
             (fdiv (fsub v inMin) (fsub inMax inMin))) = true ->
  let t := if fle inMax inMin then f_zero
           else fdiv (fsub v inMin) (fsub inMax inMin) in
  (0 <= to_Q t <= 1)%Q.
Proof.
  intros Rlo Rhi Hv Hex. cbv zeta.
  destruct (fle inMax inMin) eqn:Edeg.
  - cbn [to_Q f_zero]. lra.
  - specialize (Hv eq_refl).
    apply (proj1 (fle_false _ _ Rhi Rlo)) in Edeg.
    apply andb_prop in Hex as [Hex E3]. apply andb_prop in Hex as [E1 E2].
    destruct (exact_inv _ _ _ _ E1) as [_ Q1].
    destruct (exact_inv _ _ _ _ E2) as [_ Q2].
    destruct (exact_inv _ _ _ _ E3) as [_ Q3].
    rewrite Q3, Q2, Q1.
    set (a := to_Q inMin) in *. set (b := to_Q inMax) in *. set (x := to_Q v) in *.
    split.
    + apply Qle_shift_div_l; lra.
    + apply Qle_shift_div_r; lra.
Qed.

(** When no arithmetic step of [scale] rounds or overflows on finite
    arguments, the result lies in the closed interval spanned by [outMin]
    and [outMax], whatever their order and wherever [val] lies. *)
Theorem scale_between_when_exact (val inMin inMax outMin outMax : float) :
  regular val = true -> regular inMin = true -> regular inMax = true ->
  regular outMin = true -> regular outMax = true ->
  scale_exact val inMin inMax outMin outMax = true ->
  between outMin outMax (scale val inMin inMax outMin outMax) = true.
Proof.
  intros Rv Rlo Rhi Ra Rb Hex.
  unfold scale. unfold scale_exact in Hex. cbv zeta in *.
  set (v := if flt (if fgt val inMax then inMax else val) inMin then inMin
            else if fgt val inMax then inMax else val) in *.
  assert (Hv : fle inMax inMin = false -> (to_Q inMin <= to_Q v <= to_Q inMax)%Q).
  { intros Edeg. apply (proj1 (fle_false _ _ Rhi Rlo)) in Edeg.
    apply (clamp_range val inMin inMax Rv Rlo Rhi Edeg). }
  set (t := if fle inMax inMin then f_zero
            else fdiv (fsub v inMin) (fsub inMax inMin)) in *.
  destruct (fgt outMin outMax) eqn:Eswap; cbv iota beta in Hex |- *.
  - (* the output range is reversed *)
    apply andb_prop in Hex as [Hex E5]. apply andb_prop in Hex as [Hex E4].
    apply andb_prop in Hex as [Hex E3]. apply andb_prop in Hex as [E1 E2].
    pose proof (normalized_range v inMin inMax Rlo Rhi Hv E1) as Ht.
    cbv zeta in Ht. fold t in Ht.
    destruct (exact_inv _ _ _ _ E2) as [_ Q2]. rewrite to_Q_one in Q2.
    rewrite fgt_flt in Eswap. apply (proj1 (flt_true _ _ Rb Ra)) in Eswap.
    destruct (affine_between outMax outMin (fsub f_one t) Rb Ra) as [Rr Hr];
      try assumption; [lra|lra|].
    apply between_of_range; try assumption. right. exact Hr.
  - (* the output range is in order *)
    apply andb_prop in Hex as [Hex E5]. apply andb_prop in Hex as [Hex E4].
    apply andb_prop in Hex as [Hex E3]. apply andb_prop in Hex as [E1 _].
    pose proof (normalized_range v inMin inMax Rlo Rhi Hv E1) as Ht.
    cbv zeta in Ht. fold t in Ht.
    rewrite fgt_flt in Eswap. apply (proj1 (flt_false _ _ Rb Ra)) in Eswap.
    destruct (affine_between outMin outMax t Ra Rb) as [Rr Hr]; try assumption.
    apply between_of_range; try assumption. left. exact Hr.
Qed.

(** ** The degenerate input range *)




End ScaleFacts.

(* ================================================================== *)
(** * The switch and the dispatch table *)
(* ================================================================== *)

Module TableFacts.

Import TxPID TxPIDPrim TxPIDSpec ComparatorFacts.

(** ** The switch refines the dispatch table *)

Lemma dispatch_table pid value l bus :
  dispatch pid value l bus =
  match targets pid with
  | Some fs => (Done (update_fields fs value l), bus, [])
  | None => (AssertFailed, bus, [])
  end.
Proof. destruct pid; reflexivity. Qed.

Lemma Field_eqb_eq f g : Field_eqb f g = true <-> f = g.
Proof.
  split.
  - destruct f as [[] []|[] []|], g as [[] []|[] []|]; cbn; congruence.
  - intros <-. destruct f as [[] []|[] []|]; reflexivity.
Qed.

(** One update statement, seen from its destination ... *)
Lemma read_update_same f value l :
  read_field f (update_field f value l) = fst (update (read_field f l) value).
Proof.
  destruct f as [[] []|[] []|];
    unfold read_field, update_field, is_bank_field, update_bank, update_stab, update;
    destruct (differs _ _); reflexivity.
Qed.

(** ... and from any other destination. *)
Lemma read_update_other f g value l :
  f <> g -> read_field g (update_field f value l) = read_field g l.
Proof.
  intros Hne.
  destruct f as [[] []|[] []|], g as [[] []|[] []|]; try congruence;
    unfold read_field, update_field, update_bank, update_stab, update;
    destruct (differs _ _); reflexivity.
Qed.

Lemma update_field_bank_flag f value l :
  needsUpdateBank (update_field f value l) =
  if is_bank_field f
  then Z.lor (needsUpdateBank l) (snd (update (read_field f l) value))
  else needsUpdateBank l.
Proof.
  destruct f as [[] []|[] []|];
    unfold read_field, update_field, is_bank_field, update_bank, update_stab, update;
    destruct (differs _ _); reflexivity.
Qed.

Lemma update_field_stab_flag f value l :
  needsUpdateStab (update_field f value l) =
  if is_bank_field f
  then needsUpdateStab l
  else Z.lor (needsUpdateStab l) (snd (update (read_field f l) value)).
Proof.
  destruct f as [[] []|[] []|];
    unfold read_field, update_field, is_bank_field, update_bank, update_stab, update;
    destruct (differs _ _); reflexivity.
Qed.

(** A bank destination leaves the settings alone, and conversely. *)
Lemma update_field_stab f value l :
  is_bank_field f = true -> stab (update_field f value l) = stab l.
Proof.
  destruct f as [[] []|[] []|]; cbn [is_bank_field]; try discriminate; intros _;
    unfold update_field, update_bank, update; destruct (differs _ _); reflexivity.
Qed.

Lemma update_field_bank f value l :
  is_bank_field f = false -> bank (update_field f value l) = bank l.
Proof.
  destruct f as [[] []|[] []|]; cbn [is_bank_field]; try discriminate; intros _;
    unfold update_field, update_stab, update; destruct (differs _ _); reflexivity.
Qed.

(** Inside the dead band the statement has no effect at all. *)
Lemma update_field_noop f value l :
  differs (read_field f l) value = false -> update_field f value l = l.
Proof.
  destruct l as [b s nb ns].
  destruct b as [[] [] [] [] [] []], s as [g].
  destruct f as [[] []|[] []|]; intros H;
    unfold read_field, update_field, update_bank, update_stab, update in *;
    rewrite H; cbn; rewrite ?Z.lor_0_r; reflexivity.
Qed.

(** Outside the dead band the destination receives the value and the
    record it belongs to changes. *)
Lemma update_field_changes f value l :
  differs (read_field f l) value = true ->
  read_field f (update_field f value l) = value /\
  (if is_bank_field f
   then bank (update_field f value l) <> bank l /\ needsUpdateBank (update_field f value l) <> 0
   else stab (update_field f value l) <> stab l /\ needsUpdateStab (update_field f value l) <> 0).
Proof.
  intros Hd.
  assert (Hr : read_field f (update_field f value l) = value).
  { rewrite read_update_same, update_stores, Hd. reflexivity. }
  split; [exact Hr|].
  pose proof (differs_neq _ _ Hd) as Hne.
  rewrite <- Hr in Hne.
  pose proof (update_field_bank_flag f value l) as Hb.
  pose proof (update_field_stab_flag f value l) as Hs.
  rewrite update_returns_flag, Hd in Hb, Hs.
  destruct f as [a c|a c|]; cbn [is_bank_field] in *.
  - split.
    + intros E. apply Hne. cbn [read_field]. rewrite E. reflexivity.
    + rewrite Hb. intros E. apply Z.lor_eq_0_iff in E. lia.
  - split.
    + intros E. apply Hne. cbn [read_field]. rewrite E. reflexivity.
    + rewrite Hb. intros E. apply Z.lor_eq_0_iff in E. lia.
  - split.
    + intros E. apply Hne. cbn [read_field]. rewrite E. reflexivity.
    + rewrite Hs. intros E. apply Z.lor_eq_0_iff in E. lia.
Qed.

End TableFacts.

(* ================================================================== *)
(** * The loop body through the dispatch table *)
(* ================================================================== *)

Module SlotFacts.

Import TxPID TxPIDPrim TxPIDSpec ComparatorFacts LoopFacts TableFacts.

Section Slot.

Variable hdr : Headers.

(** ** The loop body through the dispatch table *)

Lemma slot_run inst i l bus :
  exists t,
    filter is_write t = [] /\
    slot hdr inst i l bus =
    match slot_value hdr inst bus i with
    | None => (Done l, bus, t)
    | Some v =>
        match targets (pid_at inst i) with
        | Some fs => (Done (update_fields fs v l), bus, t)
        | None => (AssertFailed, bus, t)
        end
    end.
Proof.
  unfold slot, slot_value, pid_at.
  destruct (is_disabled _).
  - exists []. auto.
  - destruct (_ =? _).
    + exists [ManualControlCommandThrottleGet]. split; [reflexivity|].
      unfold bind, do_ManualControlCommandThrottleGet, get.
      rewrite dispatch_table. destruct (targets _); reflexivity.
    + eexists [AccessoryDesiredInstGet _]. split; [reflexivity|].
      unfold bind, do_AccessoryDesiredInstGet, get.
      destruct (obj_AccessoryDesired bus _); [|reflexivity].
      rewrite dispatch_table. destruct (targets _); reflexivity.
Qed.

Lemma targets_NoDup pid fs : targets pid = Some fs -> NoDup fs.
Proof.
  destruct pid; cbn; intros [= <-];
    repeat constructor; cbn; intuition discriminate.
Qed.

(** A destination outside the list is not touched. *)
Lemma read_update_fields_other fs g value : forall l,
  ~ In g fs -> read_field g (update_fields fs value l) = read_field g l.
Proof.
  induction fs as [|f fs IH]; intros l Hnot; [reflexivity|].
  cbn [update_fields fold_left]. fold (update_fields fs value (update_field f value l)).
  rewrite IH by (intros H; apply Hnot; now right).
  apply read_update_other. intros ->. apply Hnot. now left.
Qed.

(** A destination of the list ends up within the dead band. *)
Lemma read_update_fields_same fs g value : forall l,
  NoDup fs -> In g fs ->
  read_field g (update_fields fs value l) = fst (update (read_field g l) value).
Proof.
  induction fs as [|f fs IH]; intros l Hnd Hin; [destruct Hin|].
  inversion Hnd as [|? ? Hnotin Hnd']; subst.
  cbn [update_fields fold_left]. fold (update_fields fs value (update_field f value l)).
  destruct Hin as [->|Hin].
  - rewrite read_update_fields_other by assumption. apply read_update_same.
  - rewrite IH by assumption.
    rewrite read_update_other; [reflexivity|].
    intros ->. contradiction.
Qed.

Lemma bank_of_read f l l' :
  is_bank_field f = true -> bank l = bank l' -> read_field f l = read_field f l'.
Proof. destruct f; cbn; try discriminate; intros _ ->; reflexivity. Qed.

Lemma stab_of_read f l l' :
  is_bank_field f = false -> stab l = stab l' -> read_field f l = read_field f l'.
Proof. destruct f; cbn; try discriminate; intros _ ->; reflexivity. Qed.

(** The bank flag is raised only by a change of the bank ... *)
Lemma update_fields_bank_flag fs value : forall l,
  NoDup fs ->
  needsUpdateBank (update_fields fs value l) <> 0 ->
  needsUpdateBank l <> 0 \/ bank (update_fields fs value l) <> bank l.
Proof.
  induction fs as [|f fs IH]; intros l Hnd Hflag; [left; exact Hflag|].
  inversion Hnd as [|? ? Hnotin Hnd']; subst.
  cbn [update_fields fold_left] in *.
  fold (update_fields fs value (update_field f value l)) in *.
  destruct (differs (read_field f l) value) eqn:Hd.
  - destruct (update_field_changes f value l Hd) as [Hr Hc].
    pose proof (differs_neq _ _ Hd) as Hne.
    destruct (is_bank_field f) eqn:Hbf.
    + right. intros E. apply Hne.
      rewrite (bank_of_read f l _ Hbf (eq_sym E)).
      rewrite read_update_fields_other by assumption. exact Hr.
    + destruct (IH _ Hnd' Hflag) as [H|H].
      * left. rewrite update_field_bank_flag, Hbf in H. exact H.
      * right. rewrite (update_field_bank f value l Hbf) in H. exact H.
  - rewrite (update_field_noop f value l Hd) in *. now apply IH.
Qed.

(** ... and the settings flag only by a change of the settings. *)
Lemma update_fields_stab_flag fs value : forall l,
  NoDup fs ->
  needsUpdateStab (update_fields fs value l) <> 0 ->
  needsUpdateStab l <> 0 \/ stab (update_fields fs value l) <> stab l.
Proof.
  induction fs as [|f fs IH]; intros l Hnd Hflag; [left; exact Hflag|].
  inversion Hnd as [|? ? Hnotin Hnd']; subst.
  cbn [update_fields fold_left] in *.
  fold (update_fields fs value (update_field f value l)) in *.
  destruct (differs (read_field f l) value) eqn:Hd.
  - destruct (update_field_changes f value l Hd) as [Hr Hc].
    pose proof (differs_neq _ _ Hd) as Hne.
    destruct (is_bank_field f) eqn:Hbf.
    + destruct (IH _ Hnd' Hflag) as [H|H].
      * left. rewrite update_field_stab_flag, Hbf in H. exact H.
      * right. rewrite (update_field_stab f value l Hbf) in H. exact H.
    + right. intros E. apply Hne.
      rewrite (stab_of_read f l _ Hbf (eq_sym E)).
      rewrite read_update_fields_other by assumption. exact Hr.
  - rewrite (update_field_noop f value l Hd) in *. now apply IH.
Qed.

End Slot.

End SlotFacts.

(* ================================================================== *)
(** * The shape of a tick *)
(* ================================================================== *)

Module TickFacts.

Import TxPID TxPIDPrim TxPIDSpec ComparatorFacts LoopFacts TableFacts SlotFacts.

Section Tick.

Variable hdr : Headers.

Lemma slots_flag_bank inst bus idx : forall l l' t,
  slots hdr inst idx l bus = (Done l', bus, t) ->
  needsUpdateBank l' <> 0 ->
  needsUpdateBank l <> 0 \/
  some_slot hdr inst bus (fun a b => bank b <> bank a) idx l.
Proof.
  induction idx as [|i idx IH]; intros l l' t Hrun Hflag.
  - cbn in Hrun. injection Hrun as <- _. now left.
  - cbn [slots] in Hrun. unfold bind in Hrun.
    destruct (slot_run hdr inst i l bus) as (t1 & _ & Hslot).
    destruct (slot hdr inst i l bus) as [[[l1|] b1] t1'] eqn:E; [|discriminate].
    assert (b1 = bus /\ t1' = t1) as [-> ->].
    { destruct (slot_value hdr inst bus i); [destruct (targets _)|];
        inversion Hslot; auto. }
    destruct (slots hdr inst idx l1 bus) as [[r2 b2] t2] eqn:E2.
    destruct (slots_read_only hdr inst idx l1 bus) as (r2' & t2' & E2' & _).
    rewrite E2 in E2'. injection E2' as -> -> ->.
    injection Hrun as -> _.
    destruct (IH _ _ _ E2 Hflag) as [H|H].
    + destruct (slot_value hdr inst bus i) as [v|].
      * destruct (targets (pid_at inst i)) as [fs|] eqn:Ht; [|discriminate].
        injection Hslot as ->.
        destruct (update_fields_bank_flag fs v l (targets_NoDup _ _ Ht) H) as [H'|H'].
        -- now left.
        -- right. eapply slot_here; [exact E|exact H'].
      * injection Hslot as ->. now left.
    + right. eapply slot_later; [exact E|exact H].
Qed.

Lemma slots_flag_stab inst bus idx : forall l l' t,
  slots hdr inst idx l bus = (Done l', bus, t) ->
  needsUpdateStab l' <> 0 ->
  needsUpdateStab l <> 0 \/
  some_slot hdr inst bus (fun a b => stab b <> stab a) idx l.
Proof.
  induction idx as [|i idx IH]; intros l l' t Hrun Hflag.
  - cbn in Hrun. injection Hrun as <- _. now left.
  - cbn [slots] in Hrun. unfold bind in Hrun.
    destruct (slot_run hdr inst i l bus) as (t1 & _ & Hslot).
    destruct (slot hdr inst i l bus) as [[[l1|] b1] t1'] eqn:E; [|discriminate].
    assert (b1 = bus /\ t1' = t1) as [-> ->].
    { destruct (slot_value hdr inst bus i); [destruct (targets _)|];
        inversion Hslot; auto. }
    destruct (slots hdr inst idx l1 bus) as [[r2 b2] t2] eqn:E2.
    destruct (slots_read_only hdr inst idx l1 bus) as (r2' & t2' & E2' & _).
    rewrite E2 in E2'. injection E2' as -> -> ->.
    injection Hrun as -> _.
    destruct (IH _ _ _ E2 Hflag) as [H|H].
    + destruct (slot_value hdr inst bus i) as [v|].
      * destruct (targets (pid_at inst i)) as [fs|] eqn:Ht; [|discriminate].
        injection Hslot as ->.
        destruct (update_fields_stab_flag fs v l (targets_NoDup _ _ Ht) H) as [H'|H'].
        -- now left.
        -- right. eapply slot_here; [exact E|exact H'].
      * injection Hslot as ->. now left.
    + right. eapply slot_later; [exact E|exact H].
Qed.

Lemma read_bank_shape mode bus :
  exists t, read_bank mode bus = (Done (loaded_bank mode bus), bus, t) /\
            filter is_write t = [].
Proof.
  unfold loaded_bank.
  destruct mode as [|[[p|p|]|[p|p|]|]|p]; cbn; eexists; split; reflexivity.
Qed.

(** What the write-back does, according to the two flags. *)
Lemma publish_shape mode l bus :
  exists bus' t,
    publish mode l bus = (Done tt, bus', t) /\
    (length (filter is_bank_write t) <= 1)%nat /\
    (length (filter is_settings_write t) <= 1)%nat /\
    (filter is_bank_write t <> [] -> needsUpdateBank l <> 0) /\
    (filter is_settings_write t <> [] -> needsUpdateStab l <> 0) /\
    (needsUpdateBank l = 0 -> needsUpdateStab l = 0 -> bus' = bus /\ t = []).
Proof.
  unfold publish.
  destruct (Z.eqb_spec (needsUpdateStab l) 0) as [Hs|Hs];
    destruct (Z.eqb_spec (needsUpdateBank l) 0) as [Hb|Hb].
  - exists bus, []. cbn. repeat split; auto; congruence.
  - destruct mode as [|[[p|p|]|[p|p|]|]|p]; cbn; eexists _, _;
      (split; [reflexivity|]); cbn; repeat split; auto; congruence.
  - eexists _, _. cbn. split; [reflexivity|]. cbn. repeat split; auto; congruence.
  - destruct mode as [|[[p|p|]|[p|p|]|]|p]; cbn; eexists _, _;
      (split; [reflexivity|]); cbn; repeat split; auto; congruence.
Qed.

(** A tick that stops at one of its early returns only reads. *)
Lemma tick_closed ev bus :
  passes_gates hdr ev bus = false \/
  loaded_bank (UpdateMode (obj_TxPIDSettings bus)) bus = None ->
  exists t, updatePIDs hdr ev bus = (Done tt, bus, t) /\ filter is_write t = [].
Proof.
  unfold passes_gates, updatePIDs. intros H.
  destruct (obj ev =? AccessoryDesiredHandle hdr); cbn [negb andb] in *;
    [|exists []; auto].
  unfold bind at 1, do_TxPIDSettingsGet, get.
  destruct (_ =? TXPIDSETTINGS_UPDATEMODE_NEVER hdr); cbn [negb andb] in *;
    [eexists; split; reflexivity|].
  unfold bind at 1, do_FlightStatusArmedGet, get.
  destruct (_ && _); cbn [negb] in *; [eexists; split; reflexivity|].
  destruct H as [H|H]; [discriminate|].
  unfold bind at 1.
  destruct (read_bank_shape (UpdateMode (obj_TxPIDSettings bus)) bus) as (t & -> & Ht).
  rewrite H. cbn. eexists; split; [reflexivity|].
  rewrite app_nil_r. exact Ht.
Qed.

(** A tick that loads a bank: reads, the loop, then the write-back. *)
Lemma tick_open ev bus b0 :
  passes_gates hdr ev bus = true ->
  loaded_bank (UpdateMode (obj_TxPIDSettings bus)) bus = Some b0 ->
  exists pre r t,
    filter is_write pre = [] /\ filter is_write t = [] /\
    slots hdr (obj_TxPIDSettings bus) (seq 0 (TXPIDSETTINGS_PIDS_NUMELEM hdr))
          (locals0 b0 bus) bus = (r, bus, t) /\
    match r with
    | Done l =>
        exists bus' t',
          publish (UpdateMode (obj_TxPIDSettings bus)) l bus = (Done tt, bus', t') /\
          updatePIDs hdr ev bus = (Done tt, bus', pre ++ t ++ t')
    | AssertFailed => updatePIDs hdr ev bus = (AssertFailed, bus, pre ++ t)
    end.
Proof.
  unfold passes_gates. intros Hg Hb.
  apply andb_prop in Hg as [Hg Hg3]. apply andb_prop in Hg as [Hg1 Hg2].
  apply negb_true_iff in Hg2, Hg3.
  destruct (read_bank_shape (UpdateMode (obj_TxPIDSettings bus)) bus) as (t0 & Hrb & Ht0).
  rewrite Hb in Hrb.
  destruct (slots_read_only hdr (obj_TxPIDSettings bus)
              (seq 0 (TXPIDSETTINGS_PIDS_NUMELEM hdr)) (locals0 b0 bus) bus)
    as (r & t & Hs & Ht).
  exists ([TxPIDSettingsGet] ++ [FlightStatusArmedGet] ++ t0 ++ [StabilizationSettingsGet]), r, t.
  split; [|split; [exact Ht|split; [exact Hs|]]].
  { rewrite !filter_app, Ht0. reflexivity. }
  assert (Hrun : updatePIDs hdr ev bus =
                 match r with
                 | Done l =>
                     let '(r2, bus2, t2) :=
                       publish (UpdateMode (obj_TxPIDSettings bus)) l bus in
                     (r2, bus2,
                      [TxPIDSettingsGet] ++ [FlightStatusArmedGet] ++ t0 ++
                        [StabilizationSettingsGet] ++ t ++ t2)
                 | AssertFailed =>
                     (AssertFailed, bus,
                      [TxPIDSettingsGet] ++ [FlightStatusArmedGet] ++ t0 ++
                        [StabilizationSettingsGet] ++ t)
                 end).
  { unfold updatePIDs. rewrite Hg1. cbn [negb].
    unfold bind at 1, do_TxPIDSettingsGet, get. rewrite Hg2.
    unfold bind at 1, do_FlightStatusArmedGet, get. rewrite Hg3.
    unfold bind at 1. rewrite Hrb.
    unfold bind at 1, do_StabilizationSettingsGet, get.
    unfold bind at 1.
    change {| bank := b0; stab := obj_StabilizationSettings bus;
              needsUpdateBank := 0; needsUpdateStab := 0 |}
      with (locals0 b0 bus).
    rewrite Hs. destruct r as [l|]; [|reflexivity].
    unfold publish.
    match goal with
    | |- context [bind ?m ?k bus] => destruct (bind m k bus) as [[r2 bus2] t2]
    end.
    reflexivity. }
  rewrite Hrun. destruct r as [l|].
  - destruct (publish_shape (UpdateMode (obj_TxPIDSettings bus)) l bus)
      as (bus' & t' & Hp & _).
    exists bus', t'. split; [exact Hp|]. rewrite Hp.
    rewrite <- !app_assoc. reflexivity.
  - rewrite <- !app_assoc. reflexivity.
Qed.

End Tick.

End TickFacts.

(* ================================================================== *)
(** * Write-back discipline *)
(* ================================================================== *)

Module WriteFacts.

Import TxPID TxPIDPrim TxPIDSpec ComparatorFacts LoopFacts TableFacts SlotFacts TickFacts.

Lemma no_write_no_bank_write t :
  filter is_write t = [] ->
  filter is_bank_write t = [] /\ filter is_settings_write t = [].
Proof.
  induction t as [|op t IH]; [auto|].
  cbn [filter]. destruct op; cbn; try discriminate; exact IH.
Qed.

Section Writes.

Variable hdr : Headers.

(** C6: in every tick the bank record is written at most once and the
    settings record at most once; a bank write occurs only if the body
    of some slot changed the local bank record during the tick, and a
    settings write only if the body of some slot changed the local
    settings record. *)
Theorem one_write_per_record (ev : UAVObjEvent) (bus : Bus) :
  (length (filter is_bank_write (trace_of hdr ev bus)) <= 1)%nat /\
  (length (filter is_settings_write (trace_of hdr ev bus)) <= 1)%nat /\
  (filter is_bank_write (trace_of hdr ev bus) <> [] ->
   exists b0,
     loaded_bank (UpdateMode (obj_TxPIDSettings bus)) bus = Some b0 /\
     some_slot hdr (obj_TxPIDSettings bus) bus (fun a b => bank b <> bank a)
       (seq 0 (TXPIDSETTINGS_PIDS_NUMELEM hdr)) (locals0 b0 bus)) /\
  (filter is_settings_write (trace_of hdr ev bus) <> [] ->
   exists b0,
     loaded_bank (UpdateMode (obj_TxPIDSettings bus)) bus = Some b0 /\
     some_slot hdr (obj_TxPIDSettings bus) bus (fun a b => stab b <> stab a)
       (seq 0 (TXPIDSETTINGS_PIDS_NUMELEM hdr)) (locals0 b0 bus)).
Proof.
  unfold trace_of.
  destruct (passes_gates hdr ev bus) eqn:Hg;
    [destruct (loaded_bank (UpdateMode (obj_TxPIDSettings bus)) bus) as [b0|] eqn:Hb|].
  - destruct (tick_open hdr ev bus b0 Hg Hb) as (pre & r & t & Hpre & Ht & Hs & Hr).
    destruct (no_write_no_bank_write _ Hpre) as [Hpb Hps].
    destruct (no_write_no_bank_write _ Ht) as [Htb Hts].
    destruct r as [l|].
    + destruct Hr as (bus' & t' & Hp & ->). cbn [snd].
      destruct (publish_shape (UpdateMode (obj_TxPIDSettings bus)) l bus)
        as (bus2 & t2 & Hp2 & Hlb & Hls & Hfb & Hfs & _).
      rewrite Hp in Hp2. injection Hp2 as <- <-.
      rewrite !filter_app, Hpb, Hps, Htb, Hts. cbn [app].
      repeat split; try assumption.
      * intros Hw. exists b0. split; [reflexivity|].
        destruct (slots_flag_bank hdr _ _ _ _ _ _ Hs (Hfb Hw)) as [H|H];
          [cbn in H; congruence|exact H].
      * intros Hw. exists b0. split; [reflexivity|].
        destruct (slots_flag_stab hdr _ _ _ _ _ _ Hs (Hfs Hw)) as [H|H];
          [cbn in H; congruence|exact H].
    + rewrite Hr. cbn [snd].
      rewrite !filter_app, Hpb, Hps, Htb, Hts. cbn.
      repeat split; auto; congruence.
  - destruct (tick_closed hdr ev bus (or_intror Hb)) as (t & -> & Ht). cbn [snd].
    destruct (no_write_no_bank_write _ Ht) as [-> ->]. cbn.
    repeat split; auto; congruence.
  - destruct (tick_closed hdr ev bus (or_introl Hg)) as (t & -> & Ht). cbn [snd].
    destruct (no_write_no_bank_write _ Ht) as [-> ->]. cbn.
    repeat split; auto; congruence.
Qed.

End Writes.

End WriteFacts.

(* ================================================================== *)
(** * What the loop preserves *)
(* ================================================================== *)

Module FrameFacts.

Import TxPID TxPIDPrim TxPIDSpec ComparatorFacts LoopFacts TableFacts SlotFacts TickFacts.

Lemma writes_field_false pid f fs :
  targets pid = Some fs -> writes_field pid f = false -> ~ In f fs.
Proof.
  unfold writes_field. intros -> Hex Hin.
  assert (existsb (Field_eqb f) fs = true) as E.
  { apply existsb_exists. exists f. split; [exact Hin|]. now apply Field_eqb_eq. }
  congruence.
Qed.

(** Inside the dead band of every destination the statements do nothing. *)
Lemma update_fields_noop fs value : forall l,
  forallb (fun f => negb (differs (read_field f l) value)) fs = true ->
  update_fields fs value l = l.
Proof.
  induction fs as [|f fs IH]; intros l H; [reflexivity|].
  cbn [forallb] in H. apply andb_prop in H as [Hf Hfs].
  apply negb_true_iff in Hf.
  cbn [update_fields fold_left]. rewrite (update_field_noop f value l Hf).
  apply IH. exact Hfs.
Qed.

(** The flags never go down. *)
Lemma update_field_flags_mono f value l :
  (needsUpdateBank l <> 0 -> needsUpdateBank (update_field f value l) <> 0) /\
  (needsUpdateStab l <> 0 -> needsUpdateStab (update_field f value l) <> 0).
Proof.
  rewrite update_field_bank_flag, update_field_stab_flag.
  destruct (is_bank_field f); split; intros H; try exact H;
    intros E; apply Z.lor_eq_0_iff in E; tauto.
Qed.

(** A flag that is still down means that the record is as it was. *)
Lemma update_field_unflagged f value l :
  (needsUpdateBank (update_field f value l) = 0 -> bank (update_field f value l) = bank l) /\
  (needsUpdateStab (update_field f value l) = 0 -> stab (update_field f value l) = stab l).
Proof.
  destruct (differs (read_field f l) value) eqn:Hd.
  - destruct (update_field_changes f value l Hd) as [_ Hc].
    destruct (is_bank_field f) eqn:Hbf.
    + split; [intros E; destruct Hc as [_ Hc]; contradiction|].
      intros _. now apply update_field_stab.
    + split; [intros _; now apply update_field_bank|].
      intros E; destruct Hc as [_ Hc]; contradiction.
  - rewrite (update_field_noop f value l Hd). auto.
Qed.

Lemma update_fields_unflagged fs value : forall l,
  (needsUpdateBank (update_fields fs value l) = 0 ->
   needsUpdateBank l = 0 /\ bank (update_fields fs value l) = bank l) /\
  (needsUpdateStab (update_fields fs value l) = 0 ->
   needsUpdateStab l = 0 /\ stab (update_fields fs value l) = stab l).
Proof.
  induction fs as [|f fs IH]; intros l; [cbn; auto|].
  cbn [update_fields fold_left].
  fold (update_fields fs value (update_field f value l)).
  destruct (IH (update_field f value l)) as [IHb IHs].
  destruct (update_field_flags_mono f value l) as [Mb Ms].
  destruct (update_field_unflagged f value l) as [Ub Us].
  split; intros E.
  - destruct (IHb E) as [E1 E2].
    split; [destruct (Z.eq_dec (needsUpdateBank l) 0); [assumption|now apply Mb in n]|].
    rewrite E2. now apply Ub.
  - destruct (IHs E) as [E1 E2].
    split; [destruct (Z.eq_dec (needsUpdateStab l) 0); [assumption|now apply Ms in n]|].
    rewrite E2. now apply Us.
Qed.

Section Frame.

Variable hdr : Headers.

(** One step of a completed loop. *)
Lemma slots_cons inst bus i idx l l' t :
  slots hdr inst (i :: idx) l bus = (Done l', bus, t) ->
  exists l1 t1 t2,
    slot hdr inst i l bus = (Done l1, bus, t1) /\
    slots hdr inst idx l1 bus = (Done l', bus, t2) /\
    (l1 = l \/
     exists v fs, slot_value hdr inst bus i = Some v /\
                  targets (pid_at inst i) = Some fs /\
                  l1 = update_fields fs v l).
Proof.
  cbn [slots]. unfold bind. intros Hrun.
  destruct (slot_run hdr inst i l bus) as (t1 & _ & Hslot).
  destruct (slot hdr inst i l bus) as [[[l1|] b1] t1'] eqn:E; [|discriminate].
  assert (b1 = bus /\ t1' = t1) as [-> ->].
  { destruct (slot_value hdr inst bus i); [destruct (targets _)|];
      inversion Hslot; auto. }
  destruct (slots_read_only hdr inst idx l1 bus) as (r2 & t2 & E2 & _).
  rewrite E2 in Hrun. injection Hrun as -> _.
  exists l1, t1, t2. repeat split; [exact E2|].
  destruct (slot_value hdr inst bus i) as [v|].
  - destruct (targets (pid_at inst i)) as [fs|] eqn:Ht; [|discriminate].
    injection Hslot as ->. right. exists v, fs. auto.
  - injection Hslot as ->. now left.
Qed.

(** A destination that no slot of the loop writes keeps its contents. *)
Lemma slots_preserve_field inst bus f idx : forall l l' t,
  slots hdr inst idx l bus = (Done l', bus, t) ->
  (forall j, In j idx -> writes_field (pid_at inst j) f = false) ->
  read_field f l' = read_field f l.
Proof.
  induction idx as [|i idx IH]; intros l l' t Hrun Hfree.
  - cbn in Hrun. injection Hrun as <- _. reflexivity.
  - destruct (slots_cons _ _ _ _ _ _ _ Hrun) as (l1 & t1 & t2 & _ & Hrest & Hl1).
    rewrite (IH _ _ _ Hrest) by (intros j Hj; apply Hfree; now right).
    destruct Hl1 as [->|(v & fs & _ & Ht & ->)]; [reflexivity|].
    apply read_update_fields_other.
    eapply writes_field_false; [exact Ht|]. apply Hfree. now left.
Qed.

(** If a flag is down after the loop, it was down before it and the
    record has not changed. *)
Lemma slots_unflagged inst bus idx : forall l l' t,
  slots hdr inst idx l bus = (Done l', bus, t) ->
  (needsUpdateBank l' = 0 -> needsUpdateBank l = 0 /\ bank l' = bank l) /\
  (needsUpdateStab l' = 0 -> needsUpdateStab l = 0 /\ stab l' = stab l).
Proof.
  induction idx as [|i idx IH]; intros l l' t Hrun.
  - cbn in Hrun. injection Hrun as <- _. auto.
  - destruct (slots_cons _ _ _ _ _ _ _ Hrun) as (l1 & t1 & t2 & _ & Hrest & Hl1).
    destruct (IH _ _ _ Hrest) as [IHb IHs].
    destruct Hl1 as [->|(v & fs & _ & _ & ->)]; [auto|].
    destruct (update_fields_unflagged fs v l) as [Ub Us].
    split; intros E.
    + destruct (IHb E) as [E1 E2]. destruct (Ub E1) as [E3 E4].
      split; [exact E3|congruence].
    + destruct (IHs E) as [E1 E2]. destruct (Us E1) as [E3 E4].
      split; [exact E3|congruence].
Qed.

End Frame.

End FrameFacts.

(* ================================================================== *)
(** * The steady state *)
(* ================================================================== *)

Module SteadyFacts.

Import TxPID TxPIDPrim TxPIDSpec ComparatorFacts LoopFacts TableFacts SlotFacts
       TickFacts FrameFacts.

Section Steady.

Variable hdr : Headers.

(** What the write-back leaves in the object store. *)
Lemma publish_result mode l bus b0 :
  loaded_bank mode bus = Some b0 ->
  exists bus' t',
    publish mode l bus = (Done tt, bus', t') /\
    loaded_bank mode bus' = Some (if needsUpdateBank l =? 0 then b0 else bank l) /\
    obj_StabilizationSettings bus' =
      (if needsUpdateStab l =? 0 then obj_StabilizationSettings bus else stab l) /\
    obj_TxPIDSettings bus' = obj_TxPIDSettings bus /\
    obj_FlightStatusArmed bus' = obj_FlightStatusArmed bus /\
    obj_Throttle bus' = obj_Throttle bus /\
    obj_AccessoryDesired bus' = obj_AccessoryDesired bus.
Proof.
  unfold publish, loaded_bank.
  destruct mode as [|[[p|p|]|[p|p|]|]|p]; cbn; try discriminate; intros [= <-];
    destruct (needsUpdateStab l =? 0), (needsUpdateBank l =? 0); cbn;
    eexists _, _; repeat split; reflexivity.
Qed.

(** In the steady state the loop changes no local. *)
Lemma steady_slots inst bus idx : forall l,
  steady hdr inst bus idx l = true ->
  exists r t, slots hdr inst idx l bus = (r, bus, t) /\
              filter is_write t = [] /\ (r = Done l \/ r = AssertFailed).
Proof.
  induction idx as [|i idx IH]; intros l Hst.
  - exists (Done l), []. auto.
  - cbn [steady forallb] in Hst. apply andb_prop in Hst as [Hi Hrest].
    cbn [slots]. unfold bind.
    destruct (slot_run hdr inst i l bus) as (t1 & Ht1 & ->).
    destruct (IH l Hrest) as (r & t & Hs & Ht & Hr).
    destruct (slot_value hdr inst bus i) as [v|].
    + unfold settled in Hi.
      destruct (targets (pid_at inst i)) as [fs|].
      * rewrite (update_fields_noop fs v l Hi), Hs.
        exists r, (t1 ++ t). rewrite filter_app, Ht1, Ht. auto.
      * exists AssertFailed, t1. auto.
    + rewrite Hs. exists r, (t1 ++ t). rewrite filter_app, Ht1, Ht. auto.
Qed.

Lemma steady_state_quiet (ev : UAVObjEvent) (bus : Bus) :
  match loaded_bank (UpdateMode (obj_TxPIDSettings bus)) bus with
  | Some b0 =>
      steady hdr (obj_TxPIDSettings bus) bus
             (seq 0 (TXPIDSETTINGS_PIDS_NUMELEM hdr)) (locals0 b0 bus) = true
  | None => True
  end ->
  writes_of hdr ev bus = [] /\ bus_after hdr ev bus = bus.
Proof.
  intros Hst. unfold writes_of, bus_after, trace_of.
  destruct (passes_gates hdr ev bus) eqn:Hg;
    [destruct (loaded_bank (UpdateMode (obj_TxPIDSettings bus)) bus) as [b0|] eqn:Hb|].
  - destruct (tick_open hdr ev bus b0 Hg Hb) as (pre & r & t & Hpre & Ht & Hs & Hr).
    destruct (steady_slots _ _ _ _ Hst) as (r' & t' & Hs' & _ & Hr').
    rewrite Hs in Hs'. injection Hs' as <- <-.
    destruct Hr' as [->| ->].
    + destruct Hr as (bus' & t2 & Hp & ->). cbn [fst snd].
      destruct (publish_shape (UpdateMode (obj_TxPIDSettings bus)) (locals0 b0 bus) bus)
        as (bus2 & t3 & Hp2 & _ & _ & _ & _ & Hnone).
      rewrite Hp in Hp2. injection Hp2 as <- <-.
      destruct (Hnone eq_refl eq_refl) as [-> ->].
      rewrite !filter_app, Hpre, Ht. auto.
    + rewrite Hr. cbn [fst snd]. rewrite filter_app, Hpre, Ht. auto.
  - destruct (tick_closed hdr ev bus (or_intror Hb)) as (t & -> & Ht). auto.
  - destruct (tick_closed hdr ev bus (or_introl Hg)) as (t & -> & Ht). auto.
Qed.

(** ** After a tick *)

Lemma forallb_pointwise {A} (p q : A -> bool) (xs : list A) :
  (forall x, p x = q x) -> forallb p xs = forallb q xs.
Proof.
  intros H. induction xs as [|x xs IH]; [reflexivity|].
  cbn. rewrite H, IH. reflexivity.
Qed.

Lemma settled_ext pid v l l' :
  bank l = bank l' -> stab l = stab l' -> settled pid v l = settled pid v l'.
Proof.
  intros Hb Hs. unfold settled. destruct (targets pid) as [fs|]; [|reflexivity].
  apply forallb_pointwise. intros f. f_equal. f_equal.
  destruct (is_bank_field f) eqn:E;
    [now apply bank_of_read | now apply stab_of_read].
Qed.

Lemma slot_value_ext inst bus bus' i :
  obj_Throttle bus' = obj_Throttle bus ->
  obj_AccessoryDesired bus' = obj_AccessoryDesired bus ->
  slot_value hdr inst bus' i = slot_value hdr inst bus i.
Proof. intros Ht Ha. unfold slot_value. rewrite Ht, Ha. reflexivity. Qed.

(** After a completed loop over slots that share no destination, every
    slot that ran finds its destinations within the dead band. *)
Lemma slots_settle inst bus idx : forall l l' t,
  slots hdr inst idx l bus = (Done l', bus, t) ->
  conflict_free inst idx = true ->
  steady hdr inst bus idx l' = true.
Proof.
  induction idx as [|i idx IH]; intros l l' t Hrun Hcf; [reflexivity|].
  cbn [conflict_free] in Hcf. apply andb_prop in Hcf as [Hi Hcf].
  destruct (slots_cons _ _ _ _ _ _ _ _ Hrun) as (l1 & t1 & t2 & Hslot & Hrest & Hl1).
  cbn [steady forallb]. apply andb_true_intro. split; [|exact (IH _ _ _ Hrest Hcf)].
  destruct (slot_value hdr inst bus i) as [v|] eqn:Hv; [|reflexivity].
  unfold settled. destruct (targets (pid_at inst i)) as [fs|] eqn:Ht; [|reflexivity].
  clear Hl1. destruct (slot_run hdr inst i l bus) as (t1' & _ & E).
  rewrite Hv, Ht, Hslot in E. injection E as -> _.
  apply forallb_forall. intros f Hf. apply negb_true_iff.
  rewrite (slots_preserve_field hdr inst bus f idx _ _ _ Hrest).
  - rewrite (read_update_fields_same fs f v l (targets_NoDup _ _ Ht) Hf).
    apply update_settles.
  - intros j Hj. rewrite forallb_forall in Hi. specialize (Hi j Hj).
    apply negb_true_iff in Hi. unfold overlap in Hi. rewrite Ht in Hi.
    destruct (writes_field (pid_at inst j) f) eqn:E; [|reflexivity].
    assert (existsb (writes_field (pid_at inst j)) fs = true) as Hex
        by (apply existsb_exists; exists f; auto).
    congruence.
Qed.

Lemma steady_ext inst bus bus' idx l l' :
  obj_Throttle bus' = obj_Throttle bus ->
  obj_AccessoryDesired bus' = obj_AccessoryDesired bus ->
  bank l = bank l' -> stab l = stab l' ->
  steady hdr inst bus' idx l' = steady hdr inst bus idx l.
Proof.
  intros Ht Ha Hb Hs. unfold steady. apply forallb_pointwise. intros i.
  rewrite (slot_value_ext inst bus bus' i Ht Ha).
  destruct (slot_value hdr inst bus i); [|reflexivity].
  symmetry. now apply settled_ext.
Qed.

(** A completed tick over slots that share no destination is followed
    by a tick that writes nothing. *)
Lemma second_tick_quiet ev bus bus' t :
  updatePIDs hdr ev bus = (Done tt, bus', t) ->
  conflict_free (obj_TxPIDSettings bus) (seq 0 (TXPIDSETTINGS_PIDS_NUMELEM hdr)) = true ->
  writes_of hdr ev bus' = [] /\ bus_after hdr ev bus' = bus'.
Proof.
  intros Hrun Hcf.
  destruct (passes_gates hdr ev bus) eqn:Hg;
    [destruct (loaded_bank (UpdateMode (obj_TxPIDSettings bus)) bus) as [b0|] eqn:Hb|].
  - apply steady_state_quiet.
    destruct (tick_open hdr ev bus b0 Hg Hb) as (pre & r & t0 & _ & _ & Hs & Hr).
    destruct r as [l|]; [|rewrite Hr in Hrun; discriminate].
    destruct Hr as (bus2 & t2 & Hp & Hrun2).
    rewrite Hrun in Hrun2. injection Hrun2 as <- _.
    destruct (publish_result (UpdateMode (obj_TxPIDSettings bus)) l bus b0 Hb)
      as (bus3 & t3 & Hp3 & Hlb & Hst & Hi & _ & Hth & Hacc).
    rewrite Hp in Hp3. injection Hp3 as <- <-.
    rewrite Hi, Hlb.
    destruct (slots_unflagged hdr _ _ _ _ _ _ Hs) as [Ub Us].
    rewrite <- (slots_settle _ _ _ _ _ _ Hs Hcf).
    apply steady_ext; try assumption.
    + destruct (Z.eqb_spec (needsUpdateBank l) 0) as [E|E]; [|reflexivity].
      destruct (Ub E) as [_ ->]. reflexivity.
    + cbn [locals0 stab]. rewrite Hst.
      destruct (Z.eqb_spec (needsUpdateStab l) 0) as [E|E]; [|reflexivity].
      destruct (Us E) as [_ ->]. reflexivity.
  - destruct (tick_closed hdr ev bus (or_intror Hb)) as (t' & E & Ht').
    rewrite Hrun in E. injection E as -> ->.
    unfold writes_of, bus_after, trace_of. rewrite Hrun. auto.
  - destruct (tick_closed hdr ev bus (or_introl Hg)) as (t' & E & Ht').
    rewrite Hrun in E. injection E as -> ->.
    unfold writes_of, bus_after, trace_of. rewrite Hrun. auto.
Qed.

(** C7: the steady state is quiet.  When, for every enabled slot whose
    input resolves, the scaled value matches each destination of the
    slot within the dead band of [update], the tick makes no Set call
    and leaves the object store as it is.  That state is reached by one
    completed tick when no two slots share a destination: the tick that
    follows it on the same inputs makes no Set call. *)
Theorem steady_state_idempotence (ev : UAVObjEvent) (bus : Bus) :
  (match loaded_bank (UpdateMode (obj_TxPIDSettings bus)) bus with
   | Some b0 =>
       steady hdr (obj_TxPIDSettings bus) bus
              (seq 0 (TXPIDSETTINGS_PIDS_NUMELEM hdr)) (locals0 b0 bus) = true
   | None => True
   end ->
   writes_of hdr ev bus = [] /\ bus_after hdr ev bus = bus) /\
  (forall bus' t,
      updatePIDs hdr ev bus = (Done tt, bus', t) ->
      conflict_free (obj_TxPIDSettings bus)
                    (seq 0 (TXPIDSETTINGS_PIDS_NUMELEM hdr)) = true ->
      writes_of hdr ev bus' = [] /\ bus_after hdr ev bus' = bus').
Proof.
  split.
  - apply steady_state_quiet.
  - intros bus' t. apply second_tick_quiet.
Qed.

End Steady.

End SteadyFacts.

(* ================================================================== *)
(** * Coupled roll and pitch destinations *)
(* ================================================================== *)

Module CoupledFacts.

Import TxPID TxPIDPrim TxPIDSpec ComparatorFacts LoopFacts TableFacts SlotFacts
       TickFacts FrameFacts SteadyFacts.

(** The two statements of the case ROLLPITCHRATEKP, on the two fields. *)
Lemma coupled_rate_kp_slot (v : float) (l : Locals) :
  let l' := update_fields [RateField Roll RKp; RateField Pitch RKp] v l in
  Rate_Kp (RollRatePID (bank l')) = fst (update (Rate_Kp (RollRatePID (bank l))) v) /\
  Rate_Kp (PitchRatePID (bank l')) = fst (update (Rate_Kp (PitchRatePID (bank l))) v) /\
  (differs (Rate_Kp (RollRatePID (bank l))) v = true ->
   differs (Rate_Kp (PitchRatePID (bank l))) v = true ->
   Rate_Kp (RollRatePID (bank l')) = Rate_Kp (PitchRatePID (bank l'))).
Proof.
  intros l'.
  assert (Hnd : NoDup [RateField Roll RKp; RateField Pitch RKp])
    by (repeat constructor; cbn; intuition discriminate).
  pose proof (read_update_fields_same _ (RateField Roll RKp) v l Hnd (or_introl eq_refl)) as Hr.
  pose proof (read_update_fields_same _ (RateField Pitch RKp) v l Hnd
                (or_intror (or_introl eq_refl))) as Hp.
  change (read_field (RateField Roll RKp) ?x) with (Rate_Kp (RollRatePID (bank x))) in Hr.
  change (read_field (RateField Pitch RKp) ?x) with (Rate_Kp (PitchRatePID (bank x))) in Hp.
  fold l' in Hr, Hp.
  repeat split; [exact Hr|exact Hp|].
  intros Dr Dp. rewrite Hr, Hp, !update_stores, Dr, Dp. reflexivity.
Qed.

Section Coupled.

Variable hdr : Headers.

Lemma slots_app inst bus idx1 idx2 : forall l l' t,
  slots hdr inst (idx1 ++ idx2) l bus = (Done l', bus, t) ->
  exists l1 t1 t2,
    slots hdr inst idx1 l bus = (Done l1, bus, t1) /\
    slots hdr inst idx2 l1 bus = (Done l', bus, t2).
Proof.
  induction idx1 as [|i idx1 IH]; intros l l' t Hrun.
  - exists l, [], t. split; [reflexivity|exact Hrun].
  - cbn [app] in Hrun.
    destruct (slots_cons _ _ _ _ _ _ _ _ Hrun) as (l1 & t1 & t2 & Hslot & Hrest & _).
    destruct (IH _ _ _ Hrest) as (l2 & t3 & t4 & H1 & H2).
    exists l2, (t1 ++ t3), t4. split; [|exact H2].
    cbn [slots]. unfold bind. rewrite Hslot, H1. reflexivity.
Qed.

(** C2: after a completed tick in which slot [i] has the option
    ROLLPITCHRATEKP and its input resolves to the scaled value [v], and in
    which no later slot writes the roll-rate Kp or the pitch-rate Kp, both
    fields of the selected bank are within the dead band of [v]:
    [fabsf(Kp - v) > 1e-9f] is false for each of them. *)
Theorem coupled_rate_kp_dead_band
        (ev : UAVObjEvent) (bus bus' : Bus) (t : list BusOp)
        (b0 : StabilizationBankData) (i : nat) (v : float) :
  updatePIDs hdr ev bus = (Done tt, bus', t) ->
  passes_gates hdr ev bus = true ->
  loaded_bank (UpdateMode (obj_TxPIDSettings bus)) bus = Some b0 ->
  (i < TXPIDSETTINGS_PIDS_NUMELEM hdr)%nat ->
  pid_at (obj_TxPIDSettings bus) i = TXPIDSETTINGS_PIDS_ROLLPITCHRATEKP ->
  slot_value hdr (obj_TxPIDSettings bus) bus i = Some v ->
  (forall j, (i < j < TXPIDSETTINGS_PIDS_NUMELEM hdr)%nat ->
             writes_field (pid_at (obj_TxPIDSettings bus) j) (RateField Roll RKp) = false /\
             writes_field (pid_at (obj_TxPIDSettings bus) j) (RateField Pitch RKp) = false) ->
  exists b',
    loaded_bank (UpdateMode (obj_TxPIDSettings bus)) bus' = Some b' /\
    differs (Rate_Kp (RollRatePID b')) v = false /\
    differs (Rate_Kp (PitchRatePID b')) v = false.
Proof.
  intros Hrun Hg Hb Hi Hpid Hv Hlater.
  destruct (tick_open hdr ev bus b0 Hg Hb) as (pre & r & t0 & _ & _ & Hs & Hr).
  destruct r as [l|]; [|rewrite Hr in Hrun; discriminate].
  destruct Hr as (bus2 & t2 & Hp & Hrun2).
  rewrite Hrun in Hrun2. injection Hrun2 as <- _.
  destruct (publish_result (UpdateMode (obj_TxPIDSettings bus)) l bus b0 Hb)
    as (bus3 & t3 & Hp3 & Hlb & _).
  rewrite Hp in Hp3. injection Hp3 as <- <-.
  destruct (slots_unflagged hdr _ _ _ _ _ _ Hs) as [Ub _].
  exists (bank l). split.
  { rewrite Hlb. destruct (Z.eqb_spec (needsUpdateBank l) 0) as [E|E]; [|reflexivity].
    destruct (Ub E) as [_ ->]. reflexivity. }
  (* the loop: the slots before [i], slot [i], the slots after it *)
  set (N := TXPIDSETTINGS_PIDS_NUMELEM hdr) in *.
  assert (Hseq : seq 0 N = seq 0 i ++ i :: seq (S i) (N - S i)).
  { replace N with (i + S (N - S i))%nat at 1 by lia.
    rewrite seq_app. cbn [seq Nat.add]. reflexivity. }
  rewrite Hseq in Hs.
  destruct (slots_app _ _ _ _ _ _ _ Hs) as (l1 & t1 & t4 & _ & Hs2).
  destruct (slots_cons _ _ _ _ _ _ _ _ Hs2) as (l2 & t5 & t6 & Hslot & Hrest & _).
  destruct (slot_run hdr (obj_TxPIDSettings bus) i l1 bus) as (t7 & _ & E).
  rewrite Hv, Hpid, Hslot in E. cbn [targets] in E. injection E as -> _.
  destruct (coupled_rate_kp_slot v l1) as (Hroll & Hpitch & _).
  assert (Hfree : forall f,
             f = RateField Roll RKp \/ f = RateField Pitch RKp ->
             read_field f l =
             read_field f (update_fields [RateField Roll RKp; RateField Pitch RKp] v l1)).
  { intros f Hf. apply (slots_preserve_field hdr _ _ f _ _ _ _ Hrest).
    intros j Hj. apply in_seq in Hj.
    destruct (Hlater j ltac:(lia)) as [H1 H2].
    destruct Hf as [-> | ->]; assumption. }
  pose proof (Hfree _ (or_introl eq_refl)) as Fr.
  pose proof (Hfree _ (or_intror eq_refl)) as Fp.
  change (read_field (RateField Roll RKp) ?x) with (Rate_Kp (RollRatePID (bank x))) in Fr.
  change (read_field (RateField Pitch RKp) ?x) with (Rate_Kp (PitchRatePID (bank x))) in Fp.
  rewrite Fr, Fp, Hroll, Hpitch. split; apply update_settles.
Qed.

End Coupled.

End CoupledFacts.

(* ================================================================== *)
(** * Bank selection *)
(* ================================================================== *)

Module SelectorFacts.

Import TxPID TxPIDPrim TxPIDSpec Examples LoopFacts TableFacts SlotFacts TickFacts.

(** Selectors 0 and 1 read banks 1 and 2; a selector other than 0, 1 and 2
    reads nothing and ends the tick. *)
Lemma read_bank_selectors (bus : Bus) :
  read_bank 0 bus =
    (Done (Some (obj_StabilizationSettingsBank1 bus)), bus, [StabilizationSettingsBank1Get]) /\
  read_bank 1 bus =
    (Done (Some (obj_StabilizationSettingsBank2 bus)), bus, [StabilizationSettingsBank2Get]) /\
  (forall mode, mode <> 0 -> mode <> 1 -> mode <> 2 ->
                read_bank mode bus = (Done None, bus, [])).
Proof.
  repeat split.
  intros mode H0 H1 H2.
  destruct mode as [|[[p|p|]|[p|p|]|]|p]; try reflexivity; congruence.
Qed.

(** Selectors 0 and 1 write back to the bank they were read from. *)
Lemma write_bank_selectors (b : StabilizationBankData) (bus : Bus) :
  write_bank 0 b bus = (Done tt, with_Bank1 b bus, [StabilizationSettingsBank1Set b]) /\
  write_bank 1 b bus = (Done tt, with_Bank2 b bus, [StabilizationSettingsBank2Set b]) /\
  (forall mode, mode <> 0 -> mode <> 1 -> mode <> 2 ->
                write_bank mode b bus = (Done tt, bus, [])).
Proof.
  repeat split.
  intros mode H0 H1 H2.
  destruct mode as [|[[p|p|]|[p|p|]|]|p]; try reflexivity; congruence.
Qed.

Section Bank3.

Variable hdr : Headers.

(** The loop reads inputs only. *)
Lemma slot_reads_inputs inst i l bus :
  forallb is_input_read (snd (slot hdr inst i l bus)) = true.
Proof.
  destruct (slot_run hdr inst i l bus) as (t & _ & E).
  unfold slot in *. destruct (is_disabled _); [reflexivity|].
  destruct (_ =? _).
  - unfold bind, do_ManualControlCommandThrottleGet, get.
    rewrite dispatch_table. destruct (targets _); reflexivity.
  - unfold bind, do_AccessoryDesiredInstGet, get.
    destruct (obj_AccessoryDesired bus _); [|reflexivity].
    rewrite dispatch_table. destruct (targets _); reflexivity.
Qed.

Lemma slots_read_inputs inst idx : forall l bus,
  forallb is_input_read (snd (slots hdr inst idx l bus)) = true.
Proof.
  induction idx as [|i idx IH]; intros l bus; [reflexivity|].
  cbn [slots]. unfold bind.
  pose proof (slot_reads_inputs inst i l bus) as Hi.
  destruct (slot_reads_only hdr inst i l bus) as (r & t & E & _).
  rewrite E in *. cbn [snd] in Hi. destruct r as [l'|]; [|exact Hi].
  specialize (IH l' bus).
  destruct (slots hdr inst idx l' bus) as [[r2 b2] t2]. cbn [snd] in *.
  rewrite forallb_app, Hi, IH. reflexivity.
Qed.

Lemma input_reads_no_bank3 t :
  forallb is_input_read t = true -> existsb is_bank3_op t = false.
Proof.
  induction t as [|op t IH]; [reflexivity|].
  cbn [forallb existsb]. intros H. apply andb_prop in H as [H1 H2].
  rewrite (IH H2). destruct op; try discriminate; reflexivity.
Qed.

(** No tick makes a call on bank 3, and no tick changes bank 3. *)
Lemma bank3_untouched (ev : UAVObjEvent) (bus : Bus) :
  existsb is_bank3_op (trace_of hdr ev bus) = false /\
  obj_StabilizationSettingsBank3 (bus_after hdr ev bus) =
    obj_StabilizationSettingsBank3 bus.
Proof.
  unfold trace_of, bus_after.
  destruct (updatePIDs hdr ev bus) as [[r b] t] eqn:E. cbn [fst snd].
  unfold updatePIDs in E.
  destruct (obj ev =? AccessoryDesiredHandle hdr); cbn [negb] in E;
    [|injection E as _ <- <-; auto].
  unfold bind at 1, do_TxPIDSettingsGet, get in E.
  destruct (UpdateMode (obj_TxPIDSettings bus) =? TXPIDSETTINGS_UPDATEMODE_NEVER hdr);
    [injection E as _ <- <-; auto|].
  unfold bind at 1, do_FlightStatusArmedGet, get in E.
  destruct ((UpdateMode (obj_TxPIDSettings bus) =? TXPIDSETTINGS_UPDATEMODE_WHENARMED hdr)
            && (obj_FlightStatusArmed bus =? FLIGHTSTATUS_ARMED_DISARMED hdr));
    [injection E as _ <- <-; auto|].
  unfold bind at 1 in E.
  set (mode := UpdateMode (obj_TxPIDSettings bus)) in *.
  assert (Hrb : exists o t0, read_bank mode bus = (Done o, bus, t0) /\
                             existsb is_bank3_op t0 = false).
  { destruct mode as [|[[p|p|]|[p|p|]|]|p]; cbn; eexists _, _; split; reflexivity. }
  destruct Hrb as (o & t0 & Hrb & Ht0). rewrite Hrb in E.
  destruct o as [b0|].
  2:{ injection E as _ <- <-.
      repeat (rewrite existsb_app || cbn [app existsb is_bank3_op orb]).
      rewrite Ht0. auto. }
  unfold bind at 1, do_StabilizationSettingsGet, get in E.
  unfold bind at 1 in E.
  match type of E with
  | context [slots hdr ?inst ?idx ?l bus] =>
      pose proof (slots_read_inputs inst idx l bus) as Hin;
      destruct (slots_read_only hdr inst idx l bus) as (r1 & t1 & E1 & _);
      rewrite E1 in E, Hin
  end.
  cbn [snd] in Hin. apply input_reads_no_bank3 in Hin.
  destruct r1 as [l|].
  - destruct (publish_shape mode l bus) as (bus' & t' & Hp & _).
    assert (Hp3 : existsb is_bank3_op t' = false /\
                  obj_StabilizationSettingsBank3 bus' = obj_StabilizationSettingsBank3 bus).
    { unfold publish in Hp.
      destruct (needsUpdateStab l =? 0), (needsUpdateBank l =? 0);
        destruct mode as [|[[p|p|]|[p|p|]|]|p]; cbn in Hp;
        injection Hp as <- <-; auto. }
    unfold publish in Hp. rewrite Hp in E. injection E as _ <- <-.
    destruct Hp3 as [Hp3 Hb3]. split; [|exact Hb3].
    repeat (rewrite existsb_app || cbn [app existsb is_bank3_op orb]).
    rewrite Ht0, Hin, Hp3. reflexivity.
  - injection E as _ <- <-. split; [|reflexivity].
    repeat (rewrite existsb_app || cbn [app existsb is_bank3_op orb]).
    rewrite Ht0, Hin. reflexivity.
Qed.

End Bank3.

(** C1, at selector 2: the tick reads bank 2 and writes bank 2 back, and no
    tick ever reads or writes bank 3.  On the store [bus_mode2], whose three
    banks differ, the tick changes bank 2 and leaves bank 3 alone. *)
Theorem selector_two_uses_bank2 :
  (forall bus,
      read_bank 2 bus =
      (Done (Some (obj_StabilizationSettingsBank2 bus)), bus,
       [StabilizationSettingsBank2Get])) /\
  (forall b bus,
      write_bank 2 b bus =
      (Done tt, with_Bank2 b bus, [StabilizationSettingsBank2Set b])) /\
  (forall hdr ev bus,
      existsb is_bank3_op (trace_of hdr ev bus) = false /\
      obj_StabilizationSettingsBank3 (bus_after hdr ev bus) =
        obj_StabilizationSettingsBank3 bus) /\
  UpdateMode (obj_TxPIDSettings bus_mode2) = 2 /\
  trace_of hdr0 ev0 bus_mode2 =
    [TxPIDSettingsGet; FlightStatusArmedGet; StabilizationSettingsBank2Get;
     StabilizationSettingsGet; ManualControlCommandThrottleGet;
     StabilizationSettingsBank2Set
       (obj_StabilizationSettingsBank2 (bus_after hdr0 ev0 bus_mode2))] /\
  Rate_Kp (RollRatePID (obj_StabilizationSettingsBank2 bus_mode2)) = of_Z 2 /\
  Rate_Kp (RollRatePID (obj_StabilizationSettingsBank2 (bus_after hdr0 ev0 bus_mode2))) =
    dec 55 10000 /\
  Rate_Kp (RollRatePID (obj_StabilizationSettingsBank3 (bus_after hdr0 ev0 bus_mode2))) =
    of_Z 3.
Proof.
  split; [reflexivity|]. split; [reflexivity|].
  split; [exact bank3_untouched|].
  repeat split; vm_compute; reflexivity.
Qed.

End SelectorFacts.

(* ================================================================== *)
(** * Instances on concrete configurations *)
(* ================================================================== *)

Module Instances.

Import TxPID TxPIDPrim TxPIDSpec Examples.
Import ComparatorFacts LoopFacts SteadyFacts CoupledFacts ScaleFacts.

(** A coefficient at 0 receives the value [0.0055f]: the subtraction is
    exact and the magnitude of the difference exceeds the literal. *)
Lemma update_spec_witness :
  exact Qminus f_zero (dec 55 10000) (fsub f_zero (dec 55 10000)) = true /\
  update f_zero (dec 55 10000) = (dec 55 10000, 1) /\
  (to_Q f_1e_9 < Qabs (to_Q f_zero - to_Q (dec 55 10000)))%Q.
Proof.
  assert (E : exact Qminus f_zero (dec 55 10000) (fsub f_zero (dec 55 10000)) = true)
    by (vm_compute; reflexivity).
  assert (G : fgt (fabsf (fsub f_zero (dec 55 10000))) f_1e_9 = true)
    by (vm_compute; reflexivity).
  destruct (update_spec f_zero (dec 55 10000)) as (H1 & H2 & _ & _ & H5).
  split; [exact E|]. split; [exact (H2 G)|].
  apply (proj1 (H5 E)). apply (proj2 H1). exact G.
Defined.

(** The armed gate, on a disarmed vehicle in mode When Armed. *)
Lemma armed_gating_witness :
  UpdateMode (obj_TxPIDSettings bus_disarmed) = TXPIDSETTINGS_UPDATEMODE_WHENARMED hdr0 /\
  obj_FlightStatusArmed bus_disarmed = FLIGHTSTATUS_ARMED_DISARMED hdr0 /\
  writes_of hdr0 ev0 bus_disarmed = [] /\
  bus_after hdr0 ev0 bus_disarmed = bus_disarmed.
Proof.
  split; [reflexivity|]. split; [reflexivity|].
  destruct (armed_gating hdr0 ev0 bus_disarmed) as (H1 & H2 & _);
    [reflexivity|reflexivity|].
  exact (conj H1 H2).
Defined.

(** The second slot of [one_slot] is disabled. *)
Lemma disabled_slot_witness :
  nth 1%nat (PIDs (one_slot 2)) TXPIDSETTINGS_PIDS_DISABLED = TXPIDSETTINGS_PIDS_DISABLED /\
  (forall l bus, slot hdr0 (one_slot 2) 1 l bus = (Done l, bus, [])) /\
  (forall l bus,
      slots hdr0 (one_slot 2) [0; 1; 2]%nat l bus =
      slots hdr0 (one_slot 2) [0; 2]%nat l bus).
Proof.
  split; [reflexivity|].
  destruct (disabled_slot_skipped hdr0 (one_slot 2) 1%nat) as [H1 H2]; [reflexivity|].
  split; [exact H1|].
  intros l bus. exact (H2 [0; 1; 2]%nat l bus).
Defined.

(** The store left by one tick on [bus_mode2] is steady, and the tick that
    follows writes nothing; the slots of [bus_mode2] share no destination,
    so that the second part applies to the tick on [bus_mode2] itself. *)
Lemma steady_state_witness :
  match loaded_bank (UpdateMode (obj_TxPIDSettings (bus_after hdr0 ev0 bus_mode2)))
                    (bus_after hdr0 ev0 bus_mode2) with
  | Some b0 =>
      steady hdr0 (obj_TxPIDSettings (bus_after hdr0 ev0 bus_mode2))
             (bus_after hdr0 ev0 bus_mode2)
             (seq 0 (TXPIDSETTINGS_PIDS_NUMELEM hdr0))
             (locals0 b0 (bus_after hdr0 ev0 bus_mode2)) = true
  | None => True
  end /\
  updatePIDs hdr0 ev0 bus_mode2 =
    (Done tt, bus_after hdr0 ev0 bus_mode2, trace_of hdr0 ev0 bus_mode2) /\
  conflict_free (obj_TxPIDSettings bus_mode2) (seq 0 (TXPIDSETTINGS_PIDS_NUMELEM hdr0)) = true /\
  writes_of hdr0 ev0 bus_mode2 <> [] /\
  writes_of hdr0 ev0 (bus_after hdr0 ev0 bus_mode2) = [].
Proof.
  assert (S : match loaded_bank (UpdateMode (obj_TxPIDSettings (bus_after hdr0 ev0 bus_mode2)))
                                (bus_after hdr0 ev0 bus_mode2) with
              | Some b0 =>
                  steady hdr0 (obj_TxPIDSettings (bus_after hdr0 ev0 bus_mode2))
                         (bus_after hdr0 ev0 bus_mode2)
                         (seq 0 (TXPIDSETTINGS_PIDS_NUMELEM hdr0))
                         (locals0 b0 (bus_after hdr0 ev0 bus_mode2)) = true
              | None => True
              end) by (vm_compute; reflexivity).
  assert (R : updatePIDs hdr0 ev0 bus_mode2 =
              (Done tt, bus_after hdr0 ev0 bus_mode2, trace_of hdr0 ev0 bus_mode2))
    by (vm_compute; reflexivity).
  assert (C : conflict_free (obj_TxPIDSettings bus_mode2)
                            (seq 0 (TXPIDSETTINGS_PIDS_NUMELEM hdr0)) = true)
    by (vm_compute; reflexivity).
  assert (W : writes_of hdr0 ev0 bus_mode2 <> []) by (vm_compute; discriminate).
  pose proof (proj1 (steady_state_idempotence hdr0 ev0 (bus_after hdr0 ev0 bus_mode2)) S)
    as [Q1 _].
  pose proof (proj2 (steady_state_idempotence hdr0 ev0 bus_mode2) _ _ R C) as [Q2 _].
  split; [exact S|]. split; [exact R|]. split; [exact C|]. split; [exact W|]. exact Q2.
Defined.

(** C7, the tick after a tick: with two slots on the same coefficient and
    different ranges, the tick that follows a tick on unchanged inputs
    writes the bank again. *)
Lemma second_tick_writes_again :
  obj_Throttle (bus_after hdr0 ev0 bus_conflict) = obj_Throttle bus_conflict /\
  obj_TxPIDSettings (bus_after hdr0 ev0 bus_conflict) = obj_TxPIDSettings bus_conflict /\
  writes_of hdr0 ev0 (bus_after hdr0 ev0 bus_conflict) <> [] /\
  length (writes_of hdr0 ev0 (bus_after hdr0 ev0 bus_conflict)) = 1%nat.
Proof.
  repeat split; try (vm_compute; reflexivity).
  vm_compute. discriminate.
Qed.

(** The coupled slot of [bus_coupled], whose scaled value is [0.0055f]. *)
Lemma coupled_rate_kp_witness :
  updatePIDs hdr0 ev0 bus_coupled =
    (Done tt, bus_after hdr0 ev0 bus_coupled, trace_of hdr0 ev0 bus_coupled) /\
  passes_gates hdr0 ev0 bus_coupled = true /\
  loaded_bank 2 bus_coupled = Some bank_coupled /\
  pid_at (obj_TxPIDSettings bus_coupled) 0 = TXPIDSETTINGS_PIDS_ROLLPITCHRATEKP /\
  slot_value hdr0 (obj_TxPIDSettings bus_coupled) bus_coupled 0 = Some (dec 55 10000) /\
  exists b',
    loaded_bank 2 (bus_after hdr0 ev0 bus_coupled) = Some b' /\
    differs (Rate_Kp (RollRatePID b')) (dec 55 10000) = false /\
    differs (Rate_Kp (PitchRatePID b')) (dec 55 10000) = false.
Proof.
  split; [vm_compute; reflexivity|]. split; [vm_compute; reflexivity|].
  split; [vm_compute; reflexivity|]. split; [vm_compute; reflexivity|].
  split; [vm_compute; reflexivity|].
  apply (coupled_rate_kp_dead_band hdr0 ev0 bus_coupled
           (bus_after hdr0 ev0 bus_coupled) (trace_of hdr0 ev0 bus_coupled)
           bank_coupled 0%nat (dec 55 10000)).
  - vm_compute; reflexivity.
  - vm_compute; reflexivity.
  - vm_compute; reflexivity.
  - vm_compute; lia.
  - vm_compute; reflexivity.
  - vm_compute; reflexivity.
  - intros j Hj. cbn in Hj.
    assert (j = 1 \/ j = 2)%nat as [-> | ->] by lia; split; reflexivity.
Defined.

(** C2, as stated: after the tick on [bus_coupled] the roll-rate Kp and
    the pitch-rate Kp of the bank differ, bit for bit and as numbers.  The
    roll-rate Kp was within [1e-9f] of the value and was left alone; the
    pitch-rate Kp received the value. *)
Lemma coupled_rate_kp_not_equal :
  pid_at (obj_TxPIDSettings bus_coupled) 0 = TXPIDSETTINGS_PIDS_ROLLPITCHRATEKP /\
  slot_value hdr0 (obj_TxPIDSettings bus_coupled) bus_coupled 0 = Some (dec 55 10000) /\
  Rate_Kp (RollRatePID (obj_StabilizationSettingsBank2 (bus_after hdr0 ev0 bus_coupled)))
    = S754_finite false 11811161 (-31) /\
  Rate_Kp (PitchRatePID (obj_StabilizationSettingsBank2 (bus_after hdr0 ev0 bus_coupled)))
    = S754_finite false 11811160 (-31) /\
  Rate_Kp (RollRatePID (obj_StabilizationSettingsBank2 (bus_after hdr0 ev0 bus_coupled)))
    <> Rate_Kp (PitchRatePID (obj_StabilizationSettingsBank2 (bus_after hdr0 ev0 bus_coupled))) /\
  feq (Rate_Kp (RollRatePID (obj_StabilizationSettingsBank2 (bus_after hdr0 ev0 bus_coupled))))
      (Rate_Kp (PitchRatePID (obj_StabilizationSettingsBank2 (bus_after hdr0 ev0 bus_coupled))))
    = false.
Proof.
  repeat split; try (vm_compute; reflexivity).
  vm_compute. discriminate.
Qed.

(** C3, as stated: at the upper end of the input range, with the output
    range [0.003f, 0.015f], the result [0.015000001f] exceeds [outMax] by
    one unit in the last place. *)
Lemma scale_overshoots :
  regular f_one = true /\ regular f_zero = true /\
  regular (dec 3 1000) = true /\ regular (dec 15 1000) = true /\
  dec 15 1000 = S754_finite false 16106127 (-30) /\
  scale f_one f_zero f_one (dec 3 1000) (dec 15 1000) = S754_finite false 16106128 (-30) /\
  fle (scale f_one f_zero f_one (dec 3 1000) (dec 15 1000)) (dec 15 1000) = false /\
  between (dec 3 1000) (dec 15 1000)
          (scale f_one f_zero f_one (dec 3 1000) (dec 15 1000)) = false.
Proof.
  repeat split; vm_compute; reflexivity.
Qed.

(** With the output range [-FLT_MAX, FLT_MAX] the difference overflows and
    the result is a NaN at the lower end of the input range. *)
Lemma scale_overflows :
  scale f_zero f_zero f_one (SFopp (SFmax_float prec emax)) (SFmax_float prec emax)
  = S754_nan.
Proof. vm_compute. reflexivity. Qed.

(** The input 0.25 of the range [0, 1] mapped onto the reversed range
    [4, 2]: every step is exact and the result is 3.5. *)
Lemma scale_between_witness :
  regular (dec 1 4) = true /\ regular f_zero = true /\ regular f_one = true /\
  regular (of_Z 4) = true /\ regular (of_Z 2) = true /\
  scale_exact (dec 1 4) f_zero f_one (of_Z 4) (of_Z 2) = true /\
  between (of_Z 4) (of_Z 2) (scale (dec 1 4) f_zero f_one (of_Z 4) (of_Z 2)) = true.
Proof.
  assert (R1 : regular (dec 1 4) = true) by (vm_compute; reflexivity).
  assert (R2 : regular f_zero = true) by (vm_compute; reflexivity).
  assert (R3 : regular f_one = true) by (vm_compute; reflexivity).
  assert (R4 : regular (of_Z 4) = true) by (vm_compute; reflexivity).
  assert (R5 : regular (of_Z 2) = true) by (vm_compute; reflexivity).
  assert (E : scale_exact (dec 1 4) f_zero f_one (of_Z 4) (of_Z 2) = true)
    by (vm_compute; reflexivity).
  exact (conj R1 (conj R2 (conj R3 (conj R4 (conj R5 (conj E
          (scale_between_when_exact _ _ _ _ _ R1 R2 R3 R4 R5 E))))))).
Defined.



End Instances.

(* ================================================================== *)
(** * Rounding to binary32 *)
(* ================================================================== *)

Module RoundFacts.

Import FloatFacts.

Local Open Scope Z_scope.

(** ** Iterated halving *)

Lemma iter_pos_nat {A} (f : A -> A) (n : positive) : forall x,
  iter_pos f n x = Nat.iter (Pos.to_nat n) f x.
Proof.
  induction n as [n IH|n IH|]; intros x; cbn [iter_pos].
  - rewrite !IH, Pos2Nat.inj_xI, <- Nat.iter_add, <- Nat.iter_succ_r.
    f_equal. lia.
  - rewrite !IH, Pos2Nat.inj_xO, <- Nat.iter_add. f_equal. lia.
  - reflexivity.
Qed.

Lemma shr_1_m (r : shr_record) :
  0 <= shr_m r -> shr_m (shr_1 r) = shr_m r / 2.
Proof.
  destruct r as [m r s]. cbn [shr_m]. intros H.
  destruct m as [|[p|p|]|p]; cbn [shr_1 shr_m]; try lia; try reflexivity.
  - rewrite (Pos2Z.inj_xI p). apply Z.div_unique with 1; lia.
  - rewrite (Pos2Z.inj_xO p). apply Z.div_unique with 0; lia.
Qed.

Lemma shr_m_iter (k : nat) (r : shr_record) :
  0 <= shr_m r -> shr_m (Nat.iter k shr_1 r) = shr_m r / 2 ^ Z.of_nat k.
Proof.
  intros H. induction k as [|k IH].
  - cbn. now rewrite Z.div_1_r.
  - rewrite Nat.iter_succ. rewrite shr_1_m.
    + rewrite IH, Nat2Z.inj_succ, Z.pow_succ_r by lia.
      rewrite Z.div_div by lia. f_equal. lia.
    + rewrite IH. apply Z.div_pos; lia.
Qed.

Lemma shr_exact (k : nat) : forall (m p : positive),
  Zpos m = Zpos p * 2 ^ Z.of_nat k ->
  Nat.iter k shr_1 {| shr_m := Zpos m; shr_r := false; shr_s := false |} =
  {| shr_m := Zpos p; shr_r := false; shr_s := false |}.
Proof.
  induction k as [|k IH]; intros m p H.
  - cbn in H. assert (m = p) as -> by lia. reflexivity.
  - rewrite Nat2Z.inj_succ, Z.pow_succ_r in H by lia.
    rewrite Nat.iter_succ_r.
    destruct m as [m|m|]; [lia| |lia].
    cbn [shr_1 orb]. apply IH. lia.
Qed.

(** The shift of [shr], on the mantissa and on the exponent. *)
Lemma shr_spec (r : shr_record) (e k : Z) :
  0 <= shr_m r ->
  shr_m (fst (shr r e k)) = shr_m r / 2 ^ Z.max k 0 /\
  snd (shr r e k) = e + Z.max k 0.
Proof.
  intros H. destruct k as [|q|q]; cbn [shr fst snd].
  - cbn. rewrite Z.div_1_r. lia.
  - rewrite iter_pos_nat, shr_m_iter by exact H.
    rewrite positive_nat_Z. split; [f_equal; f_equal|]; lia.
  - cbn. rewrite Z.div_1_r. lia.
Qed.

Lemma shr_trailing (m p : positive) (e k : Z) :
  0 <= k -> Zpos m = Zpos p * 2 ^ k ->
  shr {| shr_m := Zpos m; shr_r := false; shr_s := false |} e k =
  ({| shr_m := Zpos p; shr_r := false; shr_s := false |}, e + k).
Proof.
  intros Hk H. destruct k as [|q|q]; [| |lia]; cbn [shr].
  - assert (m = p) as -> by (cbn in H; lia). now rewrite Z.add_0_r.
  - rewrite iter_pos_nat. f_equal. apply shr_exact. now rewrite positive_nat_Z.
Qed.

(** ** Digits *)

Lemma digits2_pos_unique (m : positive) (d : Z) :
  2 ^ (d - 1) <= Zpos m < 2 ^ d -> Zpos (digits2_pos m) = d.
Proof.
  intros [L U]. pose proof (digits2_pos_bounds m) as [L' U'].
  assert (0 < d).
  { destruct (Z.ltb_spec 0 d) as [?|?]; [assumption|].
    assert (2 ^ d <= 2 ^ 0) by (destruct d; cbn; try lia; now rewrite Z.pow_neg_r in U by lia).
    cbn in *. lia. }
  destruct (Z.lt_trichotomy (Zpos (digits2_pos m)) d) as [Hlt|[E|Hgt]]; [|exact E|].
  - assert (2 ^ Zpos (digits2_pos m) <= 2 ^ (d - 1)) by (apply Z.pow_le_mono_r; lia). lia.
  - assert (2 ^ d <= 2 ^ (Zpos (digits2_pos m) - 1)) by (apply Z.pow_le_mono_r; lia). lia.
Qed.

Lemma digits2_pos_shift (m p : positive) (k : Z) :
  0 <= k -> Zpos m = Zpos p * 2 ^ k ->
  Zpos (digits2_pos m) = Zpos (digits2_pos p) + k.
Proof.
  intros Hk H. apply digits2_pos_unique.
  pose proof (digits2_pos_bounds p) as [L U].
  replace (Zpos (digits2_pos p) + k - 1) with (Zpos (digits2_pos p) - 1 + k) by lia.
  rewrite !Z.pow_add_r by lia. rewrite H.
  assert (0 < 2 ^ k) by (apply Z.pow_pos_nonneg; lia).
  split; [apply Z.mul_le_mono_nonneg_r|apply Z.mul_lt_mono_pos_r]; lia.
Qed.

Lemma iter_xO_Z (m : positive) (k : positive) :
  Zpos (Pos.iter xO m k) = Zpos m * 2 ^ Zpos k.
Proof.
  induction k as [|k IH] using Pos.peano_ind.
  - cbn. lia.
  - rewrite Pos.iter_succ, Pos2Z.inj_xO, IH, Pos2Z.inj_succ, Z.pow_succ_r by lia. lia.
Qed.

(** The mantissa that [shl_align] returns. *)
Lemma shl_align_value (m : positive) (e e' : Z) :
  e' <= e ->
  Zpos (fst (shl_align m e e')) = Zpos m * 2 ^ (e - e') /\
  snd (shl_align m e e') = e'.
Proof.
  intros H. unfold shl_align.
  destruct (e' - e) as [|q|q] eqn:E; cbn [fst snd].
  - replace (e - e') with 0 by lia. cbn. lia.
  - lia.
  - rewrite iter_xO_Z. replace (e - e') with (Zpos q) by lia. auto.
Qed.

(** ** Rounding a number that needs no rounding *)

Lemma binary_round_aux_trailing s (m p : positive) (e k : Z) :
  0 <= k -> Zpos m = Zpos p * 2 ^ k ->
  fexp prec emax (Zpos (digits2_pos m) + e) - e = k ->
  bounded prec emax p (e + k) = true ->
  binary_round_aux prec emax s (Zpos m) e loc_Exact = S754_finite s p (e + k).
Proof.
  intros Hk Hm Hf Hb.
  unfold bounded, canonical_mantissa in Hb. apply andb_prop in Hb as [Hc Hle].
  apply Z.eqb_eq in Hc.
  unfold binary_round_aux, shr_fexp. cbn [Zdigits2 shr_record_of_loc].
  rewrite Hf, (shr_trailing m p e k Hk Hm).
  cbn [shr_m loc_of_shr_record round_nearest_even Zdigits2 shr_record_of_loc].
  rewrite Hc, Z.sub_diag. cbn [shr shr_m]. rewrite Hle. reflexivity.
Qed.

Lemma small_digits (n : positive) :
  Zpos n < 2 ^ 24 -> 1 <= Zpos (digits2_pos n) <= 24.
Proof.
  intros H. pose proof (digits2_pos_bounds n) as [L _].
  split; [lia|].
  destruct (Z.leb_spec (Zpos (digits2_pos n)) 24) as [?|Hgt]; [assumption|].
  assert (2 ^ 24 <= 2 ^ (Zpos (digits2_pos n) - 1)) by (apply Z.pow_le_mono_r; lia).
  lia.
Qed.

(** The mantissa of [small_int]. *)
Lemma small_int_mantissa (n : positive) :
  Zpos n < 2 ^ 24 ->
  let p := Z.to_pos (Zpos n * 2 ^ (24 - Zpos (digits2_pos n))) in
  Zpos p = Zpos n * 2 ^ (24 - Zpos (digits2_pos n)) /\
  Zpos (digits2_pos p) = 24 /\
  bounded prec emax p (Zpos (digits2_pos n) - 24) = true.
Proof.
  intros H. cbv zeta. pose proof (small_digits n H) as Hd.
  set (d := Zpos (digits2_pos n)) in *.
  assert (Hpow : 0 < 2 ^ (24 - d)) by (apply Z.pow_pos_nonneg; lia).
  assert (Hp : Zpos (Z.to_pos (Zpos n * 2 ^ (24 - d))) = Zpos n * 2 ^ (24 - d)).
  { apply Z2Pos.id. lia. }
  assert (Hdig : Zpos (digits2_pos (Z.to_pos (Zpos n * 2 ^ (24 - d)))) = 24).
  { rewrite (digits2_pos_shift _ n (24 - d)); [fold d; lia|lia|exact Hp]. }
  split; [exact Hp|]. split; [exact Hdig|].
  unfold bounded, canonical_mantissa. rewrite Hdig.
  unfold fexp, emin, prec, emax.
  apply andb_true_intro. split; [apply Z.eqb_eq|apply Z.leb_le]; lia.
Qed.

(** A multiple of a power of two whose quotient is an integer below
    [2^24] rounds to that integer. *)
Lemma binary_round_int s (m : positive) (e : Z) (n : positive) :
  e <= 0 -> Zpos m = Zpos n * 2 ^ (- e) -> Zpos n < 2 ^ 24 ->
  binary_round prec emax s m e = Binary32Repr.small_int s n.
Proof.
  intros He Hm Hn. pose proof (small_digits n Hn) as Hd.
  destruct (small_int_mantissa n Hn) as (Hp & Hdig & Hb).
  unfold Binary32Repr.small_int.
  set (p := Z.to_pos (Zpos n * 2 ^ (24 - Zpos (digits2_pos n)))) in *.
  set (d := Zpos (digits2_pos n)) in *.
  assert (Hdm : Zpos (digits2_pos m) = d - e).
  { rewrite (digits2_pos_shift m n (- e)); [fold d; lia|lia|exact Hm]. }
  assert (Hf : fexp prec emax (Zpos (digits2_pos m) + e) = d - 24).
  { rewrite Hdm. unfold fexp, emin, prec, emax. lia. }
  unfold binary_round. rewrite Hf.
  destruct (Z.leb_spec (d - 24) e) as [Hle|Hgt].
  - destruct (shl_align_value m e (d - 24) Hle) as [Hv Hs].
    destruct (shl_align m e (d - 24)) as [mz ez]. cbn [fst snd] in Hv, Hs. subst ez.
    assert (mz = p) as ->.
    { apply Pos2Z.inj. rewrite Hv, Hp, Hm, <- Z.mul_assoc, <- Z.pow_add_r by lia.
      do 2 f_equal. lia. }
    replace (d - 24) with (d - 24 + 0) at 2 by lia.
    apply binary_round_aux_trailing; [lia|cbn; lia| |now rewrite Z.add_0_r].
    rewrite Hdig. unfold fexp, emin, prec, emax. lia.
  - assert (shl_align m e (d - 24) = (m, e)) as ->.
    { unfold shl_align. destruct (d - 24 - e) eqn:E; try reflexivity. lia. }
    replace (d - 24) with (e + (d - 24 - e)) by lia.
    apply binary_round_aux_trailing; [lia| | |].
    + rewrite Hp, Hm, <- Z.mul_assoc, <- Z.pow_add_r by lia. do 2 f_equal. lia.
    + rewrite Hf. reflexivity.
    + replace (e + (d - 24 - e)) with (d - 24) by lia. exact Hb.
Qed.

(** The conversion of a small integer to [float]. *)
Lemma of_Z_small (z : Z) :
  Z.abs z < 2 ^ 24 ->
  of_Z z = match z with
           | Z0 => S754_zero false
           | Zpos n => Binary32Repr.small_int false n
           | Zneg n => Binary32Repr.small_int true n
           end.
Proof.
  intros H. unfold of_Z, binary_normalize.
  destruct z as [|n|n]; [reflexivity| |];
    apply binary_round_int; cbn; lia.
Qed.

(** ... and back: the conversion to [int32_t] returns the integer. *)
Lemma to_int32_small_int s (n : positive) :
  Zpos n < 2 ^ 24 ->
  to_int32 (Binary32Repr.small_int s n) = Some (cond_Zopp s (Zpos n)).
Proof.
  intros Hn. pose proof (small_digits n Hn) as Hd.
  destruct (small_int_mantissa n Hn) as (Hp & _).
  unfold to_int32, trunc, Binary32Repr.small_int.
  set (p := Z.to_pos (Zpos n * 2 ^ (24 - Zpos (digits2_pos n)))) in *.
  set (d := Zpos (digits2_pos n)) in *.
  assert (Hv : match d - 24 with
               | 0 => Zpos p
               | Zpos _ => Z.shiftl (Zpos p) (d - 24)
               | Zneg q => Z.shiftr (Zpos p) (Zpos q)
               end = Zpos n).
  { destruct (d - 24) as [|q|q] eqn:E; [| lia |].
    - rewrite Hp. replace (24 - d) with 0 by lia. cbn. lia.
    - rewrite Z.shiftr_div_pow2 by lia. rewrite Hp.
      replace (24 - d) with (Zpos q) by lia.
      apply Z.div_mul. apply Z.pow_nonzero; lia. }
  rewrite Hv.
  change (2 ^ 24) with 16777216 in Hn.
  assert ((-2147483648 <=? cond_Zopp s (Zpos n)) &&
          (cond_Zopp s (Zpos n) <=? 2147483647) = true) as ->; [|reflexivity].
  apply andb_true_intro.
  split; apply Z.leb_le; destruct s; cbn [cond_Zopp]; lia.
Qed.

Lemma to_int32_of_Z (z : Z) :
  Z.abs z < 2 ^ 24 -> to_int32 (of_Z z) = Some z.
Proof.
  intros H. rewrite (of_Z_small z H).
  destruct z as [|n|n]; [reflexivity| |]; rewrite to_int32_small_int; auto; cbn in *; lia.
Qed.

(** ** Addition of small integers *)

Lemma cond_Zopp_mul (s : bool) (a b : Z) : cond_Zopp s a * b = cond_Zopp s (a * b).
Proof. destruct s; cbn [cond_Zopp]; ring. Qed.

Lemma small_int_aligned s (n : positive) (ez : Z) :
  Zpos n < 2 ^ 24 -> ez <= Zpos (digits2_pos n) - 24 ->
  let p := Z.to_pos (Zpos n * 2 ^ (24 - Zpos (digits2_pos n))) in
  cond_Zopp s (Zpos (fst (shl_align p (Zpos (digits2_pos n) - 24) ez))) =
  cond_Zopp s (Zpos n) * 2 ^ (- ez).
Proof.
  intros Hn He. cbv zeta. pose proof (small_digits n Hn) as Hd.
  destruct (small_int_mantissa n Hn) as (Hp & _).
  destruct (shl_align_value (Z.to_pos (Zpos n * 2 ^ (24 - Zpos (digits2_pos n))))
              (Zpos (digits2_pos n) - 24) ez He) as [Hv _].
  rewrite Hv, Hp, cond_Zopp_mul, <- Z.mul_assoc, <- Z.pow_add_r by lia.
  do 3 f_equal. lia.
Qed.

Lemma binary_normalize_int (z : Z) (e : Z) (v : Z) :
  e <= 0 -> z = v * 2 ^ (- e) -> Z.abs v < 2 ^ 24 ->
  binary_normalize prec emax z e false = of_Z v.
Proof.
  intros He Hz Hv.
  assert (Hpow : 0 < 2 ^ (- e)) by (apply Z.pow_pos_nonneg; lia).
  rewrite (of_Z_small v Hv). unfold binary_normalize.
  destruct v as [|n|n].
  - rewrite Hz. reflexivity.
  - destruct z as [|m|m]; try lia. apply binary_round_int; [exact He|exact Hz|exact Hv].
  - destruct z as [|m|m]; try lia. apply binary_round_int; [exact He| |exact Hv].
    change (Zneg m) with (- Zpos m) in Hz. change (Zneg n) with (- Zpos n) in Hz. lia.
Qed.

Lemma fadd_small_int sa sb (a b : positive) :
  Zpos a < 2 ^ 24 -> Zpos b < 2 ^ 24 ->
  Z.abs (cond_Zopp sa (Zpos a) + cond_Zopp sb (Zpos b)) < 2 ^ 24 ->
  fadd (Binary32Repr.small_int sa a) (Binary32Repr.small_int sb b) =
  of_Z (cond_Zopp sa (Zpos a) + cond_Zopp sb (Zpos b)).
Proof.
  intros Ha Hb Hab.
  pose proof (small_digits a Ha) as Hda. pose proof (small_digits b Hb) as Hdb.
  unfold fadd, Binary32Repr.small_int, SFadd.
  set (ez := Z.min (Zpos (digits2_pos a) - 24) (Zpos (digits2_pos b) - 24)).
  rewrite (small_int_aligned sa a ez Ha) by lia.
  rewrite (small_int_aligned sb b ez Hb) by lia.
  apply binary_normalize_int; [lia|ring|exact Hab].
Qed.

(** On integers below [2^24] in absolute value whose sum is below [2^24]
    too, the binary32 addition is the addition of integers. *)
Lemma fadd_of_Z (a b : Z) :
  Z.abs a < 2 ^ 24 -> Z.abs b < 2 ^ 24 -> Z.abs (a + b) < 2 ^ 24 ->
  fadd (of_Z a) (of_Z b) = of_Z (a + b).
Proof.
  intros Ha Hb Hab.
  rewrite (of_Z_small a Ha), (of_Z_small b Hb).
  destruct a as [|a|a], b as [|b|b]; try reflexivity;
    try (rewrite ?Z.add_0_r, ?Z.add_0_l; rewrite of_Z_small by assumption; reflexivity).
  - apply (fadd_small_int false false); assumption.
  - apply (fadd_small_int false true); assumption.
  - apply (fadd_small_int true false); assumption.
  - apply (fadd_small_int true true); assumption.
Qed.

(** ** The sign of a rounded number *)

Import Binary32Repr.

Lemma round_nearest_even_pos (m : Z) (l : location) :
  0 < m -> 0 < round_nearest_even m l.
Proof.
  intros H. destruct l as [|[]]; cbn [round_nearest_even]; try lia.
  destruct (Z.even m); lia.
Qed.

Lemma shr_fexp_pos (m e : Z) (l : location) :
  0 < m -> -149 <= e ->
  0 < shr_m (fst (shr_fexp prec emax m e l)) /\
  -149 <= snd (shr_fexp prec emax m e l).
Proof.
  intros Hm He. unfold shr_fexp.
  destruct m as [|p|p]; try lia. cbn [Zdigits2].
  set (k := fexp prec emax (Zpos (digits2_pos p) + e) - e).
  assert (Hrec : shr_m (shr_record_of_loc (Zpos p) l) = Zpos p)
    by (destruct l as [|[]]; reflexivity).
  destruct (shr_spec (shr_record_of_loc (Zpos p) l) e k) as [H1 H2];
    [rewrite Hrec; lia|].
  rewrite H1, H2, Hrec. split; [|lia].
  pose proof (digits2_pos_bounds p) as [L U].
  assert (Z.max k 0 <= Zpos (digits2_pos p) - 1).
  { subst k. unfold fexp, emin, prec, emax. lia. }
  apply Z.div_str_pos. split; [apply Z.pow_pos_nonneg; lia|].
  transitivity (2 ^ (Zpos (digits2_pos p) - 1)); [apply Z.pow_le_mono_r; lia|exact L].
Qed.

(** Rounding a non-zero number whose exponent is not below the smallest
    one gives neither a zero nor a NaN, and keeps the sign. *)
Lemma binary_round_aux_sign s (m e : Z) (l : location) :
  0 < m -> -149 <= e ->
  has_sign s (binary_round_aux prec emax s m e l) = true.
Proof.
  intros Hm He. unfold binary_round_aux.
  pose proof (shr_fexp_pos m e l Hm He) as [H1 H2].
  destruct (shr_fexp prec emax m e l) as [mrs' e']. cbn [fst snd] in H1, H2.
  pose proof (shr_fexp_pos _ e' loc_Exact
                (round_nearest_even_pos _ (loc_of_shr_record mrs') H1) H2) as [H3 _].
  destruct (shr_fexp prec emax _ e' loc_Exact) as [mrs'' e'']. cbn [fst] in H3.
  destruct (shr_m mrs''); try lia.
  destruct (_ <=? _); cbn [has_sign]; apply eqb_reflx.
Qed.

Lemma binary_round_sign s (m : positive) (e : Z) :
  -149 <= e -> has_sign s (binary_round prec emax s m e) = true.
Proof.
  intros He. unfold binary_round.
  set (e' := fexp prec emax (Zpos (digits2_pos m) + e)).
  assert (-149 <= e') by (subst e'; unfold fexp, emin, prec, emax; lia).
  assert (-149 <= snd (shl_align m e e')).
  { unfold shl_align. destruct (e' - e); cbn [snd]; lia. }
  destruct (shl_align m e e') as [mz ez]. cbn [snd] in *.
  apply binary_round_aux_sign; lia.
Qed.

(** The difference of two finite floats, the first of which is the
    greater, is positive or [+inf]: it is not rounded to zero. *)
Lemma fsub_sign (x y : float) :
  regular x = true -> regular y = true -> flt y x = true ->
  has_sign false (fsub x y) = true.
Proof.
  intros Rx Ry Hlt.
  apply (proj1 (flt_true y x Ry Rx)) in Hlt.
  destruct x as [sx|sx| |sx mx ex]; try discriminate;
    destruct y as [sy|sy| |sy my ey]; try discriminate.
  - pose proof (to_Q_finite_sign sy my ey) as H.
    destruct sy; cbv iota in H; [reflexivity|].
    cbn [to_Q] in Hlt. cbn [to_Q] in H. lra.
  - pose proof (to_Q_finite_sign sx mx ex) as H.
    destruct sx; cbv iota in H; [|destruct sy; reflexivity].
    cbn [to_Q] in Hlt. cbn [to_Q] in H. lra.
  - apply regular_inv in Rx as [_ Vx]. apply regular_inv in Ry as [_ Vy].
    unfold valid in Vx, Vy. cbn [valid_binary] in Vx, Vy.
    destruct (bounded_inv _ _ Vx) as (_ & Ex & _).
    destruct (bounded_inv _ _ Vy) as (_ & Ey & _).
    unfold fsub, SFsub.
    set (ez := Z.min ex ey).
    destruct (shl_align_value mx ex ez) as [Hx _]; [lia|].
    destruct (shl_align_value my ey ez) as [Hy _]; [lia|].
    rewrite Hx, Hy.
    assert (Hz : 0 < cond_Zopp sx (Zpos mx * 2 ^ (ex - ez)) -
                     cond_Zopp sy (Zpos my * 2 ^ (ey - ez))).
    { cbn [to_Q] in Hlt.
      replace ex with (ez + (ex - ez)) in Hlt at 1 by lia.
      replace ey with (ez + (ey - ez)) in Hlt at 1 by lia.
      rewrite !shift_exponent in Hlt by lia.
      apply (proj1 (Qlt_alt _ _)) in Hlt. rewrite scaled_compare in Hlt.
      rewrite !cond_Zopp_mul in Hlt.
      pose proof (proj1 (Z.compare_lt_iff _ _) Hlt) as Hlt'. lia. }
    unfold binary_normalize.
    set (z := cond_Zopp sx _ - cond_Zopp sy _) in *.
    destruct z as [|p|p]; try lia.
    apply binary_round_sign. lia.
Qed.

End RoundFacts.

(* ================================================================== *)
(** * Rounding to nearest even, on integers *)
(* ================================================================== *)

Module RneFacts.

Import Binary32Repr FloatFacts.

Local Open Scope Z_scope.

Lemma div_mod_pos (m p : Z) :
  0 < p -> m = p * (m / p) + m mod p /\ 0 <= m mod p < p.
Proof.
  intros H. split; [apply Z.div_mod; lia|apply Z.mod_pos_bound; exact H].
Qed.

Lemma pow2_pos (k : Z) : 0 <= k -> 0 < 2 ^ k.
Proof. intros H. apply Z.pow_pos_nonneg; lia. Qed.

Lemma rne_bounds (m k : Z) :
  0 <= k -> m / 2 ^ k <= rne m k <= m / 2 ^ k + 1.
Proof.
  intros Hk. unfold rne. cbv zeta.
  destruct (_ <? _); [lia|]. destruct (_ <? _); [lia|]. destruct (Z.even _); lia.
Qed.

Lemma rne_0 (m : Z) : rne m 0 = m.
Proof.
  unfold rne. cbv zeta. change (2 ^ 0) with 1.
  rewrite Z.mod_1_r, Z.div_1_r. reflexivity.
Qed.

(** An integer above [m / 2^k] is above its rounding, and an integer
    below it is below its rounding. *)
Lemma rne_le (m k a : Z) :
  0 <= k -> m <= a * 2 ^ k -> rne m k <= a.
Proof.
  intros Hk H. pose proof (pow2_pos k Hk) as Hp.
  destruct (div_mod_pos m (2 ^ k) Hp) as [E R].
  unfold rne. cbv zeta.
  set (q := m / 2 ^ k) in *. set (r := m mod 2 ^ k) in *. set (p := 2 ^ k) in *.
  assert (q <= a) by nia.
  destruct (Z.ltb_spec (2 * r) p); [lia|].
  assert (q < a) by nia.
  destruct (_ <? _); [lia|]. destruct (Z.even _); lia.
Qed.

Lemma rne_ge (m k a : Z) :
  0 <= k -> a * 2 ^ k <= m -> a <= rne m k.
Proof.
  intros Hk H. pose proof (pow2_pos k Hk) as Hp.
  destruct (div_mod_pos m (2 ^ k) Hp) as [E R].
  pose proof (rne_bounds m k Hk) as [L _].
  set (q := m / 2 ^ k) in *. set (r := m mod 2 ^ k) in *. set (p := 2 ^ k) in *.
  assert (a <= q) by nia. lia.
Qed.

Lemma rne_exact (a k : Z) : 0 <= k -> rne (a * 2 ^ k) k = a.
Proof.
  intros Hk. apply Z.le_antisymm; [apply rne_le|apply rne_ge]; lia.
Qed.

(** The rounding is monotone. *)
Lemma rne_mono (m1 m2 k : Z) :
  0 <= k -> m1 <= m2 -> rne m1 k <= rne m2 k.
Proof.
  intros Hk H. pose proof (pow2_pos k Hk) as Hp.
  destruct (div_mod_pos m1 (2 ^ k) Hp) as [E1 R1].
  destruct (div_mod_pos m2 (2 ^ k) Hp) as [E2 R2].
  pose proof (rne_bounds m1 k Hk) as [_ U1].
  pose proof (rne_bounds m2 k Hk) as [L2 _].
  unfold rne in *. cbv zeta in *.
  set (q1 := m1 / 2 ^ k) in *. set (r1 := m1 mod 2 ^ k) in *.
  set (q2 := m2 / 2 ^ k) in *. set (r2 := m2 mod 2 ^ k) in *.
  set (p := 2 ^ k) in *.
  assert (q1 <= q2) by nia.
  destruct (Z.eq_dec q1 q2) as [Eq|Ne]; [|lia].
  assert (r1 <= r2) by nia. rewrite Eq in *.
  destruct (Z.ltb_spec (2 * r1) p), (Z.ltb_spec (2 * r2) p); try lia;
    destruct (Z.ltb_spec p (2 * r1)), (Z.ltb_spec p (2 * r2)); try lia;
    destruct (Z.even q2); lia.
Qed.

(** The rounding does not depend on the scale. *)
Lemma rne_scale (m k i : Z) :
  0 <= k -> 0 <= i -> rne (m * 2 ^ i) (k + i) = rne m k.
Proof.
  intros Hk Hi. pose proof (pow2_pos k Hk) as Hp. pose proof (pow2_pos i Hi) as Hq.
  unfold rne. cbv zeta.
  rewrite Z.pow_add_r by lia.
  rewrite Z.div_mul_cancel_r by lia.
  rewrite Z.mul_mod_distr_r by lia.
  set (q := m / 2 ^ k). set (r := m mod 2 ^ k). set (p := 2 ^ k) in *.
  set (c := 2 ^ i) in *.
  destruct (Z.ltb_spec (2 * r) p), (Z.ltb_spec (2 * (r * c)) (p * c)); try nia;
    try reflexivity.
  destruct (Z.ltb_spec p (2 * r)), (Z.ltb_spec (p * c) (2 * (r * c))); try nia;
    reflexivity.
Qed.

(** A number below half of [2^k] rounds to 0. *)
Lemma rne_small (m k : Z) : 0 <= k -> 0 <= m -> 2 * m < 2 ^ k -> rne m k = 0.
Proof.
  intros Hk Hm H. unfold rne. cbv zeta.
  rewrite Z.mod_small, Z.div_small by lia.
  destruct (Z.ltb_spec (2 * m) (2 ^ k)); [reflexivity|lia].
Qed.

(** ** Dyadic numbers *)

Local Open Scope Q_scope.

Lemma dy_shift (z e k : Z) : (0 <= k)%Z -> dy (z * 2 ^ k) e == dy z (e + k).
Proof. intros H. unfold dy. symmetry. now apply shift_exponent. Qed.

Lemma dy_le (a b e : Z) : dy a e <= dy b e <-> (a <= b)%Z.
Proof.
  unfold dy. pose proof (two_power_pos e) as Hp. split; intros H.
  - apply Qmult_le_r in H; [|exact Hp]. now rewrite Zle_Qle.
  - apply Qmult_le_r; [exact Hp|]. now rewrite <- Zle_Qle.
Qed.

Lemma dy_lt (a b e : Z) : dy a e < dy b e <-> (a < b)%Z.
Proof.
  unfold dy. pose proof (two_power_pos e) as Hp. split; intros H.
  - apply Qmult_lt_r in H; [|exact Hp]. now rewrite Zlt_Qlt.
  - apply Qmult_lt_r; [exact Hp|]. now rewrite <- Zlt_Qlt.
Qed.

Lemma dy_eq (a b e : Z) : dy a e == dy b e <-> a = b.
Proof.
  split; [|intros ->; reflexivity]. intros H.
  apply Z.le_antisymm; apply (proj1 (dy_le _ _ e)); rewrite H; apply Qle_refl.
Qed.

(** Dyadic numbers at two exponents, on the lower one. *)
Lemma dy_align (z e c : Z) : (c <= e)%Z -> dy z e == dy (z * 2 ^ (e - c)) c.
Proof.
  intros H. rewrite dy_shift by lia. replace (c + (e - c))%Z with e by lia. reflexivity.
Qed.

Lemma dy_0 (e : Z) : dy 0 e == 0.
Proof. unfold dy. ring. Qed.

Lemma dy_pos (z e : Z) : (0 < z)%Z -> 0 < dy z e.
Proof. intros H. rewrite <- (dy_0 e). now apply dy_lt. Qed.

Lemma dy_opp (z e : Z) : dy (- z) e == - dy z e.
Proof. unfold dy. rewrite inject_Z_opp. ring. Qed.

(** A positive number lies between the powers of two given by its
    number of digits. *)
Lemma dy_digits (m : positive) (e : Z) :
  dy 1 (Zpos (digits2_pos m) - 1 + e) <= dy (Zpos m) e /\
  dy (Zpos m) e < dy 1 (Zpos (digits2_pos m) + e).
Proof.
  pose proof (digits2_pos_bounds m) as [L U].
  split.
  - replace (Zpos (digits2_pos m) - 1 + e)%Z with (e + (Zpos (digits2_pos m) - 1))%Z by lia.
    rewrite <- dy_shift by lia. apply dy_le. lia.
  - replace (Zpos (digits2_pos m) + e)%Z with (e + Zpos (digits2_pos m))%Z by lia.
    rewrite <- dy_shift by lia. apply dy_lt. lia.
Qed.

(** Powers of two are ordered by their exponents. *)
Lemma dy_pow_le (a b : Z) : (a <= b)%Z -> dy 1 a <= dy 1 b.
Proof.
  intros H. replace b with (a + (b - a))%Z by lia.
  rewrite <- dy_shift by lia. apply dy_le.
  pose proof (pow2_pos (b - a) ltac:(lia)). lia.
Qed.

Lemma dy_pow_lt_inv (a b : Z) : dy 1 a < dy 1 b -> (a < b)%Z.
Proof.
  intros H. destruct (Z.ltb_spec a b) as [?|Hge]; [assumption|].
  apply dy_pow_le in Hge. lra.
Qed.

End RneFacts.

(* ================================================================== *)
(** * What [binary_round_aux] computes *)
(* ================================================================== *)

Module RoundOrder.

Import Binary32Repr FloatFacts RoundFacts RneFacts.

Local Open Scope Z_scope.

(** ** The bits that a right shift drops *)

Lemma shr_1_fields (r : shr_record) :
  0 <= shr_m r ->
  shr_m (shr_1 r) = shr_m r / 2 /\
  shr_r (shr_1 r) = Z.odd (shr_m r) /\
  shr_s (shr_1 r) = shr_r r || shr_s r.
Proof.
  intros H. split; [now apply shr_1_m|].
  destruct r as [m r s]. cbn [shr_m] in H.
  destruct m as [|[p|p|]|p]; try lia; split; reflexivity.
Qed.

Lemma bool_case (b : bool) (P : Prop) : (b = true <-> P) -> if b then P else ~ P.
Proof. destruct b; intros [H1 H2]; [auto|intros HP; discriminate (H2 HP)]. Qed.

(** After [j] shifts of an exact mantissa [m]: the quotient, the round
    bit (the remainder is at least one half), and the sticky bit (the
    remainder is neither zero nor one half). *)
Lemma shr_iter_exact (j : nat) (m : Z) :
  0 <= m ->
  let rec := Nat.iter j shr_1 {| shr_m := m; shr_r := false; shr_s := false |} in
  shr_m rec = m / 2 ^ Z.of_nat j /\
  (shr_r rec = true <-> 2 ^ Z.of_nat j <= 2 * (m mod 2 ^ Z.of_nat j)) /\
  (shr_s rec = true <->
   m mod 2 ^ Z.of_nat j <> 0 /\ 2 * (m mod 2 ^ Z.of_nat j) <> 2 ^ Z.of_nat j).
Proof.
  intros Hm. cbv zeta. induction j as [|j IH].
  - cbn [Nat.iter nat_rect shr_m shr_r shr_s]. change (2 ^ Z.of_nat 0) with 1.
    rewrite Z.mod_1_r, Z.div_1_r.
    split; [reflexivity|]. split; split; try discriminate; lia.
  - destruct IH as (Im & Ir & Is).
    rewrite Nat.iter_succ.
    set (rec := Nat.iter j shr_1 _) in *.
    assert (Hq : 0 <= shr_m rec).
    { rewrite Im. apply Z.div_pos; [lia|apply pow2_pos; lia]. }
    destruct (shr_1_fields rec Hq) as (Em & Er & Es).
    rewrite Em, Er, Es, Im.
    rewrite Nat2Z.inj_succ, Z.pow_succ_r by lia.
    pose proof (pow2_pos (Z.of_nat j) ltac:(lia)) as Hp.
    set (p := 2 ^ Z.of_nat j) in *.
    assert (Emod : m mod (2 * p) = m mod p + p * ((m / p) mod 2)).
    { rewrite (Z.mul_comm 2 p). apply Z.rem_mul_r; lia. }
    rewrite Emod, Zmod_odd.
    pose proof (Z.mod_pos_bound m p Hp) as Hr.
    apply bool_case in Ir. apply bool_case in Is.
    split; [rewrite Z.div_div by lia; f_equal; lia|].
    destruct (Z.odd (m / p)), (shr_r rec), (shr_s rec); cbn [orb];
      (split; split; intros; try reflexivity; try discriminate; try nia).
Qed.

Lemma round_of_record (rec : shr_record) (m k : Z) :
  0 <= k ->
  shr_m rec = m / 2 ^ k ->
  (shr_r rec = true <-> 2 ^ k <= 2 * (m mod 2 ^ k)) ->
  (shr_s rec = true <-> m mod 2 ^ k <> 0 /\ 2 * (m mod 2 ^ k) <> 2 ^ k) ->
  round_nearest_even (shr_m rec) (loc_of_shr_record rec) = rne m k.
Proof.
  intros Hk Em Hr Hs. apply bool_case in Hr. apply bool_case in Hs.
  pose proof (pow2_pos k Hk) as Hp.
  pose proof (Z.mod_pos_bound m (2 ^ k) Hp) as Hb.
  unfold rne. cbv zeta. rewrite <- Em.
  destruct rec as [q r s]. cbn [shr_m shr_r shr_s loc_of_shr_record] in *.
  destruct r, s; cbn [round_nearest_even].
  - destruct (Z.ltb_spec (2 * (m mod 2 ^ k)) (2 ^ k)); [lia|].
    destruct (Z.ltb_spec (2 ^ k) (2 * (m mod 2 ^ k))); [reflexivity|lia].
  - destruct (Z.ltb_spec (2 * (m mod 2 ^ k)) (2 ^ k)); [lia|].
    destruct (Z.ltb_spec (2 ^ k) (2 * (m mod 2 ^ k))); [lia|reflexivity].
  - destruct (Z.ltb_spec (2 * (m mod 2 ^ k)) (2 ^ k)); [reflexivity|lia].
  - destruct (Z.ltb_spec (2 * (m mod 2 ^ k)) (2 ^ k)); [reflexivity|lia].
Qed.

(** ** The first half of [binary_round_aux], on an exact number *)

Lemma shr_fexp_exact (m e : Z) :
  0 <= m -> 0 <= dropped m e ->
  exists rec,
    shr_fexp prec emax m e loc_Exact = (rec, round_exp m e) /\
    round_nearest_even (shr_m rec) (loc_of_shr_record rec) = rne m (dropped m e).
Proof.
  unfold dropped, round_exp. intros Hm Hk. unfold shr_fexp.
  set (k := fexp prec emax (Zdigits2 m + e) - e) in *.
  replace (fexp prec emax (Zdigits2 m + e)) with (e + k) by (subst k; lia).
  cbn [shr_record_of_loc]. unfold shr.
  destruct k as [|p|p] eqn:Ek; [| |lia].
  - eexists. split; [now rewrite Z.add_0_r|]. cbn. now rewrite rne_0.
  - eexists. split; [reflexivity|].
    rewrite iter_pos_nat.
    destruct (shr_iter_exact (Pos.to_nat p) m Hm) as (Im & Ir & Is).
    rewrite positive_nat_Z in *.
    apply round_of_record; [lia|assumption..].
Qed.

(** ** The second half *)

Lemma pow2_digits (n : Z) (p : positive) :
  0 <= n -> Zpos p = 2 ^ n -> Zpos (digits2_pos p) = n + 1.
Proof.
  intros Hn E. apply digits2_pos_unique. rewrite E.
  replace (n + 1 - 1) with n by lia. split; [lia|].
  apply Z.pow_lt_mono_r; lia.
Qed.

Lemma stands_for_finite (s : bool) (p : positive) (F : Z) :
  bounded prec emax p F = true ->
  stands_for s (Zpos p) F (S754_finite s p F).
Proof.
  intros Hb. right. right. split; [lia|].
  split; [exact Hb|]. split; [apply eqb_reflx|]. split; [reflexivity|].
  reflexivity.
Qed.

Lemma bounded_of_position (p : positive) (F : Z) :
  -149 <= F <= 104 -> Zpos p < 2 ^ 24 -> (Zpos p < 2 ^ 23 -> F = -149) ->
  bounded prec emax p F = true.
Proof.
  intros HF Hp Hsub.
  unfold bounded, canonical_mantissa.
  apply andb_true_intro. split; [apply Z.eqb_eq|apply Z.leb_le; unfold emax, prec; lia].
  pose proof (digits2_pos_bounds p) as Hd.
  set (d := Zpos (digits2_pos p)) in *.
  assert (Hd24 : d <= 24).
  { destruct (Z.le_gt_cases d 24) as [H|H]; [exact H|].
    assert (2 ^ 24 <= 2 ^ (d - 1)) by (apply Z.pow_le_mono_r; lia). lia. }
  unfold fexp, emin, prec, emax.
  destruct (Z.lt_ge_cases (Zpos p) (2 ^ 23)) as [Hlt|Hge].
  - rewrite (Hsub Hlt).
    assert (d <= 23).
    { destruct (Z.le_gt_cases d 23) as [H|H]; [exact H|].
      assert (2 ^ 23 <= 2 ^ (d - 1)) by (apply Z.pow_le_mono_r; lia). lia. }
    lia.
  - assert (24 <= d).
    { destruct (Z.le_gt_cases 24 d) as [H|H]; [exact H|].
      assert (2 ^ d <= 2 ^ 23) by (apply Z.pow_le_mono_r; lia). lia. }
    lia.
Qed.

Lemma finish_spec (s : bool) (M F : Z) :
  -149 <= F -> 0 <= M <= 2 ^ 24 -> (M < 2 ^ 23 -> F = -149) ->
  stands_for s M F (finish s M F).
Proof.
  intros HF HM Hsub.
  destruct M as [|p|p]; [| |lia].
  - left. split; [reflexivity|].
    unfold finish, shr_fexp. cbn [Zdigits2 shr_record_of_loc].
    assert (Hk : fexp prec emax (0 + F) - F <= 0)
      by (unfold fexp, emin, prec, emax; lia).
    unfold shr. destruct (fexp prec emax (0 + F) - F); try lia; reflexivity.
  - destruct (Z.eq_dec (Zpos p) (2 ^ 24)) as [E|NE].
    + (* the rounding carried into a 25th bit *)
      change (2 ^ 24) with (Zpos 16777216) in E. injection E as ->.
      assert (Hk : fexp prec emax (Zdigits2 16777216 + F) - F = 1)
        by (cbn [Zdigits2 digits2_pos Pos.succ]; unfold fexp, emin, prec, emax; lia).
      unfold finish, shr_fexp. rewrite Hk.
      cbn [shr_record_of_loc shr iter_pos shr_1 orb shr_m].
      destruct (Z.leb_spec (F + 1) (emax - prec)) as [Hle|Hgt];
        unfold emax, prec in *.
      * right. right. split; [lia|].
        assert (Hb : bounded prec emax 8388608 (F + 1) = true).
        { apply bounded_of_position; [lia|reflexivity|].
          change (2 ^ 23) with (Zpos 8388608). lia. }
        split; [exact Hb|]. split; [apply eqb_reflx|]. split; [reflexivity|].
        change (to_Q (S754_finite s 8388608 (F + 1)))
          with (dy (cond_Zopp s (Zpos 8388608)) (F + 1)).
        rewrite <- dy_shift by lia. apply dy_eq.
        destruct s; reflexivity.
      * right. left. split; [lia|]. split; [reflexivity|].
        change (Zpos 16777216) with (1 * 2 ^ 24).
        rewrite dy_shift by lia. apply dy_pow_le. lia.
    + assert (Hlt : Zpos p < 2 ^ 24) by lia.
      assert (Hk : fexp prec emax (Zdigits2 (Zpos p) + F) - F = 0).
      { destruct (Z.le_gt_cases F 104) as [H104|H104].
        - pose proof (bounded_of_position p F ltac:(lia) Hlt Hsub) as Hb.
          unfold bounded, canonical_mantissa in Hb.
          apply andb_prop in Hb. destruct Hb as [Hb _].
          apply Z.eqb_eq in Hb. cbn [Zdigits2]. lia.
        - pose proof (bounded_of_position p 0 ltac:(lia) Hlt ltac:(lia)) as Hb.
          unfold bounded, canonical_mantissa in Hb.
          apply andb_prop in Hb. destruct Hb as [Hb _].
          apply Z.eqb_eq in Hb. cbn [Zdigits2].
          unfold fexp, emin, prec, emax in *. lia. }
      unfold finish, shr_fexp. rewrite Hk.
      cbn [shr_record_of_loc shr shr_m].
      destruct (Z.leb_spec F (emax - prec)) as [Hle|Hgt];
        unfold emax, prec in *.
      * apply stands_for_finite.
        apply bounded_of_position; [lia|exact Hlt|exact Hsub].
      * right. left. split; [lia|]. split; [reflexivity|].
        apply Qle_trans with (dy (2 ^ 23) F).
        -- change (2 ^ 23) with (1 * 2 ^ 23).
           rewrite dy_shift by lia. apply dy_pow_le. lia.
        -- apply dy_le. lia.
Qed.

(** ** Where the rounded mantissa lies *)

Lemma round_position (m : positive) (e : Z) :
  0 <= dropped (Zpos m) e ->
  -149 <= round_exp (Zpos m) e /\
  0 <= rne (Zpos m) (dropped (Zpos m) e) <= 2 ^ 24 /\
  (rne (Zpos m) (dropped (Zpos m) e) < 2 ^ 23 -> round_exp (Zpos m) e = -149) /\
  (-149 <= e -> 0 < rne (Zpos m) (dropped (Zpos m) e)).
Proof.
  unfold dropped, round_exp. cbn [Zdigits2].
  pose proof (digits2_pos_bounds m) as [L U].
  set (d := Zpos (digits2_pos m)) in *.
  assert (Hd : 1 <= d) by (subst d; lia).
  unfold fexp, emin, prec, emax.
  set (F := Z.max (d + e - 24) (3 - 128 - 24)).
  intros Hk.
  split; [subst F; lia|]. split; [split|split].
  - apply rne_ge; [lia|]. lia.
  - apply rne_le; [lia|]. rewrite <- Z.pow_add_r by lia.
    assert (2 ^ d <= 2 ^ (24 + (F - e))) by (apply Z.pow_le_mono_r; subst F; lia).
    lia.
  - intros Hlt. destruct (Z.eq_dec F (-149)) as [E|NE]; [exact E|exfalso].
    assert (EF : F - e = d - 24) by (subst F; lia).
    assert (2 ^ 23 <= rne (Zpos m) (F - e)); [|lia].
    apply rne_ge; [lia|]. rewrite <- Z.pow_add_r by lia.
    replace (23 + (F - e)) with (d - 1) by lia. exact L.
  - intros He. assert (1 <= rne (Zpos m) (F - e)); [|lia].
    apply rne_ge; [lia|]. rewrite Z.mul_1_l.
    assert (2 ^ (F - e) <= 2 ^ (d - 1)) by (apply Z.pow_le_mono_r; subst F; lia).
    lia.
Qed.

(** ** Rounding keeps the order of two positive numbers *)

Lemma round_pair_mono (m1 m2 : positive) (e1 e2 : Z) :
  0 <= dropped (Zpos m1) e1 -> 0 <= dropped (Zpos m2) e2 ->
  (dy (Zpos m1) e1 <= dy (Zpos m2) e2)%Q ->
  (dy (rne (Zpos m1) (dropped (Zpos m1) e1)) (round_exp (Zpos m1) e1) <=
   dy (rne (Zpos m2) (dropped (Zpos m2) e2)) (round_exp (Zpos m2) e2))%Q.
Proof.
  intros H1 H2 Hle.
  destruct (round_position m1 e1 H1) as (_ & [_ HM1] & _ & _).
  destruct (round_position m2 e2 H2) as (_ & _ & HM2 & _).
  assert (Hmag : Zpos (digits2_pos m1) + e1 <= Zpos (digits2_pos m2) + e2).
  { pose proof (dy_digits m1 e1) as [L1 _]. pose proof (dy_digits m2 e2) as [_ U2].
    assert (Hlt : (dy 1 (Zpos (digits2_pos m1) - 1 + e1) <
                   dy 1 (Zpos (digits2_pos m2) + e2))%Q).
    { eapply Qle_lt_trans; [exact L1|]. eapply Qle_lt_trans; [exact Hle|exact U2]. }
    apply dy_pow_lt_inv in Hlt. lia. }
  revert H1 H2 HM1 HM2. unfold dropped, round_exp. cbn [Zdigits2].
  set (F1 := fexp prec emax (Zpos (digits2_pos m1) + e1)).
  set (F2 := fexp prec emax (Zpos (digits2_pos m2) + e2)).
  intros H1 H2 HM1 HM2.
  assert (HF : F1 <= F2) by (subst F1 F2; unfold fexp, emin, prec, emax; lia).
  destruct (Z.eq_dec F1 F2) as [E|NE].
  - rewrite <- E in *. apply dy_le.
    set (c := Z.min e1 e2).
    replace (rne (Zpos m1) (F1 - e1))
      with (rne (Zpos m1 * 2 ^ (e1 - c)) (F1 - e1 + (e1 - c)))
      by (apply rne_scale; subst c; lia).
    replace (rne (Zpos m2) (F1 - e2))
      with (rne (Zpos m2 * 2 ^ (e2 - c)) (F1 - e2 + (e2 - c)))
      by (apply rne_scale; subst c; lia).
    replace (F1 - e1 + (e1 - c)) with (F1 - c) by lia.
    replace (F1 - e2 + (e2 - c)) with (F1 - c) by lia.
    apply rne_mono; [subst c; lia|].
    apply (dy_le _ _ c).
    rewrite <- (dy_align (Zpos m1) e1 c) by (subst c; lia).
    rewrite <- (dy_align (Zpos m2) e2 c) by (subst c; lia).
    exact Hle.
  - assert (HF2 : F2 <> -149) by (subst F1 F2; unfold fexp, emin, prec, emax in *; lia).
    assert (HM2' : 2 ^ 23 <= rne (Zpos m2) (F2 - e2)) by lia.
    apply Qle_trans with (dy (2 ^ 24) F1); [apply dy_le; exact HM1|].
    apply Qle_trans with (dy (2 ^ 23) F2); [|apply dy_le; exact HM2'].
    change (2 ^ 24) with (1 * 2 ^ 24). change (2 ^ 23) with (1 * 2 ^ 23).
    rewrite !dy_shift by lia. apply dy_pow_le. lia.
Qed.

(** ** [binary_round_aux] and [binary_round] in these terms *)

Lemma binary_round_aux_exact (s : bool) (m : positive) (e : Z) :
  0 <= dropped (Zpos m) e ->
  binary_round_aux prec emax s (Zpos m) e loc_Exact =
  finish s (rne (Zpos m) (dropped (Zpos m) e)) (round_exp (Zpos m) e).
Proof.
  intros Hk.
  destruct (shr_fexp_exact (Zpos m) e ltac:(lia) Hk) as (rec & E & Hr).
  unfold binary_round_aux. rewrite E. cbv beta iota zeta.
  rewrite Hr. reflexivity.
Qed.

Lemma binary_round_aux_stands (s : bool) (m : positive) (e : Z) :
  0 <= dropped (Zpos m) e ->
  stands_for s (rne (Zpos m) (dropped (Zpos m) e)) (round_exp (Zpos m) e)
    (binary_round_aux prec emax s (Zpos m) e loc_Exact).
Proof.
  intros Hk. rewrite binary_round_aux_exact by exact Hk.
  destruct (round_position m e Hk) as (HF & HM & Hsub & _).
  apply finish_spec; assumption.
Qed.

Lemma binary_round_aligned (s : bool) (m : positive) (e : Z) :
  exists (m' : positive) (e' : Z),
    binary_round prec emax s m e =
    binary_round_aux prec emax s (Zpos m') e' loc_Exact /\
    (dy (Zpos m') e' == dy (Zpos m) e)%Q /\
    0 <= dropped (Zpos m') e' /\
    (-149 <= e -> -149 <= e').
Proof.
  unfold binary_round.
  set (F := fexp prec emax (Zpos (digits2_pos m) + e)).
  destruct (Z.le_gt_cases e F) as [Hle|Hgt].
  - exists m, e. split.
    + unfold shl_align. destruct (F - e) eqn:E; try lia; reflexivity.
    + split; [reflexivity|]. split; [|auto].
      unfold dropped, round_exp. cbn [Zdigits2]. fold F. lia.
  - destruct (shl_align_value m e F ltac:(lia)) as [Hm He].
    destruct (shl_align m e F) as [mz ez]. cbn [fst snd] in Hm, He. subst ez.
    exists mz, F. split; [reflexivity|]. split.
    + rewrite Hm. symmetry. apply dy_align. lia.
    + split.
      * unfold dropped, round_exp. cbn [Zdigits2].
        rewrite (digits2_pos_shift mz m (e - F) ltac:(lia) Hm).
        replace (Zpos (digits2_pos m) + (e - F) + F) with (Zpos (digits2_pos m) + e) by lia.
        fold F. lia.
      * intros _. subst F. unfold fexp, emin, prec, emax. lia.
Qed.

(** ** From the order of the values to the order of the floats *)

Lemma bounded_below_max (m : positive) (e : Z) :
  bounded prec emax m e = true -> (dy (Zpos m) e < dy 1 128)%Q.
Proof.
  intros Hb. destruct (bounded_inv m e Hb) as (Hd & He & _).
  pose proof (dy_digits m e) as [_ U].
  eapply Qlt_le_trans; [exact U|]. apply dy_pow_le. lia.
Qed.

Lemma signed_regular_inv (s : bool) (R : float) :
  regular R = true -> has_sign s R = true ->
  exists m e, R = S754_finite s m e /\ bounded prec emax m e = true.
Proof.
  intros Hr Hs. destruct R as [s'|s'| |s' m e]; try discriminate.
  cbn in Hs. apply eqb_prop in Hs. subst s'.
  exists m, e. split; [reflexivity|exact Hr].
Qed.

Lemma stands_le (M1 F1 M2 F2 : Z) (R1 R2 : float) :
  stands_for false M1 F1 R1 -> stands_for false M2 F2 R2 ->
  (dy M1 F1 <= dy M2 F2)%Q -> fle R1 R2 = true.
Proof.
  intros [(E1 & ->)|[(P1 & -> & B1)|(P1 & Rg1 & S1 & Fi1 & V1)]]
         [(E2 & ->)|[(P2 & -> & B2)|(P2 & Rg2 & S2 & Fi2 & V2)]] Hle;
    try reflexivity.
  - apply fle_true; [reflexivity|exact Rg2|].
    rewrite V2. cbn [cond_Zopp to_Q]. apply Qlt_le_weak, dy_pos. exact P2.
  - exfalso. subst M2. rewrite dy_0 in Hle.
    pose proof (dy_pos M1 F1 P1) as H. apply (Qlt_irrefl 0).
    eapply Qlt_le_trans; [exact H|exact Hle].
  - exfalso.
    destruct (signed_regular_inv false R2 Rg2 S2) as (m & e & -> & Hb).
    pose proof (bounded_below_max m e Hb) as Hm.
    change (to_Q (S754_finite false m e)) with (dy (Zpos m) e) in V2.
    cbn [cond_Zopp] in V2. rewrite V2 in Hm.
    apply (Qlt_irrefl (dy 1 128)).
    eapply Qle_lt_trans; [exact B1|]. eapply Qle_lt_trans; [exact Hle|exact Hm].
  - exfalso. subst M2. rewrite dy_0 in Hle.
    pose proof (dy_pos M1 F1 P1) as H. apply (Qlt_irrefl 0).
    eapply Qlt_le_trans; [exact H|exact Hle].
  - destruct (signed_regular_inv false R1 Rg1 S1) as (m & e & -> & Hb). reflexivity.
  - apply fle_true; [exact Rg1|exact Rg2|].
    rewrite V1, V2. exact Hle.
Qed.

Lemma stands_regular (s : bool) (M F : Z) (R : float) :
  stands_for s M F R ->
  is_nan R = false /\ (is_finite R = true -> regular R = true).
Proof.
  intros [(E & ->)|[(P & -> & B)|(P & Rg & S & Fi & V)]].
  - split; [reflexivity|auto].
  - split; [reflexivity|discriminate].
  - split; [|auto]. destruct R; try discriminate; reflexivity.
Qed.

Lemma binary_round_mono (m1 m2 : positive) (e1 e2 : Z) :
  (dy (Zpos m1) e1 <= dy (Zpos m2) e2)%Q ->
  fle (binary_round prec emax false m1 e1) (binary_round prec emax false m2 e2) = true.
Proof.
  intros Hle.
  destruct (binary_round_aligned false m1 e1) as (n1 & f1 & -> & V1 & K1 & _).
  destruct (binary_round_aligned false m2 e2) as (n2 & f2 & -> & V2 & K2 & _).
  eapply stands_le; [apply binary_round_aux_stands; exact K1
                    |apply binary_round_aux_stands; exact K2|].
  apply round_pair_mono; [exact K1|exact K2|].
  rewrite V1, V2. exact Hle.
Qed.

Lemma binary_round_regular (s : bool) (m : positive) (e : Z) :
  is_nan (binary_round prec emax s m e) = false /\
  (is_finite (binary_round prec emax s m e) = true ->
   regular (binary_round prec emax s m e) = true).
Proof.
  destruct (binary_round_aligned s m e) as (n & f & -> & V & K & _).
  eapply stands_regular. apply binary_round_aux_stands. exact K.
Qed.

(** ** Negative numbers round as their opposites *)

Lemma binary_round_aux_opp (m e : Z) (l : location) :
  binary_round_aux prec emax true m e l =
  SFopp (binary_round_aux prec emax false m e l).
Proof.
  unfold binary_round_aux.
  destruct (shr_fexp prec emax m e l) as [mrs e'].
  destruct (shr_fexp prec emax _ e' loc_Exact) as [mrs' e''].
  destruct (shr_m mrs'); try reflexivity.
  destruct (e'' <=? emax - prec); reflexivity.
Qed.

Lemma binary_round_opp (m : positive) (e : Z) :
  binary_round prec emax true m e = SFopp (binary_round prec emax false m e).
Proof.
  unfold binary_round.
  destruct (shl_align m e _) as [mz ez]. apply binary_round_aux_opp.
Qed.

Lemma SFcompare_opp (a b : float) :
  SFcompare (SFopp a) (SFopp b) = SFcompare b a.
Proof.
  destruct a as [sa|sa| |sa ma ea], b as [sb|sb| |sb mb eb];
    try reflexivity; try (destruct sa; reflexivity);
    try (destruct sb; reflexivity); try (destruct sa, sb; reflexivity).
  cbn [SFopp SFcompare].
  destruct sa, sb; cbn [negb]; try reflexivity.
  - rewrite (Z.compare_antisym ea eb).
    destruct (ea ?= eb); cbn [CompOpp]; try reflexivity.
    f_equal. now rewrite (Pos.compare_cont_antisym mb ma Eq).
  - rewrite (Z.compare_antisym ea eb).
    destruct (ea ?= eb); cbn [CompOpp]; try reflexivity.
    f_equal. apply (Pos.compare_cont_antisym ma mb Eq).
Qed.

Lemma fle_opp (a b : float) : fle (SFopp a) (SFopp b) = fle b a.
Proof. unfold fle, SFleb. now rewrite SFcompare_opp. Qed.

Lemma fle_signs (a b : float) :
  has_sign true a = true -> has_sign false b = true -> fle a b = true.
Proof.
  destruct a as [sa|sa| |sa ma ea], b as [sb|sb| |sb mb eb]; try discriminate;
    cbn [has_sign]; intros Ha Hb; apply eqb_prop in Ha, Hb; subst; reflexivity.
Qed.

Lemma fle_zero_pos (s : bool) (b : float) :
  has_sign false b = true -> fle (S754_zero s) b = true.
Proof.
  destruct b as [sb|sb| |sb mb eb]; try discriminate;
    cbn [has_sign]; intros Hb; apply eqb_prop in Hb; subst; reflexivity.
Qed.

Lemma fle_neg_zero (s : bool) (a : float) :
  has_sign true a = true -> fle a (S754_zero s) = true.
Proof.
  destruct a as [sa|sa| |sa ma ea]; try discriminate;
    cbn [has_sign]; intros Ha; apply eqb_prop in Ha; subst; reflexivity.
Qed.

(** ** [binary_normalize] keeps the order *)

Lemma dy_neg (z e : Z) : z < 0 -> (dy z e < 0)%Q.
Proof.
  intros Hz. pose proof (dy_pos (- z) e ltac:(lia)) as H.
  rewrite dy_opp in H. lra.
Qed.

Lemma binary_normalize_mono (z1 e1 z2 e2 : Z) :
  -149 <= e1 -> -149 <= e2 ->
  (dy z1 e1 <= dy z2 e2)%Q ->
  fle (binary_normalize prec emax z1 e1 false)
      (binary_normalize prec emax z2 e2 false) = true.
Proof.
  intros He1 He2 Hle.
  destruct z1 as [|m1|m1], z2 as [|m2|m2]; cbn [binary_normalize].
  - reflexivity.
  - apply fle_zero_pos, binary_round_sign. exact He2.
  - exfalso. rewrite dy_0 in Hle.
    pose proof (dy_neg (Zneg m2) e2 ltac:(lia)). lra.
  - exfalso. rewrite dy_0 in Hle.
    pose proof (dy_pos (Zpos m1) e1 ltac:(lia)). lra.
  - apply binary_round_mono. exact Hle.
  - exfalso. pose proof (dy_pos (Zpos m1) e1 ltac:(lia)).
    pose proof (dy_neg (Zneg m2) e2 ltac:(lia)). lra.
  - apply fle_neg_zero, binary_round_sign. exact He1.
  - apply fle_signs; apply binary_round_sign; assumption.
  - rewrite !binary_round_opp, fle_opp. apply binary_round_mono.
    change (Zneg m1) with (- Zpos m1) in Hle.
    change (Zneg m2) with (- Zpos m2) in Hle.
    rewrite !dy_opp in Hle. lra.
Qed.

Lemma binary_normalize_regular (z e : Z) :
  is_nan (binary_normalize prec emax z e false) = false /\
  (is_finite (binary_normalize prec emax z e false) = true ->
   regular (binary_normalize prec emax z e false) = true).
Proof.
  destruct z as [|m|m]; cbn [binary_normalize].
  - split; [reflexivity|auto].
  - apply binary_round_regular.
  - apply binary_round_regular.
Qed.

(** A finite number is what rounding makes of its own value. *)
Lemma binary_normalize_fix (x : float) :
  regular x = true ->
  exists z e, -149 <= e /\ (dy z e == to_Q x)%Q /\
              same_val x (binary_normalize prec emax z e false).
Proof.
  intros Hr. destruct x as [s|s| |s m e]; try discriminate.
  - exists 0, 0. split; [lia|]. split; [apply dy_0|]. right. reflexivity.
  - assert (Hb : bounded prec emax m e = true) by exact Hr.
    destruct (bounded_inv m e Hb) as (Hd & He & _).
    exists (cond_Zopp s (Zpos m)), e. split; [lia|]. split; [reflexivity|].
    left.
    assert (Hc : fexp prec emax (Zpos (digits2_pos m) + e) = e).
    { unfold bounded, canonical_mantissa in Hb.
      apply andb_prop in Hb. destruct Hb as [Hb _]. now apply Z.eqb_eq in Hb. }
    assert (E : forall s', binary_round prec emax s' m e = S754_finite s' m e).
    { intros s'. unfold binary_round. rewrite Hc. unfold shl_align.
      rewrite Z.sub_diag.
      rewrite (binary_round_aux_trailing s' m m e 0); [now rewrite Z.add_0_r|lia|lia|lia|].
      now rewrite Z.add_0_r. }
    destruct s; cbn [cond_Zopp Z.opp binary_normalize]; now rewrite E.
Qed.

End RoundOrder.

(* ================================================================== *)
(** * Order properties of the binary32 operations *)
(* ================================================================== *)

Module OpFacts.

Import Binary32Repr FloatFacts RoundFacts RneFacts RoundOrder.

Local Open Scope Z_scope.

(** ** Zeros of either sign compare alike *)

Lemma same_val_refl (a : float) : same_val a a.
Proof. now left. Qed.

Lemma same_val_zero (s s' : bool) : same_val (S754_zero s) (S754_zero s').
Proof. now right. Qed.

Lemma fle_same_val (a a' b b' : float) :
  same_val a a' -> same_val b b' -> fle a b = fle a' b'.
Proof.
  intros [->|Ha] [->|Hb]; try reflexivity.
  - destruct b, b'; try discriminate. destruct a'; reflexivity.
  - destruct a, a'; try discriminate. destruct b'; reflexivity.
  - destruct a, a'; try discriminate. destruct b, b'; try discriminate. reflexivity.
Qed.

Lemma same_val_regular (r n : float) :
  same_val r n ->
  is_nan n = false /\ (is_finite n = true -> regular n = true) ->
  is_nan r = false /\ (is_finite r = true -> regular r = true).
Proof.
  intros [->|Hz] H; [exact H|].
  destruct r; try discriminate. split; [reflexivity|auto].
Qed.

(** ** Sums and differences as rounded dyadic numbers *)

Lemma dy_add (a b e : Z) : (dy (a + b) e == dy a e + dy b e)%Q.
Proof. unfold dy. rewrite inject_Z_plus. ring. Qed.

Lemma dy_sub (a b e : Z) : (dy (a - b) e == dy a e - dy b e)%Q.
Proof.
  replace (a - b) with (a + - b) by lia.
  rewrite dy_add, dy_opp. ring.
Qed.

Lemma to_Q_dy (s : bool) (m : positive) (e : Z) :
  to_Q (S754_finite s m e) = dy (cond_Zopp s (Zpos m)) e.
Proof. reflexivity. Qed.

Lemma to_Q_SFopp (x : float) : (to_Q (SFopp x) == - to_Q x)%Q.
Proof.
  destruct x as [s|s| |s m e]; cbn [SFopp to_Q]; try reflexivity.
  fold (dy (cond_Zopp (negb s) (Zpos m)) e). fold (dy (cond_Zopp s (Zpos m)) e).
  rewrite <- dy_opp. apply dy_eq. destruct s; reflexivity.
Qed.

Lemma regular_SFopp (x : float) : regular (SFopp x) = regular x.
Proof. destruct x; reflexivity. Qed.

Lemma aligned_value (s : bool) (m : positive) (e ez : Z) :
  ez <= e ->
  (dy (cond_Zopp s (Zpos (fst (shl_align m e ez)))) ez ==
   to_Q (S754_finite s m e))%Q.
Proof.
  intros Hle. destruct (shl_align_value m e ez Hle) as [Hm _].
  rewrite Hm, <- cond_Zopp_mul, to_Q_dy. symmetry. apply dy_align. exact Hle.
Qed.

Lemma fadd_repr (x c : float) :
  regular x = true -> regular c = true ->
  exists z e, -149 <= e /\ (dy z e == to_Q x + to_Q c)%Q /\
              same_val (fadd x c) (binary_normalize prec emax z e false).
Proof.
  intros Hx Hc.
  destruct x as [sx|sx| |sx mx ex]; try discriminate.
  - destruct c as [sc|sc| |sc mc ec]; try discriminate.
    + exists 0, 0. split; [lia|]. split; [rewrite dy_0; reflexivity|].
      destruct sx, sc; apply same_val_zero.
    + destruct (binary_normalize_fix _ Hc) as (z & e & He & V & S).
      exists z, e. split; [exact He|]. split; [|exact S].
      rewrite V. cbn [to_Q]. ring.
  - destruct c as [sc|sc| |sc mc ec]; try discriminate.
    + destruct (binary_normalize_fix _ Hx) as (z & e & He & V & S).
      exists z, e. split; [exact He|]. split; [|exact S].
      rewrite V. cbn [to_Q]. ring.
    + destruct (bounded_inv mx ex Hx) as (_ & Hex & _).
      destruct (bounded_inv mc ec Hc) as (_ & Hec & _).
      eexists _, (Z.min ex ec). split; [lia|]. split; [|left; reflexivity].
      rewrite dy_add, !aligned_value by lia. reflexivity.
Qed.

Lemma fsub_repr (x c : float) :
  regular x = true -> regular c = true ->
  exists z e, -149 <= e /\ (dy z e == to_Q x - to_Q c)%Q /\
              same_val (fsub x c) (binary_normalize prec emax z e false).
Proof.
  intros Hx Hc.
  destruct x as [sx|sx| |sx mx ex]; try discriminate.
  - destruct c as [sc|sc| |sc mc ec]; try discriminate.
    + exists 0, 0. split; [lia|]. split; [rewrite dy_0; reflexivity|].
      destruct sx, sc; apply same_val_zero.
    + assert (Hc' : regular (S754_finite (negb sc) mc ec) = true) by exact Hc.
      destruct (binary_normalize_fix _ Hc') as (z & e & He & V & S).
      exists z, e. split; [exact He|]. split; [|exact S].
      rewrite V. change (S754_finite (negb sc) mc ec) with (SFopp (S754_finite sc mc ec)).
      rewrite to_Q_SFopp. cbn [to_Q]. ring.
  - destruct c as [sc|sc| |sc mc ec]; try discriminate.
    + destruct (binary_normalize_fix _ Hx) as (z & e & He & V & S).
      exists z, e. split; [exact He|]. split; [|exact S].
      rewrite V. cbn [to_Q]. ring.
    + destruct (bounded_inv mx ex Hx) as (_ & Hex & _).
      destruct (bounded_inv mc ec Hc) as (_ & Hec & _).
      eexists _, (Z.min ex ec). split; [lia|]. split; [|left; reflexivity].
      rewrite dy_sub, !aligned_value by lia. reflexivity.
Qed.

(** ** Addition and subtraction keep the order of the exact results *)

Lemma fadd_le (x1 c1 x2 c2 : float) :
  regular x1 = true -> regular c1 = true ->
  regular x2 = true -> regular c2 = true ->
  (to_Q x1 + to_Q c1 <= to_Q x2 + to_Q c2)%Q ->
  fle (fadd x1 c1) (fadd x2 c2) = true.
Proof.
  intros Hx1 Hc1 Hx2 Hc2 Hle.
  destruct (fadd_repr x1 c1 Hx1 Hc1) as (z1 & e1 & He1 & V1 & S1).
  destruct (fadd_repr x2 c2 Hx2 Hc2) as (z2 & e2 & He2 & V2 & S2).
  rewrite (fle_same_val _ _ _ _ S1 S2).
  apply binary_normalize_mono; [exact He1|exact He2|].
  rewrite V1, V2. exact Hle.
Qed.

Lemma fsub_le (x1 c1 x2 c2 : float) :
  regular x1 = true -> regular c1 = true ->
  regular x2 = true -> regular c2 = true ->
  (to_Q x1 - to_Q c1 <= to_Q x2 - to_Q c2)%Q ->
  fle (fsub x1 c1) (fsub x2 c2) = true.
Proof.
  intros Hx1 Hc1 Hx2 Hc2 Hle.
  destruct (fsub_repr x1 c1 Hx1 Hc1) as (z1 & e1 & He1 & V1 & S1).
  destruct (fsub_repr x2 c2 Hx2 Hc2) as (z2 & e2 & He2 & V2 & S2).
  rewrite (fle_same_val _ _ _ _ S1 S2).
  apply binary_normalize_mono; [exact He1|exact He2|].
  rewrite V1, V2. exact Hle.
Qed.

Lemma fadd_regular (x c : float) :
  regular x = true -> regular c = true ->
  is_nan (fadd x c) = false /\ (is_finite (fadd x c) = true -> regular (fadd x c) = true).
Proof.
  intros Hx Hc. destruct (fadd_repr x c Hx Hc) as (z & e & _ & _ & S).
  eapply same_val_regular; [exact S|apply binary_normalize_regular].
Qed.

Lemma fsub_regular (x c : float) :
  regular x = true -> regular c = true ->
  is_nan (fsub x c) = false /\ (is_finite (fsub x c) = true -> regular (fsub x c) = true).
Proof.
  intros Hx Hc. destruct (fsub_repr x c Hx Hc) as (z & e & _ & _ & S).
  eapply same_val_regular; [exact S|apply binary_normalize_regular].
Qed.

(** ** Multiplication by a factor between 0 and 1 *)

Lemma dy_mul (a b e f : Z) : (dy (a * b) (e + f) == dy a e * dy b f)%Q.
Proof.
  unfold dy. rewrite inject_Z_mult, Qpower_plus by discriminate. ring.
Qed.

Lemma dy_one : (dy 1 0 == 1)%Q.
Proof. reflexivity. Qed.

Lemma canonical_round (m : positive) (e : Z) :
  bounded prec emax m e = true ->
  round_exp (Zpos m) e = e /\ dropped (Zpos m) e = 0 /\
  rne (Zpos m) (dropped (Zpos m) e) = Zpos m.
Proof.
  intros Hb. unfold bounded, canonical_mantissa in Hb.
  apply andb_prop in Hb. destruct Hb as [Hb _]. apply Z.eqb_eq in Hb.
  unfold dropped, round_exp. cbn [Zdigits2]. rewrite Hb.
  split; [reflexivity|]. rewrite Z.sub_diag. split; [reflexivity|apply rne_0].
Qed.

Lemma positive_sign (s : bool) (m : positive) (e : Z) :
  (0 <= to_Q (S754_finite s m e))%Q -> s = false.
Proof.
  intros H. pose proof (to_Q_finite_sign s m e) as Hs.
  destruct s; [lra|reflexivity].
Qed.

Lemma product_digits (a b : positive) :
  Zpos (digits2_pos a) + Zpos (digits2_pos b) - 1 <= Zpos (digits2_pos (a * b)).
Proof.
  pose proof (digits2_pos_bounds a) as [La _].
  pose proof (digits2_pos_bounds b) as [Lb _].
  pose proof (digits2_pos_bounds (a * b)) as [_ U].
  set (da := Zpos (digits2_pos a)) in *. set (db := Zpos (digits2_pos b)) in *.
  set (d := Zpos (digits2_pos (a * b))) in *.
  assert (Hda : 1 <= da) by (subst da; lia).
  assert (Hdb : 1 <= db) by (subst db; lia).
  assert (Hd : 1 <= d) by (subst d; lia).
  destruct (Z.le_gt_cases (da + db - 1) d) as [H|H]; [exact H|exfalso].
  assert (H1 : 2 ^ d <= 2 ^ (da - 1 + (db - 1))) by (apply Z.pow_le_mono_r; lia).
  rewrite Z.pow_add_r in H1 by lia.
  rewrite Pos2Z.inj_mul in U.
  pose proof (pow2_pos (da - 1) ltac:(lia)). pose proof (pow2_pos (db - 1) ltac:(lia)).
  nia.
Qed.

Lemma product_dropped (a b : positive) (ea eb : Z) :
  bounded prec emax a ea = true -> bounded prec emax b eb = true ->
  0 <= dropped (Zpos (a * b)) (ea + eb).
Proof.
  intros Ha Hb.
  destruct (bounded_inv a ea Ha) as (Hda & Hea & Ca).
  destruct (bounded_inv b eb Hb) as (Hdb & Heb & Cb).
  pose proof (product_digits a b) as Hd.
  assert (1 <= Zpos (digits2_pos a)) by lia.
  assert (1 <= Zpos (digits2_pos b)) by lia.
  unfold dropped, round_exp. cbn [Zdigits2].
  unfold fexp, emin, prec, emax. lia.
Qed.

Lemma fmul_bound (span n : float) :
  regular span = true -> regular n = true ->
  (0 <= to_Q span)%Q -> (0 <= to_Q n <= 1)%Q ->
  regular (fmul span n) = true /\ (0 <= to_Q (fmul span n) <= to_Q span)%Q.
Proof.
  intros Hs Hn Ps [Pn Un].
  destruct span as [ss|ss| |ss ms es]; try discriminate.
  - destruct n as [sn|sn| |sn mn en]; try discriminate;
      (split; [reflexivity|cbn [fmul SFmul to_Q]; lra]).
  - destruct n as [sn|sn| |sn mn en]; try discriminate.
    + split; [reflexivity|].
      change (to_Q (fmul (S754_finite ss ms es) (S754_zero sn))) with 0%Q. lra.
    + pose proof (positive_sign _ _ _ Ps) as ->.
      pose proof (positive_sign _ _ _ Pn) as ->.
      assert (Hbs : bounded prec emax ms es = true) by exact Hs.
      assert (Hbn : bounded prec emax mn en = true) by exact Hn.
      pose proof (product_dropped ms mn es en Hbs Hbn) as K.
      destruct (canonical_round ms es Hbs) as (Er & Ed & Em).
      pose proof (binary_round_aux_stands false (ms * mn) (es + en) K) as St.
      assert (Hle : (dy (rne (Zpos (ms * mn)) (dropped (Zpos (ms * mn)) (es + en)))
                        (round_exp (Zpos (ms * mn)) (es + en)) <= dy (Zpos ms) es)%Q).
      { assert (Hv : (dy (Zpos (ms * mn)) (es + en) <= dy (Zpos ms) es)%Q).
        { rewrite Pos2Z.inj_mul, dy_mul.
          rewrite !to_Q_dy in *. cbn [cond_Zopp] in *.
          pose proof (dy_pos (Zpos ms) es ltac:(lia)). nra. }
        pose proof (round_pair_mono (ms * mn) ms (es + en) es K ltac:(lia) Hv) as H.
        rewrite Em, Er in H. exact H. }
      change (fmul (S754_finite false ms es) (S754_finite false mn en))
        with (binary_round_aux prec emax false (Zpos (ms * mn)) (es + en) loc_Exact).
      rewrite (to_Q_dy false ms es). cbn [cond_Zopp].
      destruct St as [(E & ->)|[(P & _ & B)|(P & Rg & S & Fi & V)]].
      * split; [reflexivity|]. cbn [to_Q].
        pose proof (dy_pos (Zpos ms) es ltac:(lia)). lra.
      * exfalso. pose proof (bounded_below_max ms es Hbs). lra.
      * split; [exact Rg|]. rewrite V. cbn [cond_Zopp].
        pose proof (dy_pos _ (round_exp (Zpos (ms * mn)) (es + en)) P). lra.
Qed.

(** ** Division of a number by a larger one *)

(** A quotient with its location is the quotient of four times the
    mantissa, two binary places further down, cut twice. *)
Lemma shr_1_twice (q d : Z) :
  0 <= q -> 0 <= d <= 3 ->
  shr_1 (shr_1 {| shr_m := 4 * q + d; shr_r := false; shr_s := false |}) =
  {| shr_m := q; shr_r := 2 <=? d; shr_s := Z.odd d |}.
Proof.
  intros Hq Hd.
  assert (C : d = 0 \/ d = 1 \/ d = 2 \/ d = 3) by lia.
  destruct q as [|p|p]; [| |lia]; destruct C as [->|[->|[->| ->]]]; reflexivity.
Qed.

Lemma division_record (q r m2 : Z) :
  0 <= r < m2 ->
  exists d, 0 <= d <= 3 /\ (d = 0 <-> r = 0) /\
    shr_record_of_loc q (new_location m2 r) =
    {| shr_m := q; shr_r := 2 <=? d; shr_s := Z.odd d |}.
Proof.
  intros Hr. unfold new_location.
  destruct (Z.even m2); unfold new_location_even, new_location_odd;
    destruct (Z.eqb_spec r 0) as [E|NE];
    try (exists 0; split; [lia|]; split; [tauto|reflexivity]).
  - destruct (2 * r ?= m2).
    + exists 2. split; [lia|]. split; [lia|reflexivity].
    + exists 1. split; [lia|]. split; [lia|reflexivity].
    + exists 3. split; [lia|]. split; [lia|reflexivity].
  - destruct (2 * r + 1 ?= m2).
    + exists 1. split; [lia|]. split; [lia|reflexivity].
    + exists 1. split; [lia|]. split; [lia|reflexivity].
    + exists 3. split; [lia|]. split; [lia|reflexivity].
Qed.

Lemma shr_two (r : shr_record) (e k : Z) :
  0 <= k -> shr (shr_1 (shr_1 r)) e k = shr r (e - 2) (k + 2).
Proof.
  intros Hk. unfold shr. destruct k as [|p|p]; [| |lia].
  - cbn [Z.add iter_pos]. f_equal. lia.
  - replace (Zpos p + 2) with (Zpos (p + 2)) by lia.
    rewrite !iter_pos_nat, Pos2Nat.inj_add, Nat.iter_add.
    f_equal. lia.
Qed.

Lemma quarter_digits (q d e : Z) :
  0 <= q -> 0 <= d <= 3 -> 0 < 4 * q + d ->
  0 <= fexp prec emax (Zdigits2 q + e) - e ->
  fexp prec emax (Zdigits2 (4 * q + d) + (e - 2)) = fexp prec emax (Zdigits2 q + e).
Proof.
  intros Hq Hd Hpos K.
  assert (C : d = 0 \/ d = 1 \/ d = 2 \/ d = 3) by lia.
  destruct q as [|p|p]; [| |lia].
  - change (Zdigits2 0) with 0 in *. unfold fexp, emin, prec, emax in *.
    destruct C as [->|[->|[->| ->]]];
      [lia
      |change (Zdigits2 (4 * 0 + 1)) with 1
      |change (Zdigits2 (4 * 0 + 2)) with 2
      |change (Zdigits2 (4 * 0 + 3)) with 2]; lia.
  - destruct C as [->|[->|[->| ->]]];
      [change (4 * Zpos p + 0) with (Zpos p~0~0)
      |change (4 * Zpos p + 1) with (Zpos p~0~1)
      |change (4 * Zpos p + 2) with (Zpos p~1~0)
      |change (4 * Zpos p + 3) with (Zpos p~1~1)];
      cbn [Zdigits2 digits2_pos]; rewrite !Pos2Z.inj_succ; f_equal; lia.
Qed.

Lemma binary_round_aux_quarter (s : bool) (q e d : Z) (l : location) :
  0 <= q -> 0 <= d <= 3 -> 0 < 4 * q + d ->
  shr_record_of_loc q l = {| shr_m := q; shr_r := 2 <=? d; shr_s := Z.odd d |} ->
  0 <= fexp prec emax (Zdigits2 q + e) - e ->
  0 <= dropped (4 * q + d) (e - 2) /\
  binary_round_aux prec emax s q e l =
  binary_round_aux prec emax s (4 * q + d) (e - 2) loc_Exact.
Proof.
  intros Hq Hd Hpos Hrec K.
  pose proof (quarter_digits q d e Hq Hd Hpos K) as HF.
  split; [unfold dropped, round_exp; rewrite HF; lia|].
  unfold binary_round_aux, shr_fexp. rewrite HF, Hrec.
  rewrite <- (shr_1_twice q d Hq Hd).
  rewrite (shr_two _ e _ K). cbn [shr_record_of_loc].
  replace (fexp prec emax (Zdigits2 q + e) - (e - 2))
    with (fexp prec emax (Zdigits2 q + e) - e + 2) by lia.
  reflexivity.
Qed.

Lemma quotient_bound (mn md : positive) (en ed : Z) :
  bounded prec emax mn en = true -> bounded prec emax md ed = true ->
  (dy (Zpos mn) en <= dy (Zpos md) ed)%Q ->
  regular (fdiv (S754_finite false mn en) (S754_finite false md ed)) = true /\
  (0 <= to_Q (fdiv (S754_finite false mn en) (S754_finite false md ed)) <= 1)%Q.
Proof.
  intros Hbn Hbd Hle.
  pose proof (digits2_pos_bounds mn) as [L1 U1].
  pose proof (digits2_pos_bounds md) as [L2 U2].
  assert (Hmag : Zpos (digits2_pos mn) + en <= Zpos (digits2_pos md) + ed).
  { pose proof (dy_digits mn en) as [Ln _]. pose proof (dy_digits md ed) as [_ Ud].
    assert (Hlt : (dy 1 (Zpos (digits2_pos mn) - 1 + en) <
                   dy 1 (Zpos (digits2_pos md) + ed))%Q) by lra.
    apply dy_pow_lt_inv in Hlt. lia. }
  unfold fdiv, SFdiv, SFdiv_core_binary. cbn [xorb Zdigits2]. cbv zeta.
  set (d1 := Zpos (digits2_pos mn)) in *. set (d2 := Zpos (digits2_pos md)) in *.
  assert (Hd1 : 1 <= d1) by (subst d1; lia).
  assert (Hd2 : 1 <= d2) by (subst d2; lia).
  destruct (bounded_inv mn en Hbn) as (Hd1' & _ & _). fold d1 in Hd1'.
  destruct (bounded_inv md ed Hbd) as (Hd2' & _ & _). fold d2 in Hd2'.
  set (F0 := fexp prec emax (d1 + en - (d2 + ed))).
  set (e' := Z.min F0 (en - ed)).
  assert (HF0 : F0 = Z.max (d1 + en - (d2 + ed) - 24) (-149)) by reflexivity.
  assert (He' : e' <= -24) by (subst e'; lia).
  set (sh := en - ed - e').
  assert (Hsh : 0 <= sh) by (subst sh e'; lia).
  assert (Em : match sh with
               | 0 => Zpos mn
               | Zpos _ => Z.shiftl (Zpos mn) sh
               | Zneg _ => 0
               end = Zpos mn * 2 ^ sh).
  { destruct sh eqn:E; [now rewrite Z.mul_1_r| |lia].
    apply Z.shiftl_mul_pow2. lia. }
  rewrite Em. clear Em.
  pose proof (Z_div_mod (Zpos mn * 2 ^ sh) (Zpos md) ltac:(lia)) as Hdiv.
  destruct (Z.div_eucl (Zpos mn * 2 ^ sh) (Zpos md)) as [q r].
  destruct Hdiv as [Eq Hr].
  pose proof (pow2_pos sh Hsh) as Psh.
  assert (Hq : 0 <= q) by nia.
  (* the dividend is at most the divisor times 2^(-e') *)
  pose proof (pow2_pos (- e') ltac:(lia)) as PA.
  assert (Hnum : Zpos mn * 2 ^ sh <= Zpos md * 2 ^ (- e')).
  { apply (dy_le _ _ (ed + e')).
    rewrite !dy_shift by lia.
    replace (ed + e' + sh) with en by (subst sh; lia).
    replace (ed + e' + - e') with ed by lia. exact Hle. }
  assert (HqA : q <= 2 ^ (- e')) by nia.
  (* the quotient is cut at or above its last place *)
  assert (K : 0 <= fexp prec emax (Zdigits2 q + e') - e').
  { destruct q as [|pq|pq]; [| |lia].
    - cbn [Zdigits2].
      assert (F0 = -149).
      { destruct (Z.eq_dec F0 (-149)) as [E|NE]; [exact E|exfalso].
        assert (Hs : d2 - d1 + 24 <= sh) by (subst sh e'; lia).
        assert (2 ^ (d2 - d1 + 24) <= 2 ^ sh) by (apply Z.pow_le_mono_r; lia).
        assert (2 ^ (d1 - 1) * 2 ^ (d2 - d1 + 24) = 2 ^ (d2 + 23))
          by (rewrite <- Z.pow_add_r by lia; f_equal; lia).
        assert (2 ^ d2 <= 2 ^ (d2 + 23)) by (apply Z.pow_le_mono_r; lia).
        nia. }
      unfold fexp, emin, prec, emax. subst e'. lia.
    - cbn [Zdigits2].
      pose proof (digits2_pos_bounds pq) as [Lq Uq].
      set (dq := Zpos (digits2_pos pq)) in *.
      assert (Hdq : d1 + sh - d2 <= dq).
      { destruct (Z.le_gt_cases (d1 + sh - d2) dq) as [H|H]; [exact H|exfalso].
        assert (H1 : 2 ^ (d2 + dq) <= 2 ^ (d1 - 1 + sh)) by (apply Z.pow_le_mono_r; lia).
        rewrite !Z.pow_add_r in H1 by lia.
        pose proof (pow2_pos (d1 - 1) ltac:(lia)).
        assert (Zpos md * (Zpos pq + 1) <= 2 ^ d2 * 2 ^ dq) by nia.
        nia. }
      unfold fexp, emin, prec, emax in *. subst sh e'. lia. }
  destruct (division_record q r (Zpos md) Hr) as (d & Hd & Hd0 & Hrec).
  assert (Hpos : 0 < 4 * q + d).
  { destruct (Z.eq_dec q 0) as [E|NE]; [|lia].
    subst q. assert (r <> 0) by nia. lia. }
  destruct (binary_round_aux_quarter false q e' d _ Hq Hd Hpos Hrec K) as [Kd ->].
  assert (H4 : 4 * q + d <= 4 * 2 ^ (- e')).
  { destruct (Z.eq_dec q (2 ^ (- e'))) as [E|NE]; [|lia].
    assert (r = 0) by nia. lia. }
  destruct (4 * q + d) as [|z|z] eqn:Ez; try lia.
  pose proof (binary_round_aux_stands false z (e' - 2) Kd) as St.
  assert (Hone : (dy (rne (Zpos z) (dropped (Zpos z) (e' - 2)))
                     (round_exp (Zpos z) (e' - 2)) <= 1)%Q).
  { assert (Hb1 : bounded prec emax 8388608 (-23) = true) by reflexivity.
    destruct (canonical_round 8388608 (-23) Hb1) as (Er & Ed & Em).
    assert (Hv : (dy (Zpos z) (e' - 2) <= dy (Zpos 8388608) (-23))%Q).
    { apply Qle_trans with (dy (4 * 2 ^ (- e')) (e' - 2)); [apply dy_le; exact H4|].
      replace (4 * 2 ^ (- e')) with (1 * 2 ^ (2 - e'))
        by (rewrite Z.mul_1_l; replace (2 - e') with (2 + - e') by lia;
            rewrite Z.pow_add_r by lia; reflexivity).
      rewrite dy_shift by lia. replace (e' - 2 + (2 - e')) with 0 by lia.
      apply Qle_lteq. right. reflexivity. }
    pose proof (round_pair_mono z 8388608 (e' - 2) (-23) Kd ltac:(lia) Hv) as H.
    rewrite Em, Er in H.
    assert (E1 : (dy (Zpos 8388608) (-23) == 1)%Q) by (vm_compute; reflexivity).
    rewrite E1 in H. exact H. }
  destruct St as [(E & ->)|[(P & _ & B)|(P & Rg & S & Fi & V)]].
  - split; [reflexivity|]. cbn [to_Q]. lra.
  - exfalso. assert (Hbig : (1 < dy 1 128)%Q) by reflexivity. lra.
  - split; [exact Rg|]. rewrite V. cbn [cond_Zopp].
    pose proof (dy_pos _ (round_exp (Zpos z) (e' - 2)) P). lra.
Qed.

Lemma fdiv_bound (num den : float) :
  regular num = true -> regular den = true ->
  (0 <= to_Q num <= to_Q den)%Q -> (0 < to_Q den)%Q ->
  regular (fdiv num den) = true /\ (0 <= to_Q (fdiv num den) <= 1)%Q.
Proof.
  intros Hn Hd [Pn Un] Pd.
  destruct den as [sd|sd| |sd md ed]; try discriminate.
  pose proof (positive_sign _ _ _ (Qlt_le_weak _ _ Pd)) as ->.
  destruct num as [sn|sn| |sn mn en]; try discriminate.
  - split; [reflexivity|].
    change (to_Q (fdiv (S754_zero sn) (S754_finite false md ed))) with 0%Q. lra.
  - pose proof (positive_sign _ _ _ Pn) as ->.
    apply quotient_bound; [exact Hn|exact Hd|exact Un].
Qed.

End OpFacts.

(* ================================================================== *)
(** * The tick as a whole *)
(* ================================================================== *)

Module TickExtras.

Import TxPID TxPIDPrim TxPIDSpec TxPIDTrace ComparatorFacts LoopFacts TableFacts
       SlotFacts TickFacts FrameFacts SteadyFacts CoupledFacts.

Lemma loaded_bank_modes mode bus b0 :
  loaded_bank mode bus = Some b0 ->
  (mode = 0 /\ b0 = obj_StabilizationSettingsBank1 bus) \/
  ((mode = 1 \/ mode = 2) /\ b0 = obj_StabilizationSettingsBank2 bus).
Proof.
  unfold loaded_bank.
  destruct mode as [|[[p|p|]|[p|p|]|]|p]; cbn; try discriminate; intros [= <-]; auto.
Qed.

(** The write-back in full: the calls it makes and the store it leaves. *)
Lemma publish_run mode l bus b0 :
  loaded_bank mode bus = Some b0 ->
  exists bus' t',
    publish mode l bus = (Done tt, bus', t') /\
    t' = (if needsUpdateStab l =? 0 then [] else [StabilizationSettingsSet (stab l)]) ++
         (if needsUpdateBank l =? 0 then []
          else [if mode =? 0 then StabilizationSettingsBank1Set (bank l)
                else StabilizationSettingsBank2Set (bank l)]) /\
    obj_StabilizationSettings bus' =
      (if needsUpdateStab l =? 0 then obj_StabilizationSettings bus else stab l) /\
    obj_StabilizationSettingsBank1 bus' =
      (if (needsUpdateBank l =? 0) || negb (mode =? 0)
       then obj_StabilizationSettingsBank1 bus else bank l) /\
    obj_StabilizationSettingsBank2 bus' =
      (if (needsUpdateBank l =? 0) || (mode =? 0)
       then obj_StabilizationSettingsBank2 bus else bank l).
Proof.
  unfold publish, loaded_bank.
  destruct mode as [|[[p|p|]|[p|p|]|]|p]; cbn; try discriminate; intros [= <-];
    destruct (needsUpdateStab l =? 0), (needsUpdateBank l =? 0); cbn;
    eexists _, _; repeat split; reflexivity.
Qed.

Section Tick.

Variable hdr : Headers.

(** The two ways a tick runs. *)
Lemma tick_cases ev bus :
  (exists t, updatePIDs hdr ev bus = (Done tt, bus, t) /\ filter is_write t = [] /\
             (passes_gates hdr ev bus = false \/
              loaded_bank (UpdateMode (obj_TxPIDSettings bus)) bus = None)) \/
  (exists b0 pre r t,
      passes_gates hdr ev bus = true /\
      loaded_bank (UpdateMode (obj_TxPIDSettings bus)) bus = Some b0 /\
      filter is_write pre = [] /\ filter is_write t = [] /\
      slots hdr (obj_TxPIDSettings bus) (seq 0 (TXPIDSETTINGS_PIDS_NUMELEM hdr))
            (locals0 b0 bus) bus = (r, bus, t) /\
      match r with
      | Done l =>
          exists bus' t',
            publish (UpdateMode (obj_TxPIDSettings bus)) l bus = (Done tt, bus', t') /\
            updatePIDs hdr ev bus = (Done tt, bus', pre ++ t ++ t')
      | AssertFailed => updatePIDs hdr ev bus = (AssertFailed, bus, pre ++ t)
      end).
Proof.
  destruct (passes_gates hdr ev bus) eqn:Hg;
    [destruct (loaded_bank (UpdateMode (obj_TxPIDSettings bus)) bus) as [b0|] eqn:Hb|].
  - right. destruct (tick_open hdr ev bus b0 Hg Hb) as (pre & r & t & H1 & H2 & H3 & H4).
    exists b0, pre, r, t. repeat (split; [assumption || reflexivity|]). assumption.
  - left. destruct (tick_closed hdr ev bus (or_intror Hb)) as (t & E & Ht).
    exists t. auto.
  - left. destruct (tick_closed hdr ev bus (or_introl Hg)) as (t & E & Ht).
    exists t. auto.
Qed.

Lemma passes_gates_inv ev bus :
  passes_gates hdr ev bus = true ->
  obj ev = AccessoryDesiredHandle hdr /\
  UpdateMode (obj_TxPIDSettings bus) <> TXPIDSETTINGS_UPDATEMODE_NEVER hdr /\
  ~ (UpdateMode (obj_TxPIDSettings bus) = TXPIDSETTINGS_UPDATEMODE_WHENARMED hdr /\
     obj_FlightStatusArmed bus = FLIGHTSTATUS_ARMED_DISARMED hdr).
Proof.
  unfold passes_gates. intros H.
  apply andb_prop in H as [H H3]. apply andb_prop in H as [H1 H2].
  apply negb_true_iff in H2, H3.
  apply Z.eqb_eq in H1. apply Z.eqb_neq in H2.
  repeat split; auto.
  intros [Ha Hb]. apply Z.eqb_eq in Ha, Hb. rewrite Ha, Hb in H3. discriminate.
Qed.

(** X1: what it takes for a tick to touch the object store.  A tick that
    makes any call was triggered by the AccessoryDesired object.  A tick
    that makes a Set call ran with an update mode that is not Never, was
    not held back by the armed gate, and had 0, 1 or 2 as update mode. *)
Theorem tick_access_conditions (ev : UAVObjEvent) (bus : Bus) :
  (trace_of hdr ev bus <> [] -> obj ev = AccessoryDesiredHandle hdr) /\
  (writes_of hdr ev bus <> [] ->
   UpdateMode (obj_TxPIDSettings bus) <> TXPIDSETTINGS_UPDATEMODE_NEVER hdr /\
   ~ (UpdateMode (obj_TxPIDSettings bus) = TXPIDSETTINGS_UPDATEMODE_WHENARMED hdr /\
      obj_FlightStatusArmed bus = FLIGHTSTATUS_ARMED_DISARMED hdr) /\
   (UpdateMode (obj_TxPIDSettings bus) = 0 \/
    UpdateMode (obj_TxPIDSettings bus) = 1 \/
    UpdateMode (obj_TxPIDSettings bus) = 2)).
Proof.
  split.
  - unfold trace_of, updatePIDs.
    destruct (Z.eqb_spec (obj ev) (AccessoryDesiredHandle hdr)) as [E|E]; [auto|].
    cbn. congruence.
  - unfold writes_of, trace_of. intros Hw.
    destruct (tick_cases ev bus) as [(t & E & Ht & _)|(b0 & pre & r & t & Hg & Hb & _)].
    + rewrite E in Hw. cbn [snd] in Hw. contradiction.
    + destruct (passes_gates_inv ev bus Hg) as (_ & H2 & H3).
      split; [exact H2|]. split; [exact H3|].
      destruct (loaded_bank_modes _ _ _ Hb) as [[? _]|[[?|?] _]]; auto.
Qed.

(** X2: the Set calls of a tick, in order.  The settings are written
    before the bank; each Set call carries the record that the object
    store holds after the tick; the bank that is written is bank 1 for
    update mode 0 and bank 2 for update modes 1 and 2; and a record for
    which no Set call is made is the same after the tick as before. *)
Theorem writes_settings_then_bank (ev : UAVObjEvent) (bus : Bus) :
  let bus' := bus_after hdr ev bus in
  let mode := UpdateMode (obj_TxPIDSettings bus) in
  exists ws wb,
    writes_of hdr ev bus = ws ++ wb /\
    (ws = [] /\ obj_StabilizationSettings bus' = obj_StabilizationSettings bus \/
     ws = [StabilizationSettingsSet (obj_StabilizationSettings bus')]) /\
    (wb = [] /\
     obj_StabilizationSettingsBank1 bus' = obj_StabilizationSettingsBank1 bus /\
     obj_StabilizationSettingsBank2 bus' = obj_StabilizationSettingsBank2 bus \/
     mode = 0 /\
     wb = [StabilizationSettingsBank1Set (obj_StabilizationSettingsBank1 bus')] /\
     obj_StabilizationSettingsBank2 bus' = obj_StabilizationSettingsBank2 bus \/
     (mode = 1 \/ mode = 2) /\
     wb = [StabilizationSettingsBank2Set (obj_StabilizationSettingsBank2 bus')] /\
     obj_StabilizationSettingsBank1 bus' = obj_StabilizationSettingsBank1 bus).
Proof.
  cbv zeta. unfold writes_of, trace_of, bus_after.
  destruct (tick_cases ev bus)
    as [(t & E & Ht & _)|(b0 & pre & r & t & Hg & Hb & Hpre & Ht & Hs & Hr)].
  - rewrite E. cbn [fst snd]. exists [], []. rewrite Ht. auto 8.
  - destruct r as [l|].
    + destruct Hr as (bus' & t' & Hp & E).
      destruct (publish_run _ l bus b0 Hb) as (bus2 & t2 & Hp2 & Ht2 & H1 & H2 & H3).
      rewrite Hp in Hp2. injection Hp2 as <- <-.
      rewrite E. cbn [fst snd]. rewrite !filter_app, Hpre, Ht. cbn [app].
      rewrite Ht2, filter_app.
      eexists _, _. split; [reflexivity|].
      rewrite H1, H2, H3.
      destruct (loaded_bank_modes _ _ _ Hb) as [[Hm _]|[Hm _]].
      * rewrite Hm. cbn [Z.eqb negb orb].
        destruct (needsUpdateStab l =? 0), (needsUpdateBank l =? 0); cbn; auto 8.
      * assert (Hm0 : (UpdateMode (obj_TxPIDSettings bus) =? 0) = false)
          by (apply Z.eqb_neq; destruct Hm as [-> | ->]; discriminate).
        rewrite Hm0. cbn [negb orb].
        destruct (needsUpdateStab l =? 0), (needsUpdateBank l =? 0); cbn;
          rewrite ?orb_true_r; auto 8.
    + rewrite Hr. cbn [fst snd]. exists [], [].
      rewrite filter_app, Hpre, Ht. auto 8.
Qed.

(** X3: a tick never changes what it reads as input: the TxPID settings,
    the armed state, the throttle and the accessory instances are the same
    after the tick as before. *)
Theorem tick_keeps_inputs (ev : UAVObjEvent) (bus : Bus) :
  let bus' := bus_after hdr ev bus in
  obj_TxPIDSettings bus' = obj_TxPIDSettings bus /\
  obj_FlightStatusArmed bus' = obj_FlightStatusArmed bus /\
  obj_Throttle bus' = obj_Throttle bus /\
  obj_AccessoryDesired bus' = obj_AccessoryDesired bus.
Proof.
  cbv zeta. unfold bus_after.
  destruct (tick_cases ev bus)
    as [(t & E & Ht & _)|(b0 & pre & r & t & Hg & Hb & Hpre & Ht & Hs & Hr)].
  - rewrite E. auto.
  - destruct r as [l|].
    + destruct Hr as (bus' & t' & Hp & E).
      destruct (publish_result _ l bus b0 Hb) as (bus2 & t2 & Hp2 & _ & _ & H).
      rewrite Hp in Hp2. injection Hp2 as <- <-.
      rewrite E. exact H.
    + rewrite Hr. auto.
Qed.

(** ** The assertion *)

(** The loop stops at the assertion exactly when some slot is enabled,
    has its input, and carries an option outside the [switch]. *)
Lemma slots_assert inst bus idx : forall l,
  (exists t, slots hdr inst idx l bus = (AssertFailed, bus, t)) <->
  (exists i raw, In i idx /\ resolved hdr inst bus i = true /\
                 pid_at inst i = TXPIDSETTINGS_PIDS_other raw).
Proof.
  induction idx as [|i idx IH]; intros l.
  - split; [intros [t H]; discriminate|intros (i & raw & [] & _)].
  - cbn [slots]. unfold bind.
    destruct (slot_run hdr inst i l bus) as (t1 & _ & Hslot). rewrite Hslot.
    unfold resolved in *.
    destruct (slot_value hdr inst bus i) as [v|] eqn:Hv.
    + destruct (targets (pid_at inst i)) as [fs|] eqn:Ht.
      * destruct (slots_read_only hdr inst idx (update_fields fs v l) bus)
          as (r2 & t2 & E2 & _).
        rewrite E2. split.
        -- intros [t H]. injection H as -> _.
           destruct (proj1 (IH _) (ex_intro _ t2 E2)) as (j & raw & Hj & Hr).
           exists j, raw. split; [now right|exact Hr].
        -- intros (j & raw & [<-|Hj] & Hr & Hp).
           ++ rewrite Hp in Ht. discriminate.
           ++ destruct (proj2 (IH (update_fields fs v l))) as [t E].
              { exists j, raw. auto. }
              rewrite E in E2. injection E2 as <- _. eauto.
      * split; [intros _|eauto].
        pose proof Hv as Hv'. unfold slot_value in Hv'.
        destruct (pid_at inst i) eqn:Hp; cbn in Ht, Hv'; try discriminate.
        exists i, raw. rewrite Hv. cbn. auto.
    + destruct (slots_read_only hdr inst idx l bus) as (r2 & t2 & E2 & _).
      rewrite E2. split.
      * intros [t H]. injection H as -> _.
        destruct (proj1 (IH _) (ex_intro _ t2 E2)) as (j & raw & Hj & Hr).
        exists j, raw. split; [now right|exact Hr].
      * intros (j & raw & [<-|Hj] & Hr & Hp).
        -- rewrite Hv in Hr. discriminate.
        -- destruct (proj2 (IH l)) as [t E].
           { exists j, raw. auto. }
           rewrite E in E2. injection E2 as <- _. eauto.
Qed.

(** X4: the assertion of the [default] label.  A tick stops at
    [PIOS_Assert(0)] exactly when it passes its early returns with update
    mode 0, 1 or 2 and some slot below [TXPIDSETTINGS_PIDS_NUMELEM] is
    enabled, has its input, and carries an option that the [switch] does
    not list.  Such a tick makes no Set call and leaves the object store
    as it was: what earlier slots had changed in the local copies is
    lost. *)
Theorem assertion_discards_tick (ev : UAVObjEvent) (bus : Bus) :
  (outcome hdr ev bus = AssertFailed <->
   passes_gates hdr ev bus = true /\
   (UpdateMode (obj_TxPIDSettings bus) = 0 \/
    UpdateMode (obj_TxPIDSettings bus) = 1 \/
    UpdateMode (obj_TxPIDSettings bus) = 2) /\
   exists i raw,
     (i < TXPIDSETTINGS_PIDS_NUMELEM hdr)%nat /\
     resolved hdr (obj_TxPIDSettings bus) bus i = true /\
     pid_at (obj_TxPIDSettings bus) i = TXPIDSETTINGS_PIDS_other raw) /\
  (outcome hdr ev bus = AssertFailed ->
   writes_of hdr ev bus = [] /\ bus_after hdr ev bus = bus).
Proof.
  unfold outcome, writes_of, trace_of, bus_after.
  destruct (tick_cases ev bus)
    as [(t & E & Ht & Hc)|(b0 & pre & r & t & Hg & Hb & Hpre & Ht & Hs & Hr)].
  - rewrite E. cbn [fst snd]. split; [|discriminate].
    split; [discriminate|]. intros (Hg & Hm & _).
    destruct Hc as [Hc|Hc]; [congruence|].
    unfold loaded_bank in Hc.
    destruct Hm as [Hm|[Hm|Hm]]; rewrite Hm in Hc; discriminate.
  - pose proof (slots_assert (obj_TxPIDSettings bus) bus
                  (seq 0 (TXPIDSETTINGS_PIDS_NUMELEM hdr)) (locals0 b0 bus)) as Ha.
    assert (Hm : UpdateMode (obj_TxPIDSettings bus) = 0 \/
                 UpdateMode (obj_TxPIDSettings bus) = 1 \/
                 UpdateMode (obj_TxPIDSettings bus) = 2).
    { destruct (loaded_bank_modes _ _ _ Hb) as [[? _]|[[?|?] _]]; auto. }
    destruct r as [l|].
    + destruct Hr as (bus' & t' & Hp & E). rewrite E. cbn [fst snd].
      split; [|discriminate]. split; [discriminate|].
      intros (_ & _ & i & raw & Hi & Hres & Hpid).
      destruct (proj2 Ha) as [t3 E3].
      { exists i, raw. split; [apply in_seq; lia|auto]. }
      rewrite E3 in Hs. discriminate.
    + rewrite Hr. cbn [fst snd]. rewrite filter_app, Hpre, Ht.
      split; [|auto]. split; [|reflexivity]. intros _.
      split; [exact Hg|]. split; [exact Hm|].
      destruct (proj1 Ha (ex_intro _ t Hs)) as (i & raw & Hi & Hres).
      exists i, raw. apply in_seq in Hi. split; [lia|exact Hres].
Qed.

(** ** Where the content of a destination comes from *)

Lemma differs_not_nan (var val : float) :
  differs var val = true -> is_nan val = false.
Proof.
  unfold differs, fgt, fabsf, fsub.
  destruct val as [s|s| |s m e]; try reflexivity.
  destruct var as [s|s| |s m e]; cbn; discriminate.
Qed.

Lemma writes_field_true pid f fs :
  targets pid = Some fs -> writes_field pid f = true -> In f fs.
Proof.
  unfold writes_field. intros ->. intros H.
  apply existsb_exists in H as (g & Hg & E).
  apply Field_eqb_eq in E. now subst.
Qed.

Lemma slots_provenance inst bus f idx : forall l l' t,
  slots hdr inst idx l bus = (Done l', bus, t) ->
  read_field f l' = read_field f l \/
  exists i, In i idx /\
            slot_value hdr inst bus i = Some (read_field f l') /\
            writes_field (pid_at inst i) f = true /\
            is_nan (read_field f l') = false.
Proof.
  induction idx as [|i idx IH]; intros l l' t Hrun.
  - cbn in Hrun. injection Hrun as <- _. now left.
  - destruct (slots_cons _ _ _ _ _ _ _ _ Hrun) as (l1 & t1 & t2 & _ & Hrest & Hl1).
    destruct (IH _ _ _ Hrest) as [E|(j & Hj & H)].
    2:{ right. exists j. split; [now right|exact H]. }
    destruct Hl1 as [->|(v & fs & Hv & Ht & ->)]; [now left|].
    destruct (writes_field (pid_at inst i) f) eqn:Hw.
    + pose proof (writes_field_true _ _ _ Ht Hw) as Hin.
      rewrite (read_update_fields_same fs f v l (targets_NoDup _ _ Ht) Hin) in E.
      rewrite update_stores in E.
      destruct (differs (read_field f l) v) eqn:Hd; [|now left].
      right. exists i. rewrite E.
      split; [now left|]. split; [exact Hv|]. split; [exact Hw|].
      exact (differs_not_nan _ _ Hd).
    + left. rewrite E. apply read_update_fields_other.
      eapply writes_field_false; eassumption.
Qed.

(** After a tick that loaded the bank [b0] and completed its loop with
    the locals [l], the store holds the records of [l]. *)
Lemma tick_stores_locals ev bus b0 l t :
  passes_gates hdr ev bus = true ->
  loaded_bank (UpdateMode (obj_TxPIDSettings bus)) bus = Some b0 ->
  slots hdr (obj_TxPIDSettings bus) (seq 0 (TXPIDSETTINGS_PIDS_NUMELEM hdr))
        (locals0 b0 bus) bus = (Done l, bus, t) ->
  forall f, stored_field (bus_after hdr ev bus) f = Some (read_field f l).
Proof.
  intros Hg Hb Hs f.
  destruct (tick_open hdr ev bus b0 Hg Hb) as (pre & r & t0 & _ & _ & Hs' & Hr).
  rewrite Hs in Hs'. injection Hs' as <- <-.
  destruct Hr as (bus' & t' & Hp & E).
  destruct (publish_result (UpdateMode (obj_TxPIDSettings bus)) l bus b0 Hb)
    as (bus2 & t2 & Hp2 & Hlb & Hst & Hi & _).
  rewrite Hp in Hp2. injection Hp2 as <- <-.
  unfold bus_after. rewrite E. cbn [fst snd].
  unfold stored_field. rewrite Hi, Hlb. f_equal.
  destruct (slots_unflagged hdr _ _ _ _ _ _ Hs) as [Ub Us].
  destruct (is_bank_field f) eqn:Hf.
  - apply bank_of_read; [exact Hf|]. cbn [locals0 bank].
    destruct (Z.eqb_spec (needsUpdateBank l) 0) as [Z0|Z0]; [|reflexivity].
    destruct (Ub Z0) as [_ ->]. reflexivity.
  - apply stab_of_read; [exact Hf|]. cbn [locals0 stab]. rewrite Hst.
    destruct (Z.eqb_spec (needsUpdateStab l) 0) as [Z0|Z0]; [|reflexivity].
    destruct (Us Z0) as [_ ->]. reflexivity.
Qed.

(** X5: where the content of a destination comes from.  After a tick, each
    coefficient of the selected bank and the gyro time constant holds
    either what it held before the tick, or the scaled value of a slot
    that names it; and a content that the tick has put there is not a
    NaN.  In particular a destination that no slot names is unchanged. *)
Theorem stored_field_provenance (ev : UAVObjEvent) (bus : Bus) (f : Field) :
  stored_field (bus_after hdr ev bus) f = stored_field bus f \/
  exists i v,
    (i < TXPIDSETTINGS_PIDS_NUMELEM hdr)%nat /\
    slot_value hdr (obj_TxPIDSettings bus) bus i = Some v /\
    writes_field (pid_at (obj_TxPIDSettings bus) i) f = true /\
    stored_field (bus_after hdr ev bus) f = Some v /\
    is_nan v = false.
Proof.
  destruct (tick_cases ev bus)
    as [(t & E & Ht & Hc)|(b0 & pre & r & t & Hg & Hb & Hpre & Ht & Hs & Hr)].
  - left. unfold bus_after. rewrite E. reflexivity.
  - destruct r as [l|].
    + rewrite (tick_stores_locals ev bus b0 l t Hg Hb Hs f).
      unfold stored_field at 1. rewrite Hb.
      destruct (slots_provenance _ _ f _ _ _ _ Hs) as [E|(i & Hi & Hv & Hw & Hn)].
      * left. now rewrite E.
      * right. exists i, (read_field f l). apply in_seq in Hi.
        repeat split; try assumption. lia.
    + left. unfold bus_after. rewrite Hr. reflexivity.
Qed.

(** ** Which record is written *)

Lemma update_fields_flags_kept fs value : forall l,
  (forallb is_bank_field fs = true ->
   needsUpdateStab (update_fields fs value l) = needsUpdateStab l) /\
  (forallb (fun f => negb (is_bank_field f)) fs = true ->
   needsUpdateBank (update_fields fs value l) = needsUpdateBank l).
Proof.
  induction fs as [|f fs IH]; intros l; [cbn; auto|].
  cbn [update_fields fold_left forallb].
  fold (update_fields fs value (update_field f value l)).
  destruct (IH (update_field f value l)) as [IHs IHb].
  split; intros H; apply andb_prop in H as [Hf Hrest].
  - rewrite (IHs Hrest), update_field_stab_flag, Hf. reflexivity.
  - apply negb_true_iff in Hf.
    rewrite (IHb Hrest), update_field_bank_flag, Hf. reflexivity.
Qed.

Lemma slots_flags_kept inst bus idx : forall l l' t,
  slots hdr inst idx l bus = (Done l', bus, t) ->
  ((forall j, In j idx -> pid_at inst j <> TXPIDSETTINGS_PIDS_GYROTAU) ->
   needsUpdateStab l' = needsUpdateStab l) /\
  ((forall j, In j idx -> pid_at inst j = TXPIDSETTINGS_PIDS_GYROTAU \/
                          pid_at inst j = TXPIDSETTINGS_PIDS_DISABLED) ->
   needsUpdateBank l' = needsUpdateBank l).
Proof.
  induction idx as [|i idx IH]; intros l l' t Hrun.
  - cbn in Hrun. injection Hrun as <- _. auto.
  - destruct (slots_cons _ _ _ _ _ _ _ _ Hrun) as (l1 & t1 & t2 & _ & Hrest & Hl1).
    destruct (IH _ _ _ Hrest) as [IHs IHb].
    split; intros H.
    + rewrite IHs by (intros j Hj; apply H; now right).
      destruct Hl1 as [->|(v & fs & _ & Ht & ->)]; [reflexivity|].
      apply update_fields_flags_kept.
      specialize (H i (or_introl eq_refl)).
      destruct (pid_at inst i); cbn in Ht; try congruence; injection Ht as <-;
        reflexivity.
    + rewrite IHb by (intros j Hj; apply H; now right).
      destruct Hl1 as [->|(v & fs & _ & Ht & ->)]; [reflexivity|].
      apply update_fields_flags_kept.
      destruct (H i (or_introl eq_refl)) as [E|E]; rewrite E in Ht;
        [injection Ht as <-; reflexivity|discriminate].
Qed.

(** X6: which record a tick can write.  When no slot carries the option
    GyroTau the tick makes no Set call on the stabilization settings; when
    every slot carries GyroTau or Disabled it makes no Set call on a
    bank. *)
Theorem record_written_only_if_named (ev : UAVObjEvent) (bus : Bus) :
  let inst := obj_TxPIDSettings bus in
  ((forall j, (j < TXPIDSETTINGS_PIDS_NUMELEM hdr)%nat ->
              pid_at inst j <> TXPIDSETTINGS_PIDS_GYROTAU) ->
   filter is_settings_write (trace_of hdr ev bus) = []) /\
  ((forall j, (j < TXPIDSETTINGS_PIDS_NUMELEM hdr)%nat ->
              pid_at inst j = TXPIDSETTINGS_PIDS_GYROTAU \/
              pid_at inst j = TXPIDSETTINGS_PIDS_DISABLED) ->
   filter is_bank_write (trace_of hdr ev bus) = []).
Proof.
  cbv zeta. unfold trace_of.
  assert (Hsub : forall t, filter is_write t = [] ->
                 filter is_settings_write t = [] /\ filter is_bank_write t = []).
  { induction t as [|op t IH]; [auto|].
    destruct op; cbn; try discriminate; exact IH. }
  destruct (tick_cases ev bus)
    as [(t & E & Ht & Hc)|(b0 & pre & r & t & Hg & Hb & Hpre & Ht & Hs & Hr)].
  - rewrite E. cbn [snd]. destruct (Hsub t Ht). auto.
  - destruct (Hsub _ Hpre) as [Hpre1 Hpre2], (Hsub _ Ht) as [Ht1 Ht2].
    destruct r as [l|].
    + destruct Hr as (bus' & t' & Hp & E). rewrite E. cbn [snd].
      rewrite !filter_app, Hpre1, Hpre2, Ht1, Ht2. cbn [app].
      destruct (publish_shape (UpdateMode (obj_TxPIDSettings bus)) l bus)
        as (bus2 & t2 & Hp2 & _ & _ & Hwb & Hws & _).
      rewrite Hp in Hp2. injection Hp2 as <- <-.
      destruct (slots_flags_kept _ _ _ _ _ _ Hs) as [Ks Kb].
      split; intros H.
      * destruct (filter is_settings_write t') eqn:Ef; [reflexivity|].
        exfalso. apply Hws; [discriminate|].
        rewrite Ks; [reflexivity|].
        intros j Hj. apply H. apply in_seq in Hj. lia.
      * destruct (filter is_bank_write t') eqn:Ef; [reflexivity|].
        exfalso. apply Hwb; [discriminate|].
        rewrite Kb; [reflexivity|].
        intros j Hj. apply H. apply in_seq in Hj. lia.
    + rewrite Hr. cbn [snd]. rewrite !filter_app, Hpre1, Hpre2, Ht1, Ht2. auto.
Qed.

(** ** Slots that share no destination *)

Lemma slots_conflict_free inst bus f idx : forall l l' t,
  slots hdr inst idx l bus = (Done l', bus, t) ->
  conflict_free inst idx = true ->
  forall i v, In i idx ->
    slot_value hdr inst bus i = Some v ->
    writes_field (pid_at inst i) f = true ->
    read_field f l' = fst (update (read_field f l) v).
Proof.
  induction idx as [|a idx IH]; intros l l' t Hrun Hcf i v Hin Hv Hw; [destruct Hin|].
  cbn [conflict_free] in Hcf. apply andb_prop in Hcf as [Ha Hcf].
  rewrite forallb_forall in Ha.
  destruct (slots_cons _ _ _ _ _ _ _ _ Hrun) as (l1 & t1 & t2 & Hslot & Hrest & Hl1).
  destruct (writes_field (pid_at inst a) f) eqn:Hwa.
  - (* the slot at the head names [f]: no later slot does *)
    assert (Hlater : forall j, In j idx -> writes_field (pid_at inst j) f = false).
    { intros j Hj. specialize (Ha j Hj). apply negb_true_iff in Ha.
      unfold overlap in Ha.
      destruct (targets (pid_at inst a)) as [fs|] eqn:Ht;
        [|unfold writes_field in Hwa; rewrite Ht in Hwa; discriminate].
      destruct (writes_field (pid_at inst j) f) eqn:E; [|reflexivity].
      assert (existsb (writes_field (pid_at inst j)) fs = true) as Hex.
      { apply existsb_exists. exists f. split; [|exact E].
        eapply writes_field_true; eassumption. }
      congruence. }
    destruct Hin as [<-|Hin]; [|rewrite (Hlater i Hin) in Hw; discriminate].
    rewrite (slots_preserve_field hdr inst bus f idx _ _ _ Hrest Hlater).
    clear Hl1. destruct (slot_run hdr inst a l bus) as (t1' & _ & E).
    rewrite Hv, Hslot in E.
    destruct (targets (pid_at inst a)) as [fs|] eqn:Ht; [|discriminate].
    injection E as -> _.
    apply read_update_fields_same; [eapply targets_NoDup; eassumption|].
    eapply writes_field_true; eassumption.
  - destruct Hin as [<-|Hin]; [congruence|].
    rewrite (IH _ _ _ Hrest Hcf i v Hin Hv Hw). do 2 f_equal.
    destruct Hl1 as [->|(v' & fs & _ & Ht & ->)]; [reflexivity|].
    apply read_update_fields_other.
    eapply writes_field_false; eassumption.
Qed.

(** X7: the result of a tick whose slots share no destination.  When the
    tick passes its early returns and completes, a destination named by a
    slot that is enabled and has its input holds afterwards what [update]
    makes of its previous content and the scaled value of that slot: the
    scaled value when the two differ by more than the dead band, the
    previous content otherwise. *)
Theorem conflict_free_tick_result (ev : UAVObjEvent) (bus : Bus)
        (i : nat) (v x : float) (f : Field) :
  conflict_free (obj_TxPIDSettings bus) (seq 0 (TXPIDSETTINGS_PIDS_NUMELEM hdr)) = true ->
  passes_gates hdr ev bus = true ->
  outcome hdr ev bus = Done tt ->
  (i < TXPIDSETTINGS_PIDS_NUMELEM hdr)%nat ->
  slot_value hdr (obj_TxPIDSettings bus) bus i = Some v ->
  writes_field (pid_at (obj_TxPIDSettings bus) i) f = true ->
  stored_field bus f = Some x ->
  stored_field (bus_after hdr ev bus) f = Some (fst (update x v)).
Proof.
  intros Hcf Hg Hout Hi Hv Hw Hx.
  unfold outcome in Hout.
  destruct (tick_cases ev bus)
    as [(t & E & Ht & Hc)|(b0 & pre & r & t & _ & Hb & Hpre & Ht & Hs & Hr)].
  - destruct Hc as [Hc|Hc]; [congruence|].
    unfold stored_field in Hx. rewrite Hc in Hx. discriminate.
  - destruct r as [l|]; [|rewrite Hr in Hout; discriminate].
    rewrite (tick_stores_locals ev bus b0 l t Hg Hb Hs f). f_equal.
    unfold stored_field in Hx. rewrite Hb in Hx. injection Hx as <-.
    apply (slots_conflict_free _ _ f _ _ _ _ Hs Hcf i v); try assumption.
    apply in_seq. lia.
Qed.

(** ** Slots without an input *)

(** X9: a slot that is disabled, or whose accessory instance does not
    exist, has no effect on the loop: the loop ends with the same locals,
    or at the same assertion, as the loop over the remaining slots. *)
Theorem unresolved_slots_skipped (inst : TxPIDSettingsData) (bus : Bus)
        (idx : list nat) (l : Locals) :
  fst (fst (slots hdr inst idx l bus)) =
  fst (fst (slots hdr inst (filter (resolved hdr inst bus) idx) l bus)).
Proof.
  revert l. induction idx as [|i idx IH]; intros l; [reflexivity|].
  cbn [filter]. unfold resolved at 1.
  destruct (slot_run hdr inst i l bus) as (t1 & _ & Hslot).
  destruct (slot_value hdr inst bus i) as [v|] eqn:Hv.
  - cbn [slots]. unfold bind. rewrite Hslot.
    destruct (targets (pid_at inst i)) as [fs|]; [|reflexivity].
    specialize (IH (update_fields fs v l)).
    destruct (slots hdr inst idx _ bus) as [[r2 b2] t2].
    destruct (slots hdr inst (filter _ idx) _ bus) as [[r3 b3] t3].
    exact IH.
  - cbn [slots]. unfold bind at 1. rewrite Hslot.
    specialize (IH l).
    destruct (slots hdr inst idx l bus) as [[r2 b2] t2]. exact IH.
Qed.

(** ** The bank on which calls are made *)

Lemma no_input_read (p : BusOp -> bool) t :
  (forall op, is_input_read op = true -> p op = false) ->
  forallb is_input_read t = true -> existsb p t = false.
Proof.
  intros Hp. induction t as [|op t IH]; [reflexivity|].
  cbn [forallb existsb]. intros H. apply andb_prop in H as [H1 H2].
  rewrite (IH H2), (Hp op H1). reflexivity.
Qed.

(** A call that is neither a read of an input nor a call on the TxPID
    settings, the armed state or the stabilization settings is made by
    one of the two [switch] statements, past the early returns. *)
Lemma tick_bank_calls (p : BusOp -> bool) ev bus :
  (forall op, is_input_read op = true -> p op = false) ->
  p TxPIDSettingsGet = false -> p FlightStatusArmedGet = false ->
  p StabilizationSettingsGet = false ->
  (forall d, p (StabilizationSettingsSet d) = false) ->
  existsb p (trace_of hdr ev bus) = true ->
  passes_gates hdr ev bus = true /\
  (existsb p (snd (read_bank (UpdateMode (obj_TxPIDSettings bus)) bus)) = true \/
   exists b, existsb p (snd (write_bank (UpdateMode (obj_TxPIDSettings bus)) b bus))
             = true).
Proof.
  intros Hin H1 H2 H3 H4. unfold trace_of, passes_gates.
  destruct (updatePIDs hdr ev bus) as [[r b] t] eqn:E. cbn [fst snd].
  unfold updatePIDs in E.
  destruct (obj ev =? AccessoryDesiredHandle hdr); cbn [negb andb] in *;
    [|injection E as _ _ <-; discriminate].
  unfold bind at 1, do_TxPIDSettingsGet, get in E.
  destruct (UpdateMode (obj_TxPIDSettings bus) =? TXPIDSETTINGS_UPDATEMODE_NEVER hdr);
    [injection E as _ _ <-; cbn; rewrite H1; discriminate|].
  unfold bind at 1, do_FlightStatusArmedGet, get in E.
  destruct ((UpdateMode (obj_TxPIDSettings bus) =? TXPIDSETTINGS_UPDATEMODE_WHENARMED hdr)
            && (obj_FlightStatusArmed bus =? FLIGHTSTATUS_ARMED_DISARMED hdr));
    [injection E as _ _ <-; cbn; rewrite H1, H2; discriminate|].
  cbn [negb]. intros Hex. split; [reflexivity|].
  unfold bind at 1 in E.
  set (mode := UpdateMode (obj_TxPIDSettings bus)) in *.
  destruct (read_bank_shape mode bus) as (t0 & Hrb & _).
  rewrite Hrb in *. cbn [snd].
  destruct (existsb p t0) eqn:Ht0; [now left|]. right.
  destruct (loaded_bank mode bus) as [b0|].
  2:{ injection E as _ _ <-. exfalso. revert Hex.
      repeat (rewrite existsb_app || cbn [app existsb orb]).
      rewrite H1, H2, Ht0. discriminate. }
  unfold bind at 1, do_StabilizationSettingsGet, get in E.
  unfold bind at 1 in E.
  match type of E with
  | context [slots hdr ?inst ?idx ?l bus] =>
      pose proof (SelectorFacts.slots_read_inputs hdr inst idx l bus) as Hrd;
      destruct (slots_read_only hdr inst idx l bus) as (r1 & t1 & E1 & _);
      rewrite E1 in E, Hrd
  end.
  cbn [snd] in Hrd. apply (no_input_read p _ Hin) in Hrd.
  destruct r1 as [l|].
  - exists (bank l).
    destruct (publish_shape mode l bus) as (bus' & t' & Hp & _).
    assert (Hp3 : existsb p t' = existsb p (snd (write_bank mode (bank l) bus)) \/
                  existsb p t' = false).
    { unfold publish in Hp.
      destruct (needsUpdateStab l =? 0), (needsUpdateBank l =? 0);
        destruct mode as [|[[q|q|]|[q|q|]|]|q]; cbn in Hp;
        injection Hp as <- <-; cbn; rewrite ?H4; auto. }
    unfold publish in Hp. rewrite Hp in E. injection E as _ _ <-.
    revert Hex.
    repeat (rewrite existsb_app || cbn [app existsb orb]).
    rewrite H1, H2, H3, Ht0, Hrd. cbn [orb].
    destruct Hp3 as [Hp3|Hp3]; rewrite Hp3; [auto|discriminate].
  - injection E as _ _ <-. exfalso. revert Hex.
    repeat (rewrite existsb_app || cbn [app existsb orb]).
    rewrite H1, H2, H3, Ht0, Hrd. discriminate.
Qed.

Lemma bank1_calls_mode (ev : UAVObjEvent) (bus : Bus) :
  existsb is_bank1_op (trace_of hdr ev bus) = true ->
  passes_gates hdr ev bus = true /\ UpdateMode (obj_TxPIDSettings bus) = 0.
Proof.
  intros H.
  destruct (tick_bank_calls is_bank1_op ev bus) as [Hg Hm]; try reflexivity;
    try exact H.
  { intros []; try discriminate; reflexivity. }
  split; [exact Hg|].
  destruct (UpdateMode (obj_TxPIDSettings bus)) as [|[[q|q|]|[q|q|]|]|q];
    try reflexivity; exfalso; destruct Hm as [Hm|[b Hm]]; cbn in Hm; discriminate.
Qed.

(** Bank 1 changes only under update mode 0. *)
Lemma bank1_kept (ev : UAVObjEvent) (bus : Bus) :
  ~ (passes_gates hdr ev bus = true /\ UpdateMode (obj_TxPIDSettings bus) = 0) ->
  obj_StabilizationSettingsBank1 (bus_after hdr ev bus) =
    obj_StabilizationSettingsBank1 bus.
Proof.
  unfold bus_after. intros Hno.
  destruct (tick_cases ev bus)
    as [(t & E & Ht & Hc)|(b0 & pre & r & t & Hg & Hb & Hpre & Ht & Hs & Hr)].
  - rewrite E. reflexivity.
  - destruct r as [l|]; [|rewrite Hr; reflexivity].
    destruct Hr as (bus' & t' & Hp & E).
    destruct (publish_run _ l bus b0 Hb) as (bus2 & t2 & Hp2 & _ & _ & H2 & _).
    rewrite Hp in Hp2. injection Hp2 as <- <-.
    rewrite E. cbn [fst snd]. rewrite H2.
    destruct (Z.eqb_spec (UpdateMode (obj_TxPIDSettings bus)) 0) as [E0|E0];
      [destruct (Hno (conj Hg E0))|].
    rewrite orb_true_r. reflexivity.
Qed.

(** X10: the bank on which a tick makes calls.  A Get or Set call on bank 1
    is made only by a tick past the early returns with update mode 0, and
    a call on bank 2 only with update mode 1 or 2. *)
Theorem bank_calls_follow_mode (ev : UAVObjEvent) (bus : Bus) :
  let mode := UpdateMode (obj_TxPIDSettings bus) in
  (existsb is_bank1_op (trace_of hdr ev bus) = true ->
   passes_gates hdr ev bus = true /\ mode = 0) /\
  (existsb is_bank2_op (trace_of hdr ev bus) = true ->
   passes_gates hdr ev bus = true /\ (mode = 1 \/ mode = 2)).
Proof.
  intros mode. split; [apply bank1_calls_mode|]. intros H.
  destruct (tick_bank_calls is_bank2_op ev bus) as [Hg Hm]; try reflexivity;
    try exact H.
  { intros []; try discriminate; reflexivity. }
  split; [exact Hg|]. subst mode.
  destruct (UpdateMode (obj_TxPIDSettings bus)) as [|[[q|q|]|[q|q|]|]|q];
    auto; exfalso; destruct Hm as [Hm|[b Hm]]; cbn in Hm; discriminate.
Qed.

(** X11: bank 1 is out of reach when the update mode Never is numbered 0.
    Update mode 0 is the only one that selects bank 1, and a tick with
    the mode Never returns before it selects a bank: no tick then makes a
    call on bank 1, and no tick changes bank 1. *)
Theorem bank1_out_of_reach (ev : UAVObjEvent) (bus : Bus) :
  TXPIDSETTINGS_UPDATEMODE_NEVER hdr = 0 ->
  existsb is_bank1_op (trace_of hdr ev bus) = false /\
  obj_StabilizationSettingsBank1 (bus_after hdr ev bus) =
    obj_StabilizationSettingsBank1 bus.
Proof.
  intros Hnever.
  assert (Hmode : passes_gates hdr ev bus = true /\
                  UpdateMode (obj_TxPIDSettings bus) = 0 -> False).
  { intros [Hg Hm]. destruct (passes_gates_inv ev bus Hg) as (_ & Hn & _). congruence. }
  split.
  - destruct (existsb is_bank1_op (trace_of hdr ev bus)) eqn:E; [|reflexivity].
    destruct (Hmode (bank1_calls_mode ev bus E)).
  - apply bank1_kept. exact Hmode.
Qed.

(** ** Slots that share a destination *)


(** ** The two flags *)

Lemma update_field_bits f value l :
  (needsUpdateBank l = 0 \/ needsUpdateBank l = 1) ->
  (needsUpdateStab l = 0 \/ needsUpdateStab l = 1) ->
  (needsUpdateBank (update_field f value l) = 0 \/
   needsUpdateBank (update_field f value l) = 1) /\
  (needsUpdateStab (update_field f value l) = 0 \/
   needsUpdateStab (update_field f value l) = 1).
Proof.
  intros Hb Hs.
  rewrite update_field_bank_flag, update_field_stab_flag, update_returns_flag.
  destruct (is_bank_field f), (differs (read_field f l) value);
    destruct Hb as [-> | ->], Hs as [-> | ->]; cbn; auto.
Qed.

Lemma update_fields_bits fs value : forall l,
  (needsUpdateBank l = 0 \/ needsUpdateBank l = 1) ->
  (needsUpdateStab l = 0 \/ needsUpdateStab l = 1) ->
  (needsUpdateBank (update_fields fs value l) = 0 \/
   needsUpdateBank (update_fields fs value l) = 1) /\
  (needsUpdateStab (update_fields fs value l) = 0 \/
   needsUpdateStab (update_fields fs value l) = 1).
Proof.
  induction fs as [|f fs IH]; intros l Hb Hs; [auto|].
  cbn [update_fields fold_left].
  fold (update_fields fs value (update_field f value l)).
  destruct (update_field_bits f value l Hb Hs) as [Hb' Hs'].
  now apply IH.
Qed.

(** X12: the two flags are bits.  [needsUpdateBank] and [needsUpdateStab]
    start at 0 and only receive, by [|=], what [update] returns: at the
    end of a completed loop each of them is 0 or 1, so that the [uint8_t]
    that holds it never wraps; and a flag that is still 0 stands for a
    record that the loop has left as it was. *)
Theorem flags_are_bits (inst : TxPIDSettingsData) (bus : Bus) (idx : list nat)
        (b0 : StabilizationBankData) (l : Locals) (t : list BusOp) :
  slots hdr inst idx (locals0 b0 bus) bus = (Done l, bus, t) ->
  (needsUpdateBank l = 0 /\ bank l = b0 \/ needsUpdateBank l = 1) /\
  (needsUpdateStab l = 0 /\ stab l = obj_StabilizationSettings bus \/
   needsUpdateStab l = 1).
Proof.
  intros Hrun.
  assert (Hbits : forall idx l0 l1 t1,
             slots hdr inst idx l0 bus = (Done l1, bus, t1) ->
             (needsUpdateBank l0 = 0 \/ needsUpdateBank l0 = 1) ->
             (needsUpdateStab l0 = 0 \/ needsUpdateStab l0 = 1) ->
             (needsUpdateBank l1 = 0 \/ needsUpdateBank l1 = 1) /\
             (needsUpdateStab l1 = 0 \/ needsUpdateStab l1 = 1)).
  { clear. induction idx as [|i idx IH]; intros l0 l1 t1 Hrun Hb Hs.
    - cbn in Hrun. injection Hrun as <- _. auto.
    - destruct (slots_cons _ _ _ _ _ _ _ _ Hrun) as (l2 & t2 & t3 & _ & Hrest & Hl2).
      destruct Hl2 as [->|(v & fs & _ & _ & ->)]; [now apply (IH _ _ _ Hrest)|].
      destruct (update_fields_bits fs v l0 Hb Hs) as [Hb' Hs'].
      now apply (IH _ _ _ Hrest). }
  destruct (Hbits _ _ _ _ Hrun (or_introl eq_refl) (or_introl eq_refl)) as [Hb Hs].
  destruct (slots_unflagged hdr _ _ _ _ _ _ Hrun) as [Ub Us].
  split.
  - destruct Hb as [E|E]; [left; split; [exact E|now destruct (Ub E)]|now right].
  - destruct Hs as [E|E]; [left; split; [exact E|now destruct (Us E)]|now right].
Qed.

End Tick.

End TickExtras.

(* ================================================================== *)
(** * More on [scale] and [update] *)
(* ================================================================== *)

Module ScaleExtras.

Import TxPIDPrim Binary32Repr FloatFacts ComparatorFacts RoundFacts.

Lemma flt_irrefl (x : float) : flt x x = false.
Proof.
  unfold flt, SFltb. destruct x as [s|s| |s m e]; cbn [SFcompare]; try reflexivity.
  - destruct s; reflexivity.
  - rewrite Z.compare_refl, Pos.compare_cont_refl. destruct s; reflexivity.
Qed.

(** X13: [scale] saturates.  An input above [inMax] is scaled as [inMax]
    is, and an input that is not above [inMax] and is below [inMin] is
    scaled as [inMin] is; this holds for every float, NaNs and infinities
    included. *)
Theorem scale_saturates (val inMin inMax outMin outMax : float) :
  (fgt val inMax = true ->
   scale val inMin inMax outMin outMax = scale inMax inMin inMax outMin outMax) /\
  (fgt val inMax = false -> flt val inMin = true ->
   scale val inMin inMax outMin outMax = scale inMin inMin inMax outMin outMax).
Proof.
  split.
  - intros H. unfold scale. rewrite H.
    change (fgt inMax inMax) with (flt inMax inMax). rewrite flt_irrefl. reflexivity.
  - intros H1 H2. unfold scale. rewrite H1. cbv iota zeta. rewrite H2.
    destruct (fgt inMin inMax) eqn:E.
    + change (fgt inMin inMax) with (flt inMax inMin) in E. rewrite E. reflexivity.
    + rewrite flt_irrefl. reflexivity.
Qed.

(** ** NaN *)

Lemma fsub_nan (x y : float) :
  is_nan x || is_nan y = true -> is_nan (fsub x y) = true.
Proof. destruct x as [s|s| |s m e], y as [s'|s'| |s' m' e']; try discriminate; reflexivity. Qed.

Lemma fadd_nan (x y : float) :
  is_nan x || is_nan y = true -> is_nan (fadd x y) = true.
Proof. destruct x as [s|s| |s m e], y as [s'|s'| |s' m' e']; try discriminate; reflexivity. Qed.

Lemma fmul_nan (x y : float) :
  is_nan x || is_nan y = true -> is_nan (fmul x y) = true.
Proof. destruct x as [s|s| |s m e], y as [s'|s'| |s' m' e']; try discriminate; reflexivity. Qed.

Lemma fdiv_nan (x y : float) :
  is_nan x || is_nan y = true -> is_nan (fdiv x y) = true.
Proof. destruct x as [s|s| |s m e], y as [s'|s'| |s' m' e']; try discriminate; reflexivity. Qed.

Lemma flt_nan (x y : float) : is_nan x || is_nan y = true -> flt x y = false.
Proof. destruct x as [s|s| |s m e], y as [s'|s'| |s' m' e']; try discriminate; reflexivity. Qed.

Lemma fle_nan (x y : float) : is_nan x || is_nan y = true -> fle x y = false.
Proof. destruct x as [s|s| |s m e], y as [s'|s'| |s' m' e']; try discriminate; reflexivity. Qed.

Lemma differs_nan (var val : float) :
  is_nan var || is_nan val = true -> differs var val = false.
Proof.
  intros H. unfold differs. rewrite fgt_flt. apply flt_nan.
  apply fsub_nan in H. destruct (fsub var val); try discriminate. reflexivity.
Qed.

Lemma is_nan_inv (x : float) : is_nan x = true -> x = S754_nan.
Proof. destruct x; try discriminate; reflexivity. Qed.

(** X15: a NaN in the configuration or in the input makes the slot inert.
    [scale] returns a NaN when an output bound is a NaN, and also when the
    input or an input bound is a NaN unless [inMax <= inMin] holds; and
    [update] never stores a NaN: it returns 0 and leaves the variable as it
    is.  Likewise [update] leaves a variable that holds a NaN as it is,
    whatever the value. *)
Theorem nan_is_never_stored (val inMin inMax outMin outMax var : float) :
  (is_nan outMin || is_nan outMax = true \/
   fle inMax inMin = false /\ is_nan val || is_nan inMin || is_nan inMax = true ->
   is_nan (scale val inMin inMax outMin outMax) = true) /\
  (is_nan val = true -> update var val = (var, 0)) /\
  (is_nan var = true -> update var val = (var, 0)).
Proof.
  split; [|split].
  - intros H.
    assert (Hout : forall a b v, is_nan a || is_nan b || is_nan v = true ->
                   is_nan (fadd (fmul (fsub b a) v) a) = true).
    { intros a b v Hn. apply fadd_nan.
      destruct (is_nan a) eqn:Ea; [apply orb_true_r|]. rewrite orb_false_r.
      apply fmul_nan.
      destruct (is_nan v) eqn:Ev; [apply orb_true_r|]. rewrite orb_false_r.
      apply fsub_nan. cbn in Hn. rewrite orb_false_r in Hn. rewrite Hn. reflexivity. }
    unfold scale. destruct H as [H|[Hdeg H]].
    + rewrite fgt_flt, (flt_nan outMax outMin) by (now rewrite orb_comm).
      apply Hout. rewrite H. reflexivity.
    + rewrite Hdeg.
      set (v1 := if fgt val inMax then inMax else val).
      set (v2 := if flt v1 inMin then inMin else v1).
      assert (Hn : is_nan (fdiv (fsub v2 inMin) (fsub inMax inMin)) = true).
      { apply fdiv_nan.
        destruct (is_nan inMin) eqn:E1.
        { rewrite (fsub_nan v2 inMin) by (rewrite E1; apply orb_true_r). reflexivity. }
        destruct (is_nan inMax) eqn:E2.
        { rewrite (fsub_nan inMax inMin) by (now rewrite E2). apply orb_true_r. }
        rewrite !orb_false_r in H.
        assert (v2 = val) as ->.
        { subst v2 v1. rewrite fgt_flt, (flt_nan inMax val) by (rewrite H; apply orb_true_r).
          rewrite (flt_nan val inMin) by (now rewrite H). reflexivity. }
        rewrite (fsub_nan val inMin) by (now rewrite H). reflexivity. }
      destruct (fgt outMin outMax).
      * apply Hout. rewrite (fsub_nan f_one _) by (rewrite Hn; apply orb_true_r).
        apply orb_true_r.
      * apply Hout. rewrite Hn. apply orb_true_r.
  - intros H. unfold update. rewrite differs_nan by (rewrite H; apply orb_true_r).
    reflexivity.
  - intros H. unfold update. rewrite differs_nan by (now rewrite H). reflexivity.
Qed.

(** X16: [update] is idempotent.  Called a second time with the same value
    it returns 0 and leaves the variable as the first call left it. *)
Theorem update_idempotent (var val : float) :
  update (fst (update var val)) val = (fst (update var val), 0).
Proof.
  unfold update at 1. rewrite update_settles. reflexivity.
Qed.

(** ** The low end of the input range *)

(** Floats that compare equal are two zeros, or the same float. *)
Lemma compare_eq_inv (x y : float) :
  SFcompare x y = Some Eq -> is_zero x && is_zero y = true \/ x = y.
Proof.
  destruct x as [sx|sx| |sx mx ex], y as [sy|sy| |sy my ey]; cbn [SFcompare];
    try discriminate; try (destruct sx; discriminate); try (destruct sy; discriminate).
  - now left.
  - destruct sx, sy; try discriminate; now right.
  - intros H. right.
    destruct sx, sy; try discriminate;
      destruct (Z.compare_spec ex ey) as [->|?|?]; try discriminate;
      destruct (Pos.compare_cont Eq mx my) eqn:E; try discriminate;
      apply Pos.compare_eq in E; now subst.
Qed.

Lemma fsub_same_zero (x : float) :
  is_finite x = true -> is_zero (fsub x x) = true.
Proof.
  destruct x as [s|s| |s m e]; try discriminate; intros _.
  - destruct s; reflexivity.
  - unfold fsub, SFsub. rewrite Z.sub_diag. reflexivity.
Qed.

Lemma fsub_zeros (x y : float) :
  is_zero x && is_zero y = true -> is_zero (fsub x y) = true.
Proof.
  destruct x as [sx|sx| |sx mx ex], y as [sy|sy| |sy my ey]; try discriminate.
  destruct sx, sy; reflexivity.
Qed.

Lemma fdiv_zero (x d : float) :
  is_zero x = true -> has_sign false d = true -> is_zero (fdiv x d) = true.
Proof.
  destruct x as [sx|sx| |sx mx ex]; try discriminate.
  destruct d as [sd|sd| |sd md ed]; try discriminate; reflexivity.
Qed.

Lemma fmul_zero (x z : float) :
  is_finite x = true -> is_zero z = true -> is_zero (fmul x z) = true.
Proof.
  destruct z as [sz|sz| |sz mz ez]; try discriminate.
  destruct x as [sx|sx| |sx mx ex]; try discriminate; reflexivity.
Qed.

Lemma fadd_zero_feq (z y : float) :
  is_zero z = true -> is_nan y = false -> feq (fadd z y) y = true.
Proof.
  destruct z as [sz|sz| |sz mz ez]; try discriminate.
  destruct y as [sy|sy| |sy my ey]; try discriminate; intros _ _.
  - destruct sz, sy; reflexivity.
  - destruct sy; reflexivity.
  - apply feq_same. reflexivity.
Qed.

(** X14: the low end of the input range is mapped to [outMin] exactly.
    For finite arguments with [val <= inMin < inMax], an output range in
    order, and an output span [outMax - outMin] that does not overflow,
    [scale] returns a float equal to [outMin]: none of its five roundings
    moves the result. *)
Theorem scale_low_end_exact (val inMin inMax outMin outMax : float) :
  regular val = true -> regular inMin = true -> regular inMax = true ->
  fle val inMin = true -> flt inMin inMax = true ->
  fgt outMin outMax = false ->
  is_finite (fsub outMax outMin) = true ->
  feq (scale val inMin inMax outMin outMax) outMin = true.
Proof.
  intros Rv Rlo Rhi Hle Hlt Hord Hspan.
  pose proof (proj1 (fle_true _ _ Rv Rlo) Hle) as Qle.
  pose proof (proj1 (flt_true _ _ Rlo Rhi) Hlt) as Qlt.
  assert (H1 : fgt val inMax = false).
  { rewrite fgt_flt. apply (flt_false _ _ Rhi Rv). lra. }
  assert (H3 : fle inMax inMin = false).
  { apply (fle_false _ _ Rhi Rlo). exact Qlt. }
  assert (Hnan : is_nan outMin = false).
  { destruct outMin; try reflexivity. destruct outMax; discriminate. }
  unfold scale. rewrite H1. cbv iota zeta. rewrite H3, Hord.
  apply fadd_zero_feq; [|exact Hnan].
  apply fmul_zero; [exact Hspan|].
  apply fdiv_zero; [|apply fsub_sign; assumption].
  destruct (flt val inMin) eqn:H2.
  - apply fsub_same_zero. now apply regular_inv in Rlo as [? _].
  - assert (Hc : SFcompare val inMin = Some Eq).
    { unfold fle, SFleb in Hle. unfold flt, SFltb in H2.
      destruct (SFcompare val inMin) as [[]|]; try discriminate; reflexivity. }
    destruct (compare_eq_inv _ _ Hc) as [Hz| ->].
    + now apply fsub_zeros.
    + apply fsub_same_zero. now apply regular_inv in Rlo as [? _].
Qed.

(** X17: infinities are stored.  Unlike a NaN, an infinite value passes the
    test of [update]: a variable that holds a finite number, or the
    infinity of the other sign, receives it, and 1 is returned. *)
Theorem update_stores_infinity (var : float) (s : bool) :
  is_nan var = false -> var <> S754_infinity s ->
  update var (S754_infinity s) = (S754_infinity s, 1).
Proof.
  intros Hn Hne. unfold update.
  assert (differs var (S754_infinity s) = true) as ->; [|reflexivity].
  destruct var as [s'|s'| |s' m e]; try discriminate;
    try (destruct s, s'; reflexivity).
  destruct s, s'; try reflexivity; now contradiction Hne.
Qed.

End ScaleExtras.

(* ================================================================== *)
(** * scale: the result and the output range, with every rounding *)
(* ================================================================== *)

Module ScaleBounds.

Import TxPIDPrim TxPIDSpec ScaleRange Binary32Repr FloatFacts ScaleFacts.
Import RoundFacts RoundOrder OpFacts.

Local Open Scope Z_scope.

(** A result that is no NaN and lies between two finite numbers is
    finite, and its value lies between theirs. *)
Lemma fle_enclosed (a b r : float) :
  regular a = true -> regular b = true ->
  is_nan r = false /\ (is_finite r = true -> regular r = true) ->
  fle a r = true -> fle r b = true ->
  regular r = true /\ (to_Q a <= to_Q r <= to_Q b)%Q.
Proof.
  intros Ra Rb [Hn Hf] Har Hrb.
  assert (Fr : is_finite r = true).
  { destruct r as [s|s| |s m e]; try reflexivity; try discriminate.
    destruct s.
    - destruct a as [sa|sa| |sa ma ea]; try discriminate; destruct sa; discriminate.
    - destruct b as [sb|sb| |sb mb eb]; try discriminate; destruct sb; discriminate. }
  pose proof (Hf Fr) as Rr. split; [exact Rr|].
  split; [apply (fle_true a r Ra Rr); exact Har|apply (fle_true r b Rr Rb); exact Hrb].
Qed.

Lemma fsub_same (x : float) : regular x = true -> same_val (fsub x x) f_zero.
Proof.
  intros Hx. right.
  destruct x as [s|s| |s m e]; try discriminate.
  - destruct s; reflexivity.
  - unfold fsub, SFsub. rewrite Z.sub_diag. reflexivity.
Qed.

Lemma fadd_zero_l (x : float) : regular x = true -> same_val (fadd f_zero x) x.
Proof.
  intros Hx. destruct x as [s|s| |s m e]; try discriminate.
  - right. destruct s; reflexivity.
  - left. reflexivity.
Qed.

Lemma fsub_zero_r (x : float) : regular x = true -> same_val (fsub x f_zero) x.
Proof.
  intros Hx. destruct x as [s|s| |s m e]; try discriminate.
  - right. destruct s; reflexivity.
  - left. reflexivity.
Qed.

Lemma to_Q_zero : (to_Q f_zero == 0)%Q.
Proof. reflexivity. Qed.

(** The difference of two ordered numbers, when it does not overflow. *)
Lemma span_regular (lo hi : float) :
  regular lo = true -> regular hi = true ->
  (to_Q lo <= to_Q hi)%Q ->
  is_finite (fsub hi lo) = true ->
  regular (fsub hi lo) = true /\ (0 <= to_Q (fsub hi lo))%Q.
Proof.
  intros Rlo Rhi Hle Hf.
  destruct (fsub_regular hi lo Rhi Rlo) as [_ Hr].
  pose proof (Hr Hf) as Rs. split; [exact Rs|].
  pose proof (fsub_le lo lo hi lo Rlo Rlo Rhi Rlo ltac:(lra)) as H.
  rewrite (fle_same_val _ _ _ _ (fsub_same lo Rlo) (same_val_refl _)) in H.
  apply (fle_true f_zero _ eq_refl Rs) in H. rewrite to_Q_zero in H. exact H.
Qed.

(** The input, bounded and normalised: a number between 0 and 1. *)
Lemma normalized_unit (val inMin inMax : float) :
  regular val = true -> regular inMin = true -> regular inMax = true ->
  fle inMax inMin || is_finite (fsub inMax inMin) = true ->
  let v := if fgt val inMax then inMax else val in
  let v := if flt v inMin then inMin else v in
  let t := if fle inMax inMin then f_zero
           else fdiv (fsub v inMin) (fsub inMax inMin) in
  regular t = true /\ (0 <= to_Q t <= 1)%Q.
Proof.
  intros Rv Rlo Rhi Hfin. cbv zeta.
  destruct (fle inMax inMin) eqn:Edeg.
  - split; [reflexivity|]. rewrite to_Q_zero. lra.
  - cbn [orb] in Hfin.
    apply (proj1 (fle_false _ _ Rhi Rlo)) in Edeg.
    destruct (clamp_range val inMin inMax Rv Rlo Rhi Edeg) as [Rc Hc].
    cbv zeta in Rc, Hc.
    set (v := if flt (if fgt val inMax then inMax else val) inMin then inMin
              else if fgt val inMax then inMax else val) in *.
    destruct (span_regular inMin inMax Rlo Rhi ltac:(lra) Hfin) as [Rden Pden].
    assert (Hpos : (0 < to_Q (fsub inMax inMin))%Q).
    { pose proof (fsub_sign inMax inMin Rhi Rlo
                    (proj2 (flt_true _ _ Rlo Rhi) Edeg)) as Hs.
      destruct (signed_regular_inv false _ Rden Hs) as (m & e & -> & _).
      apply (to_Q_finite_sign false m e). }
    (* the numerator: between zero and the denominator *)
    pose proof (fsub_le inMin inMin v inMin Rlo Rlo Rc Rlo ltac:(lra)) as Hlow.
    rewrite (fle_same_val _ _ _ _ (fsub_same inMin Rlo) (same_val_refl _)) in Hlow.
    pose proof (fsub_le v inMin inMax inMin Rc Rlo Rhi Rlo ltac:(lra)) as Hup.
    destruct (fle_enclosed f_zero _ _ eq_refl Rden (fsub_regular v inMin Rc Rlo)
                Hlow Hup) as [Rnum [Pnum Unum]].
    rewrite to_Q_zero in Pnum.
    apply fdiv_bound; [exact Rnum|exact Rden|split; assumption|exact Hpos].
Qed.

(** [1.0f - val] of a number between 0 and 1 is one again. *)
Lemma flipped_unit (t : float) :
  regular t = true -> (0 <= to_Q t <= 1)%Q ->
  regular (fsub f_one t) = true /\ (0 <= to_Q (fsub f_one t) <= 1)%Q.
Proof.
  intros Rt [Pt Ut].
  assert (R1 : regular f_one = true) by reflexivity.
  pose proof to_Q_one as E1.
  pose proof (fsub_le f_one f_one f_one t R1 R1 R1 Rt ltac:(lra)) as Hlow.
  rewrite (fle_same_val _ _ _ _ (fsub_same f_one R1) (same_val_refl _)) in Hlow.
  pose proof (fsub_le f_one t f_one f_zero R1 Rt R1 eq_refl
                ltac:(rewrite to_Q_zero; lra)) as Hup.
  rewrite (fle_same_val _ _ _ _ (same_val_refl _) (fsub_zero_r f_one R1)) in Hup.
  destruct (fle_enclosed f_zero f_one _ eq_refl R1 (fsub_regular f_one t R1 Rt)
              Hlow Hup) as [Rr [Pr Ur]].
  rewrite to_Q_zero in Pr. rewrite E1 in Ur. split; [exact Rr|split; assumption].
Qed.

(** The last line of [scale] for ordered bounds and a factor between 0
    and 1. *)
Lemma affine_bounds (lo hi t : float) :
  regular lo = true -> regular hi = true -> regular t = true ->
  (to_Q lo <= to_Q hi)%Q -> (0 <= to_Q t <= 1)%Q ->
  is_finite (fadd (fsub hi lo) lo) = true ->
  regular (fadd (fmul (fsub hi lo) t) lo) = true /\
  regular (fadd (fsub hi lo) lo) = true /\
  fle lo (fadd (fmul (fsub hi lo) t) lo) = true /\
  fle (fadd (fmul (fsub hi lo) t) lo) (fadd (fsub hi lo) lo) = true.
Proof.
  intros Rlo Rhi Rt Hle Ht Hfin.
  assert (Fs : is_finite (fsub hi lo) = true).
  { destruct (fsub hi lo) as [s|s| |s m e]; try reflexivity;
      destruct lo as [sl|sl| |sl ml el]; try discriminate;
      destruct s; discriminate. }
  destruct (span_regular lo hi Rlo Rhi Hle Fs) as [Rs Ps].
  destruct (fmul_bound (fsub hi lo) t Rs Rt Ps Ht) as [Rp [Pp Up]].
  destruct (fadd_regular (fsub hi lo) lo Rs Rlo) as [_ Htop].
  pose proof (Htop Hfin) as Rtop.
  pose proof (fadd_le f_zero lo (fmul (fsub hi lo) t) lo eq_refl Rlo Rp Rlo
                ltac:(rewrite to_Q_zero; lra)) as Hlow.
  rewrite (fle_same_val _ _ _ _ (fadd_zero_l lo Rlo) (same_val_refl _)) in Hlow.
  pose proof (fadd_le (fmul (fsub hi lo) t) lo (fsub hi lo) lo Rp Rlo Rs Rlo
                ltac:(lra)) as Hup.
  destruct (fle_enclosed lo _ _ Rlo Rtop (fadd_regular _ lo Rp Rlo) Hlow Hup)
    as [Rr _].
  repeat split; assumption.
Qed.

(** When the difference of the bounds is computed without rounding, the
    top value is the upper bound itself. *)
Lemma top_of_exact_span (lo hi : float) :
  regular lo = true -> regular hi = true ->
  exact Qminus hi lo (fsub hi lo) = true ->
  fle (fadd (fsub hi lo) lo) hi = true.
Proof.
  intros Rlo Rhi Hex.
  destruct (exact_inv _ _ _ _ Hex) as [Rs Qs].
  destruct (fadd_repr (fsub hi lo) lo Rs Rlo) as (z & e & He & V & S).
  destruct (binary_normalize_fix hi Rhi) as (z' & e' & He' & V' & S').
  rewrite (fle_same_val _ _ _ _ S S').
  apply binary_normalize_mono; [exact He|exact He'|].
  rewrite V, V', Qs. lra.
Qed.

(** C3: for finite arguments whose differences [inMax - inMin] and
    [(max - min) + min] do not overflow, the result of [scale] is never
    below the smaller of [outMin] and [outMax], and never above the
    binary32 value of [(max - min) + min], the result at the top of the
    input range.  So it lies in the closed interval spanned by [outMin]
    and [outMax], whatever their order and wherever [val] lies, whenever
    that top value does not exceed the larger bound; this is the case
    when the difference [max - min] is computed without rounding. *)
Theorem scale_bounds (val inMin inMax outMin outMax : float) :
  regular val = true -> regular inMin = true -> regular inMax = true ->
  regular outMin = true -> regular outMax = true ->
  fle inMax inMin || is_finite (fsub inMax inMin) = true ->
  is_finite (out_top outMin outMax) = true ->
  fle (out_low outMin outMax) (scale val inMin inMax outMin outMax) = true /\
  fle (scale val inMin inMax outMin outMax) (out_top outMin outMax) = true /\
  (fle (out_top outMin outMax) (out_high outMin outMax) = true ->
   between outMin outMax (scale val inMin inMax outMin outMax) = true) /\
  (exact Qminus (out_high outMin outMax) (out_low outMin outMax)
         (fsub (out_high outMin outMax) (out_low outMin outMax)) = true ->
   between outMin outMax (scale val inMin inMax outMin outMax) = true).
Proof.
  intros Rv Rlo Rhi Ra Rb Hin Hout.
  destruct (normalized_unit val inMin inMax Rv Rlo Rhi Hin) as [Rt Ht].
  cbv zeta in Rt, Ht.
  unfold scale. cbv zeta.
  set (t := if fle inMax inMin then f_zero else _) in *.
  unfold out_top, out_low, out_high in *.
  destruct (fgt outMin outMax) eqn:Eswap.
  - (* the bounds are swapped and the factor is flipped *)
    assert (Hord : (to_Q outMax <= to_Q outMin)%Q).
    { rewrite fgt_flt in Eswap.
      apply (proj1 (flt_true _ _ Rb Ra)) in Eswap. lra. }
    destruct (flipped_unit t Rt Ht) as [Rf Hf].
    destruct (affine_bounds outMax outMin (fsub f_one t) Rb Ra Rf Hord Hf Hout)
      as (Rr & Rtop & Hlow & Hup).
    assert (Hin' : fle (fadd (fsub outMin outMax) outMax) outMin = true ->
                   between outMin outMax
                     (fadd (fmul (fsub outMin outMax) (fsub f_one t)) outMax) = true).
    { intros Htop. apply between_of_range; [exact Ra|exact Rb|exact Rr|].
      right.
      apply (proj1 (fle_true _ _ Rb Rr)) in Hlow.
      apply (proj1 (fle_true _ _ Rr Rtop)) in Hup.
      apply (proj1 (fle_true _ _ Rtop Ra)) in Htop. lra. }
    split; [exact Hlow|]. split; [exact Hup|]. split; [exact Hin'|].
    intros Hex. apply Hin', top_of_exact_span; assumption.
  - assert (Hord : (to_Q outMin <= to_Q outMax)%Q).
    { rewrite fgt_flt in Eswap.
      apply (proj1 (flt_false _ _ Rb Ra)) in Eswap. exact Eswap. }
    destruct (affine_bounds outMin outMax t Ra Rb Rt Hord Ht Hout)
      as (Rr & Rtop & Hlow & Hup).
    assert (Hin' : fle (fadd (fsub outMax outMin) outMin) outMax = true ->
                   between outMin outMax
                     (fadd (fmul (fsub outMax outMin) t) outMin) = true).
    { intros Htop. apply between_of_range; [exact Ra|exact Rb|exact Rr|].
      left.
      apply (proj1 (fle_true _ _ Ra Rr)) in Hlow.
      apply (proj1 (fle_true _ _ Rr Rtop)) in Hup.
      apply (proj1 (fle_true _ _ Rtop Rb)) in Htop. lra. }
    split; [exact Hlow|]. split; [exact Hup|]. split; [exact Hin'|].
    intros Hex. apply Hin', top_of_exact_span; assumption.
Qed.

End ScaleBounds.

(* ================================================================== *)
(** * scale: the end of the input range that gives the largest output *)
(* ================================================================== *)

Module ScaleTop.

Import TxPIDPrim TxPIDSpec ScaleRange Binary32Repr FloatFacts.
Import RoundFacts RoundOrder OpFacts ScaleExtras.

Local Open Scope Z_scope.

(** A finite number divided by itself is [1.0f], without rounding. *)
Lemma fdiv_same (s : bool) (m : positive) (e : Z) :
  fdiv (S754_finite s m e) (S754_finite s m e) = f_one.
Proof.
  unfold fdiv, SFdiv, SFdiv_core_binary. cbv zeta.
  replace (Zdigits2 (Zpos m) + e - (Zdigits2 (Zpos m) + e)) with 0 by lia.
  rewrite Z.sub_diag.
  change (Z.min (fexp prec emax 0) 0) with (-24).
  change (0 - -24) with 24.
  rewrite Z.shiftl_mul_pow2 by lia.
  assert (Eq : Z.div_eucl (Zpos m * 2 ^ 24) (Zpos m) = (2 ^ 24, 0)).
  { pose proof (Z.div_mul (2 ^ 24) (Zpos m) ltac:(lia)) as Hq.
    pose proof (Z.mod_mul (2 ^ 24) (Zpos m) ltac:(lia)) as Hr.
    rewrite (Z.mul_comm (2 ^ 24)) in Hq, Hr.
    unfold Z.div in Hq. unfold Z.modulo in Hr.
    destruct (Z.div_eucl (Zpos m * 2 ^ 24) (Zpos m)) as [q r].
    now subst. }
  rewrite Eq.
  assert (El : new_location (Zpos m) 0 = loc_Exact).
  { unfold new_location. destruct (Z.even (Zpos m)); reflexivity. }
  rewrite El. destruct s; reflexivity.
Qed.

(** A product with [1.0f] is the other factor, without rounding. *)
Lemma fmul_one (x : float) : valid x = true -> fmul x f_one = x.
Proof.
  intros Hv. destruct x as [s|s| |s m e]; try reflexivity.
  - destruct s; reflexivity.
  - destruct s; reflexivity.
  - assert (Hb : bounded prec emax m e = true) by exact Hv.
    change (fmul (S754_finite s m e) f_one)
      with (binary_round_aux prec emax (xorb s false) (Zpos (m * 8388608))
              (e + -23) loc_Exact).
    rewrite xorb_false_r.
    assert (Em : Zpos (m * 8388608) = Zpos m * 2 ^ 23) by (rewrite Pos2Z.inj_mul; reflexivity).
    rewrite (binary_round_aux_trailing s (m * 8388608) m (e + -23) 23);
      [f_equal; lia|lia|exact Em| |].
    + rewrite (digits2_pos_shift _ m 23 ltac:(lia) Em).
      unfold bounded, canonical_mantissa in Hb.
      apply andb_prop in Hb. destruct Hb as [Hb _]. apply Z.eqb_eq in Hb.
      replace (Zpos (digits2_pos m) + 23 + (e + -23)) with (Zpos (digits2_pos m) + e) by lia.
      lia.
    + replace (e + -23 + 23) with e by lia. exact Hb.
Qed.

Lemma fsub_one_zero (z : float) : is_zero z = true -> fsub f_one z = f_one.
Proof. destruct z as [s|s| |s m e]; try discriminate. reflexivity. Qed.

Lemma span_valid (lo hi : float) :
  regular lo = true -> regular hi = true -> valid (fsub hi lo) = true.
Proof.
  intros Rlo Rhi. destruct (fsub_regular hi lo Rhi Rlo) as [Hn Hf].
  destruct (fsub hi lo) as [s|s| |s m e] eqn:E; try reflexivity.
  specialize (Hf eq_refl). exact Hf.
Qed.

(** X27: the upper bound [(max - min) + min] of the result of [scale] is
    attained.  With [outMin <= outMax] every [val] at or above [inMax]
    gives it, and with [outMin > outMax] every [val] at or below [inMin]
    does: the normalised input is [1.0f] without rounding, so that only
    the difference of the bounds and the final sum round. *)
Theorem scale_top_attained (val inMin inMax outMin outMax : float) :
  regular val = true -> regular inMin = true -> regular inMax = true ->
  regular outMin = true -> regular outMax = true ->
  flt inMin inMax = true ->
  (fgt outMin outMax = false -> fle inMax val = true ->
   is_finite (fsub inMax inMin) = true ->
   scale val inMin inMax outMin outMax = out_top outMin outMax) /\
  (fgt outMin outMax = true -> fle val inMin = true ->
   scale val inMin inMax outMin outMax = out_top outMin outMax).
Proof.
  intros Rv Rlo Rhi Ra Rb Hlt.
  pose proof (proj1 (flt_true _ _ Rlo Rhi) Hlt) as Qlt.
  assert (H3 : fle inMax inMin = false).
  { apply (fle_false _ _ Rhi Rlo). exact Qlt. }
  pose proof (fsub_sign inMax inMin Rhi Rlo Hlt) as Hsign.
  split.
  - intros Hord Hle Hfin.
    pose proof (proj1 (fle_true _ _ Rhi Rv) Hle) as Qle.
    unfold scale, out_top, out_low, out_high. cbv zeta. rewrite H3, Hord.
    assert (Hnum : fsub (if flt (if fgt val inMax then inMax else val) inMin
                         then inMin else if fgt val inMax then inMax else val) inMin
                   = fsub inMax inMin).
    { destruct (fgt val inMax) eqn:H1.
      - assert (H2 : flt inMax inMin = false)
          by (apply (flt_false _ _ Rhi Rlo); lra).
        rewrite H2. reflexivity.
      - assert (H2 : flt val inMin = false)
          by (apply (flt_false _ _ Rv Rlo); lra).
        rewrite H2.
        assert (Hc : SFcompare inMax val = Some Eq).
        { unfold fle, SFleb in Hle. rewrite fgt_flt in H1. unfold flt, SFltb in H1.
          destruct (SFcompare inMax val) as [[]|]; try discriminate; reflexivity. }
        destruct (compare_eq_inv _ _ Hc) as [Hz| ->]; [|reflexivity].
        destruct inMax as [s1|s1| |s1 m1 e1]; try discriminate.
        destruct val as [s2|s2| |s2 m2 e2]; try discriminate.
        destruct inMin as [s0|s0| |s0 m0 e0]; try discriminate; reflexivity. }
    rewrite Hnum.
    destruct (fsub_regular inMax inMin Rhi Rlo) as [_ Hreg].
    destruct (signed_regular_inv false _ (Hreg Hfin) Hsign) as (m & e & -> & _).
    rewrite fdiv_same, fmul_one by (apply span_valid; assumption).
    reflexivity.
  - intros Hord Hle.
    pose proof (proj1 (fle_true _ _ Rv Rlo) Hle) as Qle.
    assert (H1 : fgt val inMax = false).
    { rewrite fgt_flt. apply (flt_false _ _ Rhi Rv). lra. }
    unfold scale, out_top, out_low, out_high. rewrite H1. cbv iota zeta.
    rewrite H3, Hord.
    assert (Hz : is_zero (fdiv (fsub (if flt val inMin then inMin else val) inMin)
                               (fsub inMax inMin)) = true).
    { apply fdiv_zero; [|exact Hsign].
      destruct (flt val inMin) eqn:H2.
      - apply fsub_same_zero. now apply regular_inv in Rlo as [? _].
      - assert (Hc : SFcompare val inMin = Some Eq).
        { unfold fle, SFleb in Hle. unfold flt, SFltb in H2.
          destruct (SFcompare val inMin) as [[]|]; try discriminate; reflexivity. }
        destruct (compare_eq_inv _ _ Hc) as [Hzz| ->].
        + apply fsub_zeros. exact Hzz.
        + apply fsub_same_zero. now apply regular_inv in Rlo as [? _]. }
    rewrite (fsub_one_zero _ Hz), fmul_one by (apply span_valid; assumption).
    reflexivity.
Qed.

End ScaleTop.

(* ================================================================== *)
(** * The sine table and the lookups on whole degrees *)
(* ================================================================== *)

Module SinTableFacts.

Import SinLookup Binary64 SinTable RoundFacts.

(** ** Whole degrees *)

Lemma sin_lookup_deg_of_Z (t : list float) (n : Z) :
  Z.abs n < 2 ^ 24 -> sin_lookup_deg t (of_Z n) = lookup_int t n.
Proof.
  intros H. unfold sin_lookup_deg, lookup_int, i_ang_of.
  rewrite (to_int32_of_Z n H). reflexivity.
Qed.

Lemma cos_lookup_deg_of_Z (t : list float) (n : Z) :
  Z.abs n < 2 ^ 24 - 90 -> cos_lookup_deg t (of_Z n) = lookup_int t (n + 90).
Proof.
  intros H. change (2 ^ 24) with 16777216 in H. unfold cos_lookup_deg.
  rewrite fadd_of_Z by (change (2 ^ 24) with 16777216; lia).
  apply sin_lookup_deg_of_Z. change (2 ^ 24) with 16777216. lia.
Qed.




(** X24: the lookups in radians.  When the conversion of
    [angle * 180.0f / M_PI] to [int] gives [d], and binary32 holds [d]
    and [d + 90] exactly, [sin_lookup_rad] is the lookup at the integer
    [d] and [cos_lookup_rad] the lookup at [d + 90]. *)
Theorem radian_lookups (t : list float) (angle : float) (d : Z) :
  degrees_of angle = Some d -> Z.abs d < 2 ^ 24 - 90 ->
  sin_lookup_rad t angle = lookup_int t d /\
  cos_lookup_rad t angle = lookup_int t (d + 90).
Proof.
  intros Hd H. unfold sin_lookup_rad, cos_lookup_rad. rewrite Hd.
  split; [|now apply cos_lookup_deg_of_Z].
  apply sin_lookup_deg_of_Z. change (2 ^ 24) with 16777216 in *. lia.
Qed.


(** X26: an angle that is an infinity or a NaN.  Each of the four lookups
    then converts a float outside the range of the integer type. *)
Theorem non_finite_angle_undefined (t : list float) (angle : float) :
  is_finite angle = false ->
  sin_lookup_deg t angle = UndefinedConversion /\
  cos_lookup_deg t angle = UndefinedConversion /\
  sin_lookup_rad t angle = UndefinedConversion /\
  cos_lookup_rad t angle = UndefinedConversion.
Proof.
  destruct angle as [s|s| |s m e]; try discriminate; intros _;
    repeat split; try reflexivity; destruct s; reflexivity.
Qed.

(** ** The table *)

Section Initialize.

Variable sinf : float -> float.
Variable pvPortMalloc : Z -> option (list float).

Lemma fill_seq (n : nat) : forall (k : nat) (t : list float),
  length t = (k + n)%nat ->
  fill sinf (seq k n) t =
  inl (firstn k t ++ map (fun i => sinf (sin_arg i)) (seq k n)).
Proof.
  induction n as [|n IH]; intros k t Hlen.
  - cbn. rewrite app_nil_r, firstn_all2 by lia. reflexivity.
  - cbn [seq fill map]. unfold table_write.
    destruct (Nat.ltb_spec k (length t)) as [_|?]; [|lia].
    rewrite IH.
    + f_equal. rewrite firstn_app, firstn_firstn, firstn_length_le by lia.
      replace (Nat.min (S k) k) with k by lia.
      replace (S k - k)%nat with 1%nat by lia.
      cbn [firstn]. rewrite <- app_assoc. reflexivity.
    + rewrite length_app. cbn [length]. rewrite firstn_length_le, length_skipn by lia.
      lia.
Qed.

Lemma fill_short (n : nat) : forall (k : nat) (t : list float),
  (k <= length t < k + n)%nat ->
  fill sinf (seq k n) t = inr (length t).
Proof.
  induction n as [|n IH]; intros k t Hlen; [lia|].
  cbn [seq fill]. unfold table_write.
  destruct (Nat.ltb_spec k (length t)) as [Hlt|Hge].
  - rewrite IH.
    + f_equal. rewrite length_app. cbn [length].
      rewrite firstn_length_le, length_skipn by lia. lia.
    + rewrite length_app. cbn [length].
      rewrite firstn_length_le, length_skipn by lia. lia.
  - f_equal. lia.
Qed.

(** X19: the first call of [sin_lookup_initalize].  When the allocator
    returns a block of [SIN_RESOLUTION] floats, the call returns 0 and
    leaves a table of exactly [SIN_RESOLUTION] entries, entry [i] being
    [sinf] at the argument computed for [i], whatever the block held
    before; no write falls outside the block.  A shorter block is written
    past its end. *)
Theorem initialize_fills_table (block : list float) :
  pvPortMalloc (sizeof_float * SIN_RESOLUTION) = Some block ->
  (length block = 180%nat ->
   sin_lookup_initalize sinf pvPortMalloc None =
   Returned 0 (Some (map (fun i => sinf (sin_arg i)) (seq 0 180)))) /\
  ((length block < 180)%nat ->
   sin_lookup_initalize sinf pvPortMalloc None = WriteOutOfBounds (length block)).
Proof.
  intros Hm. unfold sin_lookup_initalize. rewrite Hm. split; intros Hlen.
  - rewrite (fill_seq 180 0 block) by lia. reflexivity.
  - rewrite (fill_short 180 0 block) by lia. reflexivity.
Qed.



End Initialize.

End SinTableFacts.

(* ================================================================== *)
(** * Initialisation of the TxPID module *)
(* ================================================================== *)

Module InitFacts.

Import TxPID TxPIDInit.

Section Init.

Variable hdr : Headers.
Variable ihdr : InitHeaders.

(** A tick for the AccessoryDesired object gets past the first test of
    [updatePIDs]: its first call reads the TxPID settings. *)
Lemma tick_of_handle_reads_settings (e : UAVObjEvent) (bus : Bus) :
  obj e = AccessoryDesiredHandle hdr ->
  hd_error (snd (updatePIDs hdr e bus)) = Some TxPIDSettingsGet.
Proof.
  intros E. unfold updatePIDs. rewrite E, Z.eqb_refl. cbn [negb].
  unfold bind at 1, do_TxPIDSettingsGet, get.
  cbv beta iota.
  match goal with
  | |- context [match ?k with (_, _) => _ end] => destruct k as [[r b] t]
  end.
  reflexivity.
Qed.

(** X18: the initialisation of the module.  [TxPIDInitialize] returns 0
    exactly when the optional module TxPID is enabled in the hardware
    settings, and -1 otherwise.  It registers a callback only when it
    returns 0: then the TxPID settings and the AccessoryDesired object
    have been initialised before, the period is
    [SAMPLE_PERIOD_MS / portTICK_RATE_MS] ticks, nothing follows the
    registration, and whenever the scheduler runs the callback for the
    registered event the tick gets past the object test of [updatePIDs],
    its first call being the read of the TxPID settings. *)
Theorem initialize_registers_live_callback (x : Z) :
  (fst (TxPIDInitialize hdr ihdr x) = 0 <->
   x = HWSETTINGS_OPTIONALMODULES_ENABLED ihdr) /\
  (fst (TxPIDInitialize hdr ihdr x) = -1 <->
   x <> HWSETTINGS_OPTIONALMODULES_ENABLED ihdr) /\
  (forall e cb p,
      In (EventPeriodicCallbackCreate e cb p) (snd (TxPIDInitialize hdr ihdr x)) ->
      fst (TxPIDInitialize hdr ihdr x) = 0 /\
      p = Z.quot SAMPLE_PERIOD_MS (portTICK_RATE_MS ihdr) /\
      (exists pre,
          snd (TxPIDInitialize hdr ihdr x) = pre ++ [EventPeriodicCallbackCreate e cb p] /\
          In TxPIDSettingsInitialize pre /\ In AccessoryDesiredInitialize pre) /\
      forall bus,
        hd_error (snd (run_callback hdr cb e bus)) = Some TxPIDSettingsGet).
Proof.
  unfold TxPIDInitialize.
  destruct (Z.eqb_spec x (HWSETTINGS_OPTIONALMODULES_ENABLED ihdr)) as [E|E];
    cbn [fst snd].
  - split; [tauto|]. split; [split; [discriminate|contradiction]|].
    intros e cb p Hin.
    repeat (destruct Hin as [Hin|Hin]; try discriminate).
    2:{ destruct Hin. }
    injection Hin as <- <- <-.
    split; [reflexivity|]. split; [reflexivity|]. split.
    + eexists [_; _; _; _]. split; [reflexivity|]. split; cbn; auto 6.
    + intros bus. cbn [run_callback ev]. now apply tick_of_handle_reads_settings.
  - split; [split; [discriminate|contradiction]|]. split; [tauto|].
    intros e cb p Hin.
    repeat (destruct Hin as [Hin|Hin]; try discriminate). destruct Hin.
Qed.

End Init.

End InitFacts.

(* ================================================================== *)
(** * Further instances on concrete configurations *)
(* ================================================================== *)

Module MoreInstances.

Import TxPID TxPIDPrim TxPIDSpec TxPIDTrace TxPIDInit Examples MoreExamples.
Import SinLookup Binary64 SinTable.
Import ScaleRange.
Import TickExtras ScaleExtras ScaleBounds ScaleTop SinTableFacts InitFacts.

(** On [bus_mode2] the single enabled slot names the roll-rate Kp of
    bank 2, which holds 2 and receives the scaled throttle [0.0055f]. *)
Lemma conflict_free_tick_witness :
  stored_field bus_mode2 (RateField Roll RKp) = Some (of_Z 2) /\
  stored_field (bus_after hdr0 ev0 bus_mode2) (RateField Roll RKp) =
    Some (dec 55 10000).
Proof.
  split; [reflexivity|].
  assert (Hv : slot_value hdr0 (obj_TxPIDSettings bus_mode2) bus_mode2 0 =
               Some (dec 55 10000)) by (vm_compute; reflexivity).
  assert (Hu : fst (update (of_Z 2) (dec 55 10000)) = dec 55 10000)
    by (vm_compute; reflexivity).
  rewrite <- Hu.
  apply (conflict_free_tick_result hdr0 ev0 bus_mode2 0 (dec 55 10000) (of_Z 2)
           (RateField Roll RKp)).
  - vm_compute; reflexivity.
  - vm_compute; reflexivity.
  - vm_compute; reflexivity.
  - cbn. lia.
  - exact Hv.
  - vm_compute; reflexivity.
  - vm_compute; reflexivity.
Defined.


(** With the numbering of [hdr0], a tick in update mode 0 stops at the
    test for Never and bank 1 is left alone. *)
Lemma bank1_out_of_reach_witness :
  TXPIDSETTINGS_UPDATEMODE_NEVER hdr0 = 0 /\
  UpdateMode (obj_TxPIDSettings bus_mode0) = 0 /\
  existsb is_bank1_op (trace_of hdr0 ev0 bus_mode0) = false /\
  obj_StabilizationSettingsBank1 (bus_after hdr0 ev0 bus_mode0) =
    obj_StabilizationSettingsBank1 bus_mode0.
Proof.
  split; [reflexivity|]. split; [reflexivity|].
  apply (bank1_out_of_reach hdr0 ev0 bus_mode0). reflexivity.
Defined.

(** The loop on [bus_mode2] changes the bank and not the settings. *)
Lemma flags_are_bits_witness :
  needsUpdateBank locals_mode2 = 1 /\
  needsUpdateStab locals_mode2 = 0 /\
  stab locals_mode2 = obj_StabilizationSettings bus_mode2.
Proof.
  assert (E : slots hdr0 (obj_TxPIDSettings bus_mode2) [0; 1; 2]%nat
                    (locals0 (bank_of (of_Z 2)) bus_mode2) bus_mode2 =
              (Done locals_mode2, bus_mode2, [ManualControlCommandThrottleGet]))
    by (vm_compute; reflexivity).
  destruct (flags_are_bits hdr0 _ _ _ _ _ _ E) as [[[H _]|H] [[H1 H2]|H1]].
  - vm_compute in H. discriminate H.
  - vm_compute in H. discriminate H.
  - split; [exact H|]. split; [exact H1|exact H2].
  - vm_compute in H1. discriminate H1.
Defined.

(** An input below the range [0, 1] is mapped onto [0.003f] exactly. *)
Lemma scale_low_end_witness :
  feq (scale (of_Z (-1)) f_zero f_one (dec 3 1000) (dec 15 1000)) (dec 3 1000) = true.
Proof.
  apply scale_low_end_exact; vm_compute; reflexivity.
Defined.

(** A finite gain receives [+inf]. *)
Lemma update_stores_infinity_witness :
  update (of_Z 2) (S754_infinity false) = (S754_infinity false, 1).
Proof.
  apply update_stores_infinity; [reflexivity|discriminate].
Defined.



(** One radian is 57 whole degrees. *)
Lemma radian_lookups_witness :
  degrees_of (of_Z 1) = Some 57 /\
  sin_lookup_rad (repeat f_one 180) (of_Z 1) = lookup_int (repeat f_one 180) 57 /\
  cos_lookup_rad (repeat f_one 180) (of_Z 1) = lookup_int (repeat f_one 180) 147.
Proof.
  assert (Hd : degrees_of (of_Z 1) = Some 57) by (vm_compute; reflexivity).
  split; [exact Hd|].
  apply (radian_lookups (repeat f_one 180) (of_Z 1) 57 Hd). vm_compute; reflexivity.
Defined.


(** The angle [+inf]. *)
Lemma non_finite_angle_witness :
  sin_lookup_deg (repeat f_one 180) (S754_infinity false) = UndefinedConversion /\
  cos_lookup_deg (repeat f_one 180) (S754_infinity false) = UndefinedConversion /\
  sin_lookup_rad (repeat f_one 180) (S754_infinity false) = UndefinedConversion /\
  cos_lookup_rad (repeat f_one 180) (S754_infinity false) = UndefinedConversion.
Proof.
  apply non_finite_angle_undefined. reflexivity.
Defined.

(** With an allocator that succeeds, the first call fills the table. *)
Lemma initialize_fills_table_witness :
  malloc_ones (sizeof_float * SIN_RESOLUTION) = Some (repeat f_one 180) /\
  sin_lookup_initalize sinf_id malloc_ones None =
    Returned 0 (Some (map (fun i => sinf_id (sin_arg i)) (seq 0 180))).
Proof.
  assert (Hm : malloc_ones (sizeof_float * SIN_RESOLUTION) = Some (repeat f_one 180))
    by reflexivity.
  split; [exact Hm|].
  apply (proj1 (initialize_fills_table sinf_id malloc_ones (repeat f_one 180) Hm)).
  reflexivity.
Defined.



(** The input 0.3 of the range [0, 1] mapped onto the reversed range
    [0.01f, 0.001f]: the division, the flip, the product and the sum all
    round, the top value [0.01f] does not exceed the larger bound, and
    the result [0.0073f] lies between the bounds. *)
Lemma scale_bounds_witness :
  scale_exact (dec 3 10) f_zero f_one (dec 10 1000) (dec 1 1000) = false /\
  out_top (dec 10 1000) (dec 1 1000) = dec 10 1000 /\
  fle (dec 1 1000) (scale (dec 3 10) f_zero f_one (dec 10 1000) (dec 1 1000)) = true /\
  fle (scale (dec 3 10) f_zero f_one (dec 10 1000) (dec 1 1000)) (dec 10 1000) = true /\
  between (dec 10 1000) (dec 1 1000)
          (scale (dec 3 10) f_zero f_one (dec 10 1000) (dec 1 1000)) = true.
Proof.
  assert (R1 : regular (dec 3 10) = true) by (vm_compute; reflexivity).
  assert (R2 : regular f_zero = true) by (vm_compute; reflexivity).
  assert (R3 : regular f_one = true) by (vm_compute; reflexivity).
  assert (R4 : regular (dec 10 1000) = true) by (vm_compute; reflexivity).
  assert (R5 : regular (dec 1 1000) = true) by (vm_compute; reflexivity).
  assert (H1 : fle f_one f_zero || is_finite (fsub f_one f_zero) = true)
    by (vm_compute; reflexivity).
  assert (H2 : is_finite (out_top (dec 10 1000) (dec 1 1000)) = true)
    by (vm_compute; reflexivity).
  assert (Elow : out_low (dec 10 1000) (dec 1 1000) = dec 1 1000)
    by (vm_compute; reflexivity).
  assert (Ehigh : out_high (dec 10 1000) (dec 1 1000) = dec 10 1000)
    by (vm_compute; reflexivity).
  assert (Etop : out_top (dec 10 1000) (dec 1 1000) = dec 10 1000)
    by (vm_compute; reflexivity).
  destruct (scale_bounds _ _ _ _ _ R1 R2 R3 R4 R5 H1 H2) as (Hlow & Hup & Hin & _).
  rewrite Elow in Hlow. rewrite Etop in Hup. rewrite Etop, Ehigh in Hin.
  split; [vm_compute; reflexivity|]. split; [exact Etop|].
  split; [exact Hlow|]. split; [exact Hup|].
  apply Hin. vm_compute. reflexivity.
Defined.

(** The input 2 above the range [0, 1], with the output range
    [0.003f, 0.015f]: the result is the top value, [0.015000001f]. *)
Lemma scale_top_attained_witness :
  flt f_zero f_one = true /\
  fgt (dec 3 1000) (dec 15 1000) = false /\
  fle f_one (of_Z 2) = true /\
  scale (of_Z 2) f_zero f_one (dec 3 1000) (dec 15 1000) =
    out_top (dec 3 1000) (dec 15 1000) /\
  out_top (dec 3 1000) (dec 15 1000) = S754_finite false 16106128 (-30).
Proof.
  assert (R1 : regular (of_Z 2) = true) by (vm_compute; reflexivity).
  assert (R2 : regular f_zero = true) by (vm_compute; reflexivity).
  assert (R3 : regular f_one = true) by (vm_compute; reflexivity).
  assert (R4 : regular (dec 3 1000) = true) by (vm_compute; reflexivity).
  assert (R5 : regular (dec 15 1000) = true) by (vm_compute; reflexivity).
  assert (H1 : flt f_zero f_one = true) by (vm_compute; reflexivity).
  assert (H2 : fgt (dec 3 1000) (dec 15 1000) = false) by (vm_compute; reflexivity).
  assert (H3 : fle f_one (of_Z 2) = true) by (vm_compute; reflexivity).
  assert (H4 : is_finite (fsub f_one f_zero) = true) by (vm_compute; reflexivity).
  split; [exact H1|]. split; [exact H2|]. split; [exact H3|].
  split; [|vm_compute; reflexivity].
  exact (proj1 (scale_top_attained _ _ _ _ _ R1 R2 R3 R4 R5 H1) H2 H3 H4).
Defined.

(** With the input range [-FLT_MAX, FLT_MAX] the difference
    [inMax - inMin] overflows; at the upper end of that range the
    normalised input is infinity divided by infinity, and the result is
    a NaN although the output range is [0, 1]. *)
Lemma scale_input_range_overflows :
  is_finite (fsub (SFmax_float prec emax) (SFopp (SFmax_float prec emax))) = false /\
  is_finite (out_top f_zero f_one) = true /\
  scale (SFmax_float prec emax) (SFopp (SFmax_float prec emax)) (SFmax_float prec emax)
        f_zero f_one = S754_nan.
Proof. repeat split; vm_compute; reflexivity. Qed.

End MoreInstances.
